(** * FPGA_Telemetry: the (7,5) convolutional code, its hard-decision Viterbi
    decoder and the BER sweep harness, embedded from the Python sources.

    Python integers are modelled as [Z]; numpy integer arrays and Python lists
    as [list Z]; two-dimensional numpy arrays as [list (list Z)].  Positions in
    a list are [nat]; a Python integer used as a subscript goes through
    [Z.to_nat].  The numpy arrays hold 64-bit integers; on bit inputs every
    value the decoder stores lies between -1 and the sentinel, so no
    wrap-around is modelled.

    The first part is the model, source file by source file; the second part
    holds the proofs. *)

From Stdlib Require Import ZArith List Lia Bool QArith.
From stdpp Require Import base numbers list.
Import ListNotations.

Local Open Scope Z_scope.

(** ** Bits and parity *)

Definition is_bit (b : Z) : Prop := b = 0 \/ b = 1.

(** [bin(x).count("1")]: the number of ones in the binary numeral of [x]
    (Python prints a negative number as a sign followed by the magnitude). *)
Fixpoint pos_ones (p : positive) : Z :=
  match p with
  | xH => 1
  | xO q => pos_ones q
  | xI q => 1 + pos_ones q
  end.

Definition bin_count_ones (x : Z) : Z :=
  match x with
  | Z0 => 0
  | Zpos p => pos_ones p
  | Zneg p => pos_ones p
  end.

(** [bin(x).count("1") & 1] *)
Definition parity (x : Z) : Z := Z.land (bin_count_ones x) 1.

(** ** scripts/generate_readme_artifacts.py: encoder *)

Module Encoder.

Definition g1 : Z := 7.   (* 0b111 *)
Definition g2 : Z := 5.   (* 0b101 *)

(** One iteration of the loop of [conv_encode_7_5]: the new register and the
    two coded bits. *)
Definition shift_in (state b : Z) : Z :=
  Z.land (Z.lor (Z.shiftl state 1) (Z.land b 1)) 7.

Fixpoint conv_encode_from (state : Z) (bits : list Z) : list Z :=
  match bits with
  | [] => []
  | b :: rest =>
      let state' := shift_in state b in
      let v1 := parity (Z.land state' g1) in
      let v0 := parity (Z.land state' g2) in
      v1 :: v0 :: conv_encode_from state' rest
  end.

Definition conv_encode_7_5 (bits : list Z) : list Z := conv_encode_from 0 bits.

(** [add_tail(bits, K=3)]: [K-1] zeros after the payload. *)
Definition add_tail_K (bits : list Z) (K : Z) : list Z :=
  bits ++ repeat 0 (Z.to_nat (K - 1)).

Definition add_tail (bits : list Z) : list Z := add_tail_K bits 3.

End Encoder.

(** ** sim/test_convenc_smoke.py and sim/test_viterbi_sequence.py: the two
    register-level reference encoders *)

Module RefEncoders.

(** [conv_ref]: registers [d1], [d0]; after each bit [d0, d1 = d1, u]. *)
Fixpoint conv_ref_from (d1 d0 : Z) (bits : list Z) : list (Z * Z) :=
  match bits with
  | [] => []
  | u :: rest =>
      let y0 := Z.land (Z.lxor (Z.lxor u d1) d0) 1 in
      let y1 := Z.land (Z.lxor u d0) 1 in
      (y0, y1) :: conv_ref_from u d1 rest
  end.

Definition conv_ref (bits : list Z) : list (Z * Z) := conv_ref_from 0 0 bits.

(** [enc_7_5]: registers [s1], [s0]; after each bit [s1, s0 = s0, u]. *)
Fixpoint enc_7_5_from (s1 s0 : Z) (u_bits : list Z) : list (Z * Z) :=
  match u_bits with
  | [] => []
  | u :: rest =>
      let v1 := Z.lxor (Z.lxor u s0) s1 in
      let v0 := Z.lxor u s1 in
      (v1, v0) :: enc_7_5_from s0 u rest
  end.

Definition enc_7_5 (u_bits : list Z) : list (Z * Z) := enc_7_5_from 0 0 u_bits.

End RefEncoders.

(** The flat sequence of a list of pairs, first component first. *)
Fixpoint flatten_pairs (l : list (Z * Z)) : list Z :=
  match l with
  | [] => []
  | (a, b) :: rest => a :: b :: flatten_pairs rest
  end.

(** The last three input bits at position [k], as a three-bit word
    [u[k-2] u[k-1] u[k]]; bits before the start of the sequence are 0. *)
Definition bit_at (bits : list Z) (i : Z) : Z :=
  if i <? 0 then 0 else nth (Z.to_nat i) bits 0.

Definition last3 (bits : list Z) (k : nat) : Z :=
  4 * bit_at bits (Z.of_nat k - 2) + 2 * bit_at bits (Z.of_nat k - 1)
  + bit_at bits (Z.of_nat k).

(** ** scripts/generate_readme_artifacts.py: trellis and Viterbi decoder *)

(** [range(n)] *)
Definition range (n : Z) : list Z := map Z.of_nat (seq 0 (Z.to_nat n)).

(** Subscripts: [a[i]] on a one-dimensional array and [a[t, s]] on a
    two-dimensional one.  Every subscript of the decoder is in range; out of
    range the model reads 0 and writes nothing, where numpy raises. *)
Definition get1 (a : list Z) (i : Z) : Z := a !!! Z.to_nat i.

Definition get2 (a : list (list Z)) (t : nat) (s : Z) : Z :=
  (a !!! t) !!! Z.to_nat s.

Definition set2 (a : list (list Z)) (t : nat) (s : Z) (v : Z) : list (list Z) :=
  <[t := <[Z.to_nat s := v]> (a !!! t)]> a.

(** [np.full((rows, cols), v)] *)
Definition full (rows cols : nat) (v : Z) : list (list Z) :=
  replicate rows (replicate cols v).

Module Trellis.

Import Encoder.

Definition K : Z := 3.
Definition m : Z := K - 1.
Definition NUM_STATES : Z := Z.shiftl 1 m.

Definition new_shift (s u : Z) : Z :=
  Z.land (Z.lor (Z.shiftl s 1) u) (Z.shiftl 1 K - 1).

(** [_precompute()]: the tables [next_state[s, u]] and [out_bits[s, u, :]]. *)
Definition precompute : list (list Z) * list (list (Z * Z)) :=
  (map (fun s =>
          map (fun u => Z.land (Z.lor (Z.shiftl s 1) u) (Z.shiftl 1 (K - 1) - 1))
              [0; 1])
       (range NUM_STATES),
   map (fun s =>
          map (fun u => (parity (Z.land (new_shift s u) g1),
                         parity (Z.land (new_shift s u) g2)))
              [0; 1])
       (range NUM_STATES)).

Definition NEXT_STATE : list (list Z) := fst precompute.
Definition OUT_BITS : list (list (Z * Z)) := snd precompute.

Definition next_state (s u : Z) : Z := (NEXT_STATE !!! Z.to_nat s) !!! Z.to_nat u.
Definition out_bits (s u : Z) : Z * Z :=
  ((OUT_BITS !!! Z.to_nat s) : list (Z * Z)) !!! Z.to_nat u.

End Trellis.

Module Viterbi.

Import Trellis.

Definition INF : Z := 10 ^ 9.

(** The three arrays of one decode call. *)
Record tables : Type := Tables {
  pm : list (list Z);
  prev : list (list Z);
  prev_u : list (list Z)
}.

(** [T = len(rx_pairs) // 2] *)
Definition num_pairs (rx_pairs : list Z) : nat := (length rx_pairs / 2)%nat.

Definition init_tables (T : nat) : tables :=
  {| pm := set2 (full (T + 1) (Z.to_nat NUM_STATES) INF) 0 0 0;
     prev := full (T + 1) (Z.to_nat NUM_STATES) (-1);
     prev_u := full (T + 1) (Z.to_nat NUM_STATES) (-1) |}.

(** The body of the innermost loop: one candidate, from state [s] with input
    bit [u] at time [t], against the stored metric of its next state. *)
Definition relax (r1 r0 : Z) (t : nat) (s : Z) (st : tables) (u : Z) : tables :=
  let ns := next_state s u in
  let '(v1, v0) := out_bits s u in
  let bm := Z.lxor v1 r1 + Z.lxor v0 r0 in
  let cand := get2 (pm st) t s + bm in
  if cand <? get2 (pm st) (t + 1) ns then
    {| pm := set2 (pm st) (t + 1) ns cand;
       prev := set2 (prev st) (t + 1) ns s;
       prev_u := set2 (prev_u st) (t + 1) ns u |}
  else st.

(** The body of the loop over states: [continue] on a sentinel metric. *)
Definition visit_state (r1 r0 : Z) (t : nat) (st : tables) (s : Z) : tables :=
  if INF <=? get2 (pm st) t s then st
  else fold_left (relax r1 r0 t s) [0; 1] st.

(** The body of the loop over time. *)
Definition time_step (rx_pairs : list Z) (st : tables) (t : nat) : tables :=
  let r1 := rx_pairs !!! (2 * t)%nat in
  let r0 := rx_pairs !!! (2 * t + 1)%nat in
  fold_left (visit_state r1 r0 t) (range NUM_STATES) st.

Definition forward (rx_pairs : list Z) : tables :=
  let T := num_pairs rx_pairs in
  fold_left (time_step rx_pairs) (seq 0 T) (init_tables T).

(** [np.argmin]: the first position of the least element. *)
Fixpoint argmin_from (l : list Z) (i best_i best_v : Z) : Z :=
  match l with
  | [] => best_i
  | x :: rest =>
      if x <? best_v then argmin_from rest (i + 1) i x
      else argmin_from rest (i + 1) best_i best_v
  end.

Definition argmin (l : list Z) : Z :=
  match l with
  | [] => 0
  | x :: rest => argmin_from rest 1 0 x
  end.

(** The body of the traceback loop, on the pair (uhat, s). *)
Definition back_step (st : tables) (acc : list Z * Z) (t : nat) : list Z * Z :=
  let '(uhat, s) := acc in
  (<[(t - 1)%nat := get2 (prev_u st) t s]> uhat,
   if 0 <=? get2 (prev st) t s then get2 (prev st) t s else 0).

Definition traceback (st : tables) (T : nat) (s : Z) : list Z :=
  fst (fold_left (back_step st) (rev (seq 1 T)) (replicate T 0, s)).

Definition viterbi_decode_hard_7_5 (rx_pairs : list Z) : list Z :=
  let T := num_pairs rx_pairs in
  let st := forward rx_pairs in
  let s := argmin (pm st !!! T) in
  traceback st T s.

End Viterbi.

(** One coded bit flipped in place, [coded[i] ^= 1], as the single-error
    tests do on an otherwise noiseless sequence. *)
Definition flip_coded_bit (i : nat) (coded : list Z) : list Z :=
  <[i := Z.lxor (coded !!! i) 1]> coded.

(** ** Python slices and comparisons of bit lists *)

(** [l[start:]], for any integer [start] (a negative one counts from the
    end; [l[-0:]] is [l[0:]], the whole list). *)
Definition slice_from (l : list Z) (start : Z) : list Z :=
  let n := Z.of_nat (length l) in
  let i := if start <? 0 then Z.max (n + start) 0 else Z.min start n in
  skipn (Z.to_nat i) l.

(** [l[:stop]] for [stop = len(payload)], a length. *)
Definition slice_to (l : list Z) (stop : nat) : list Z := firstn stop l.

(** [sum(a != b for a, b in zip(xs, ys))] *)
Fixpoint count_diff (xs ys : list Z) : Z :=
  match xs, ys with
  | x :: xs', y :: ys' => (if x =? y then 0 else 1) + count_diff xs' ys'
  | _, _ => 0
  end.

(** Floating-point values that the harness only compares or divides are
    modelled by the rationals they denote: a flip probability, a draw of
    [rng.random()], a bit error rate. *)
Definition Qltb (x y : Q) : bool := negb (Qle_bool y x).

(** ** sim/test_ber_sweep.py: the bit-flip channel *)

(** The seeded generator [random.Random(seed)], by the two methods the
    harness calls. *)
Class PyRandom (G : Type) : Type := {
  seed_rng : Z -> G;          (* random.Random(seed) *)
  random : G -> Q * G;        (* rng.random() *)
  randint01 : G -> Z * G      (* rng.randint(0, 1) *)
}.

(** What the library documents of the two methods: [random()] is in
    [0, 1) and [randint(0, 1)] is 0 or 1. *)
Definition well_ranged (G : Type) `{PyRandom G} : Prop :=
  forall g : G,
    (0 <= fst (random g))%Q /\ (fst (random g) < 1)%Q /\
    is_bit (fst (randint01 g)).

Section BitFlipChannel.

Context {G : Type} `{PyRandom G}.

(** [b ^ 1 if rng.random() < p else b] *)
Definition flip_bit (b : Z) (p : Q) (g : G) : Z * G :=
  let '(x, g') := random g in
  (if Qltb x p then Z.lxor b 1 else b, g').

(** [[(flip_bit(v1, p, rng), flip_bit(v0, p, rng)) for (v1, v0) in coded]] *)
Fixpoint flip_channel (coded : list (Z * Z)) (p : Q) (g : G)
  : list (Z * Z) * G :=
  match coded with
  | [] => ([], g)
  | (v1, v0) :: rest =>
      let '(n1, g1) := flip_bit v1 p g in
      let '(n0, g0) := flip_bit v0 p g1 in
      let '(noisy, g') := flip_channel rest p g0 in
      ((n1, n0) :: noisy, g')
  end.

(** [[rng.randint(0, 1) for _ in range(n)]] *)
Fixpoint draw_bits (n : nat) (g : G) : list Z * G :=
  match n with
  | O => ([], g)
  | S k =>
      let '(b, g1) := randint01 g in
      let '(bs, g') := draw_bits k g1 in
      (b :: bs, g')
  end.

End BitFlipChannel.

(** ** sim/test_ber_sweep.py: the device under test and the harness *)

(** The signals the harness drives. *)
Record pins : Type := Pins {
  enc_rst_n : Z;
  dec_rst : Z;
  enc_in_valid : Z;
  enc_bit_in : Z;
  dec_sym_valid : Z;
  dec_rx_sym : Z
}.

Definition set_enc_rst_n (v : Z) (p : pins) : pins :=
  Pins v (dec_rst p) (enc_in_valid p) (enc_bit_in p) (dec_sym_valid p) (dec_rx_sym p).
Definition set_dec_rst (v : Z) (p : pins) : pins :=
  Pins (enc_rst_n p) v (enc_in_valid p) (enc_bit_in p) (dec_sym_valid p) (dec_rx_sym p).
Definition set_enc_in_valid (v : Z) (p : pins) : pins :=
  Pins (enc_rst_n p) (dec_rst p) v (enc_bit_in p) (dec_sym_valid p) (dec_rx_sym p).
Definition set_enc_bit_in (v : Z) (p : pins) : pins :=
  Pins (enc_rst_n p) (dec_rst p) (enc_in_valid p) v (dec_sym_valid p) (dec_rx_sym p).
Definition set_dec_sym_valid (v : Z) (p : pins) : pins :=
  Pins (enc_rst_n p) (dec_rst p) (enc_in_valid p) (enc_bit_in p) v (dec_rx_sym p).
Definition set_dec_rx_sym (v : Z) (p : pins) : pins :=
  Pins (enc_rst_n p) (dec_rst p) (enc_in_valid p) (enc_bit_in p) (dec_sym_valid p) v.

(** The encoder and decoder hardware is not part of the Python sources: the
    harness sees a clocked device, by what one rising clock edge does to it
    under the driven signals and by the signals it reads back. *)
Class Dut (D : Type) : Type := {
  rising_edge : pins -> D -> D;
  enc_out_valid : D -> Z;
  enc_y0 : D -> Z;
  enc_y1 : D -> Z;
  dec_bit_valid : D -> Z;
  dec_bit_out : D -> Z
}.

(** The two exceptions of the harness. *)
Inductive exn : Type :=
| Timeout_waiting_for_enc_out_valid
| Not_enough_decided_bits (got needed : Z).

Inductive outcome (A : Type) : Type :=
| Returns (a : A)
| Raises (e : exn).
Arguments Returns {A} a.
Arguments Raises {A} e.

(** The state a test coroutine acts on: the device, the driven signals and
    the generator. *)
Record world (D G : Type) : Type := World {
  w_dut : D;
  w_pins : pins;
  w_rng : G
}.
Arguments World {D G}.
Arguments w_dut {D G}.
Arguments w_pins {D G}.
Arguments w_rng {D G}.

Definition M (W A : Type) : Type := W -> outcome (A * W).

Definition ret {W A : Type} (a : A) : M W A := fun w => Returns (a, w).

Definition bind {W A B : Type} (c : M W A) (k : A -> M W B) : M W B :=
  fun w =>
    match c w with
    | Returns (a, w') => k a w'
    | Raises e => Raises e
    end.

Definition raise {W A : Type} (e : exn) : M W A := fun _ => Raises e.

Declare Scope harness_scope.
Delimit Scope harness_scope with harness.
Notation "x <- c ;; k" := (bind c (fun x => k))
  (at level 100, c at next level, k at level 200, right associativity)
  : harness_scope.
Notation "c ;; k" := (bind c (fun _ => k))
  (at level 100, k at level 200, right associativity) : harness_scope.

(** A step that does not touch the state. *)
Definition lift_outcome {W A : Type} (o : outcome A) : M W A :=
  fun w =>
    match o with
    | Returns a => Returns (a, w)
    | Raises e => Raises e
    end.

(** [for _ in range(n): body] *)
Fixpoint repeatM {W : Type} (n : nat) (body : M W unit) : M W unit :=
  match n with
  | O => ret tt
  | S k => bind body (fun _ => repeatM k body)
  end.

(** The result of a run without its final state. *)
Definition result_of {W A : Type} (o : outcome (A * W)) : outcome A :=
  match o with
  | Returns (a, _) => Returns a
  | Raises e => Raises e
  end.

Inductive mapping : Type := y0_is_v1 | y1_is_v1.

(** The knobs of [test_ber_sweep]. *)
Record config : Type := Config {
  TB_LEN : Z;
  PAYLOAD_LEN : Z;
  TRIALS : Z;
  P_FLIPS : list Q;
  ENC_LATENCY : Z;
  rng_seed : Z
}.

Definition CLK_NS : Z := 10.

(** The knobs as the source sets them. *)
Definition source_config : config :=
  {| TB_LEN := 12; PAYLOAD_LEN := 200; TRIALS := 20;
     P_FLIPS := [0 # 1; 2 # 100; 5 # 100; 10 # 100]%Q;
     ENC_LATENCY := 0; rng_seed := 42 |}.

(** One row of the CSV. *)
Record row : Type := Row {
  p_flip : Q;
  BER_hw : Q;
  errors : Z;
  total_bits : Z;
  trials : Z;
  payload_len : Z;
  tb_len : Z;
  clk_ns : Z;
  seed : Z;
  row_mapping : mapping
}.

Section Harness.

Context {D G : Type} `{Dut D} `{PyRandom G}.

Local Open Scope harness_scope.

Local Abbreviation W := (world D G).

(** [dut.<signal>.value = v] *)
Definition drive (f : pins -> pins) : M W unit :=
  fun w => Returns (tt, World (w_dut w) (f (w_pins w)) (w_rng w)).

(** [await RisingEdge(dut.clk)] *)
Definition RisingEdge : M W unit :=
  fun w => Returns (tt, World (rising_edge (w_pins w) (w_dut w)) (w_pins w) (w_rng w)).

(** [int(dut.<signal>.value)] *)
Definition read (signal : D -> Z) : M W Z :=
  fun w => Returns (signal (w_dut w), w).

(** A call that only uses the generator. *)
Definition with_rng {A : Type} (f : G -> A * G) : M W A :=
  fun w => let '(a, g') := f (w_rng w) in Returns (a, World (w_dut w) (w_pins w) g').

Definition reset_chain : M W unit :=
  drive (set_enc_rst_n 0) ;;
  drive (set_dec_rst 1) ;;
  drive (set_enc_in_valid 0) ;;
  drive (set_enc_bit_in 0) ;;
  drive (set_dec_sym_valid 0) ;;
  drive (set_dec_rx_sym 0) ;;
  repeatM 5 RisingEdge ;;
  drive (set_enc_rst_n 1) ;;
  drive (set_dec_rst 0) ;;
  RisingEdge.

(** The last loop of [enc_push_bit_and_get_symbol]: poll [enc_out_valid]
    for at most [n] cycles, then time out. *)
Fixpoint wait_enc_out_valid (n : nat) : M W (Z * Z) :=
  match n with
  | O => raise Timeout_waiting_for_enc_out_valid
  | S k =>
      v <- read enc_out_valid ;;
      if v =? 0 then RisingEdge ;; wait_enc_out_valid k
      else
        y0 <- read enc_y0 ;;
        y1 <- read enc_y1 ;;
        ret (y0, y1)
  end.

Definition enc_push_bit_and_get_symbol
    (u : Z) (enc_latency_cycles : Z) (timeout_cycles : Z) : M W (Z * Z) :=
  drive (set_enc_in_valid 1) ;;
  drive (set_enc_bit_in u) ;;
  RisingEdge ;;
  drive (set_enc_in_valid 0) ;;
  repeatM (Z.to_nat enc_latency_cycles) RisingEdge ;;
  wait_enc_out_valid (Z.to_nat timeout_cycles).

(** The pins read as [(v1, v0)] under a mapping. *)
Definition interpret (mp : mapping) (y : Z * Z) : Z * Z :=
  match mp with
  | y0_is_v1 => (fst y, snd y)
  | y1_is_v1 => (snd y, fst y)
  end.

(** The encode loop: one symbol per input bit, in order. *)
Fixpoint encode_stream (mp : mapping) (enc_latency : Z) (in_stream : list Z)
  : M W (list (Z * Z)) :=
  match in_stream with
  | [] => ret []
  | u :: rest =>
      y <- enc_push_bit_and_get_symbol u enc_latency 16 ;;
      coded <- encode_stream mp enc_latency rest ;;
      ret (interpret mp y :: coded)
  end.

(** [if int(dut.dec_bit_valid.value): decided.append(int(dut.dec_bit_out.value))] *)
Definition collect (decided : list Z) : M W (list Z) :=
  bv <- read dec_bit_valid ;;
  if bv =? 0 then ret decided
  else b <- read dec_bit_out ;; ret (decided ++ [b]).

(** The decode loop. *)
Fixpoint feed_decoder (noisy : list (Z * Z)) (decided : list Z) : M W (list Z) :=
  match noisy with
  | [] => ret decided
  | (v1, v0) :: rest =>
      drive (set_dec_rx_sym (Z.lor (Z.shiftl v1 1) v0)) ;;
      drive (set_dec_sym_valid 1) ;;
      RisingEdge ;;
      drive (set_dec_sym_valid 0) ;;
      decided' <- collect decided ;;
      feed_decoder rest decided'
  end.

(** The drain loop. *)
Fixpoint drain (n : nat) (decided : list Z) : M W (list Z) :=
  match n with
  | O => ret decided
  | S k =>
      RisingEdge ;;
      decided' <- collect decided ;;
      drain k decided'
  end.

(** The decode loop followed by the drain loop. *)
Definition decode_stream (tb_len : Z) (noisy : list (Z * Z)) : M W (list Z) :=
  decided <- feed_decoder noisy [] ;;
  drain (Z.to_nat (2 * tb_len)) decided.

(** The end of [_one_pass_errors]: (#errors, recovered_len). *)
Definition one_pass_compare (decided payload : list Z) : Z * Z :=
  let recovered := slice_from decided (- Z.of_nat (length payload)) in
  if negb (length recovered =? length payload)%nat
  then (Z.of_nat (length payload), Z.of_nat (length recovered))
  else (count_diff recovered payload, Z.of_nat (length recovered)).

(** [_one_pass_errors] up to the flush: the decided bits of one noiseless
    pass. *)
Definition one_pass_run (mp : mapping) (payload : list Z)
    (tb_len enc_latency : Z) : M W (list Z) :=
  reset_chain ;;
  coded <- encode_stream mp enc_latency (payload ++ repeat 0 (Z.to_nat tb_len)) ;;
  let noisy := coded in
  decode_stream tb_len noisy.

Definition _one_pass_errors (mp : mapping) (payload : list Z)
    (tb_len enc_latency : Z) : M W (Z * Z) :=
  decided <- one_pass_run mp payload tb_len enc_latency ;;
  ret (one_pass_compare decided payload).

Definition calibrate_mapping (tb_len enc_latency : Z) : M W mapping :=
  let test_len := 64%nat in
  payload <- with_rng (draw_bits test_len) ;;
  a <- _one_pass_errors y0_is_v1 payload tb_len enc_latency ;;
  b <- _one_pass_errors y1_is_v1 payload tb_len enc_latency ;;
  if fst a <=? fst b then ret y0_is_v1 else ret y1_is_v1.

(** Step 5 of a sweep trial: the comparison of the decided bits with the
    payload. *)
Definition trial_compare (payload_len : Z) (decided payload : list Z) : outcome Z :=
  let recovered := slice_from decided (- payload_len) in
  if negb (Z.of_nat (length recovered) =? payload_len)
  then Raises (Not_enough_decided_bits (Z.of_nat (length recovered)) payload_len)
  else Returns (count_diff recovered payload).

(** Steps 1 to 4 of a sweep trial: the payload and the decided bits. *)
Definition trial_run (cfg : config) (mp : mapping) (p : Q) : M W (list Z * list Z) :=
  reset_chain ;;
  payload <- with_rng (draw_bits (Z.to_nat (PAYLOAD_LEN cfg))) ;;
  coded <- encode_stream mp (ENC_LATENCY cfg)
             (payload ++ repeat 0 (Z.to_nat (TB_LEN cfg))) ;;
  noisy <- with_rng (flip_channel coded p) ;;
  decided <- decode_stream (TB_LEN cfg) noisy ;;
  ret (payload, decided).

Definition trial (cfg : config) (mp : mapping) (p : Q) : M W Z :=
  pd <- trial_run cfg mp p ;;
  lift_outcome (trial_compare (PAYLOAD_LEN cfg) (snd pd) (fst pd)).

(** The loop over trials, on the two counters. *)
Fixpoint trials_loop (n : nat) (cfg : config) (mp : mapping) (p : Q)
    (bit_errors bit_total : Z) : M W (Z * Z) :=
  match n with
  | O => ret (bit_errors, bit_total)
  | S k =>
      errs <- trial cfg mp p ;;
      trials_loop k cfg mp p (bit_errors + errs) (bit_total + PAYLOAD_LEN cfg)
  end.

Definition sweep_point (cfg : config) (mp : mapping) (p : Q) : M W row :=
  counts <- trials_loop (Z.to_nat (TRIALS cfg)) cfg mp p 0 0 ;;
  let bit_errors := fst counts in
  let bit_total := snd counts in
  let ber := if bit_total =? 0 then 0%Q
             else (inject_Z bit_errors / inject_Z bit_total)%Q in
  ret {| p_flip := p; BER_hw := ber; errors := bit_errors;
         total_bits := bit_total; trials := TRIALS cfg;
         payload_len := PAYLOAD_LEN cfg; tb_len := TB_LEN cfg;
         clk_ns := CLK_NS; seed := rng_seed cfg; row_mapping := mp |}.

Fixpoint sweep (cfg : config) (mp : mapping) (ps : list Q) : M W (list row) :=
  match ps with
  | [] => ret []
  | p :: rest =>
      r <- sweep_point cfg mp p ;;
      rows <- sweep cfg mp rest ;;
      ret (r :: rows)
  end.

(** [test_ber_sweep] up to the rows it hands to the CSV writer, from the
    device as the simulator starts it. *)
Definition test_ber_sweep (cfg : config) (d : D) (p0 : pins) : outcome (list row) :=
  result_of
    ((mp <- calibrate_mapping (TB_LEN cfg) (ENC_LATENCY cfg) ;;
      sweep cfg mp (P_FLIPS cfg))
       (World d p0 (seed_rng (rng_seed cfg)))).

End Harness.

(** ** scripts/generate_readme_artifacts.py: simulate_ber *)

(** The numpy generator and the floating-point link between the coded bits
    and the hard decisions ([bpsk_map], [upsample_rect], [add_awgn],
    [matched_filter_rect] and the threshold [samp < 0]) are taken as given:
    the link maps the transmitted bits to as many received bits. *)
Class NumpyLink (N : Type) : Type := {
  integers01 : nat -> N -> list Z * N;       (* rng.integers(0, 2, size=n) *)
  hard_link : Q -> Z -> list Z -> N -> list Z * N
}.

Record ber_row : Type := BerRow {
  EbN0_dB : Q;
  BER_coded : Q;
  BER_uncoded : Q
}.

(** [np.mean(xs != ys)] on arrays of one length. *)
Definition mean_ne (xs ys : list Z) : Q :=
  (inject_Z (count_diff xs ys) / inject_Z (Z.of_nat (length xs)))%Q.

Section SimulateBer.

Context {N : Type} `{NumpyLink N}.

Import Encoder Trellis Viterbi.

(** [dec[:len(payload)]] for [dec = viterbi_decode_hard_7_5(hard)] *)
Definition dec_payload (payload hard : list Z) : list Z :=
  slice_to (viterbi_decode_hard_7_5 hard) (length payload).

(** The body of the loop of [simulate_ber]. *)
Definition simulate_ber_point (nbits : nat) (eb : Q) (sps : Z) (g : N)
  : ber_row * N :=
  let '(payload, g1) := integers01 nbits g in
  let bits_tx := add_tail_K payload K in
  let coded := conv_encode_7_5 bits_tx in
  let '(hard, g2) := hard_link eb sps coded g1 in
  let ber_coded := mean_ne (dec_payload payload hard) payload in
  let '(u_bits, g3) := integers01 nbits g2 in
  let '(u_hard, g4) := hard_link eb sps u_bits g3 in
  let ber_uncoded := mean_ne u_hard u_bits in
  ({| EbN0_dB := eb; BER_coded := ber_coded; BER_uncoded := ber_uncoded |}, g4).

Fixpoint simulate_ber (nbits : nat) (ebn0_list : list Q) (sps : Z) (g : N)
  : list ber_row * N :=
  match ebn0_list with
  | [] => ([], g)
  | eb :: rest =>
      let '(r, g1) := simulate_ber_point nbits eb sps g in
      let '(rows, g') := simulate_ber nbits rest sps g1 in
      (r :: rows, g')
  end.

End SimulateBer.

(** ** Concrete generators and devices, to run the harness on *)

Module Samples.

(** A linear congruential generator with the two methods of the harness. *)
Definition lcg_next (s : Z) : Z := (1103515245 * s + 12345) mod 2147483648.

#[export] Instance lcg : PyRandom Z := {|
  seed_rng := fun z => z mod 2147483648;
  random := fun s => (Qmake (lcg_next s) 2147483648, lcg_next s);
  randint01 := fun s => ((lcg_next s / 65536) mod 2, lcg_next s)
|}.

(** The same generator with a count of the calls made on it. *)
#[export] Instance lcg_counted : PyRandom (Z * nat) := {|
  seed_rng := fun z => (z mod 2147483648, O);
  random := fun s => (Qmake (lcg_next (fst s)) 2147483648,
                      (lcg_next (fst s), S (snd s)));
  randint01 := fun s => ((lcg_next (fst s) / 65536) mod 2,
                         (lcg_next (fst s), S (snd s)))
|}.

(** A small device: the encoder is the register pair of [conv_ref]; the
    decoder answers every valid symbol with [v1 xor v0], which is the input
    bit of the symbol before (one symbol of latency). *)
Record toy : Type := Toy {
  t_d1 : Z; t_d0 : Z;
  t_enc_valid : Z; t_y0 : Z; t_y1 : Z;
  t_dec_valid : Z; t_bit : Z
}.

Definition toy_reset : toy := Toy 0 0 0 0 0 0 0.

Definition toy_edge (p : pins) (d : toy) : toy :=
  if (enc_rst_n p =? 0) || negb (dec_rst p =? 0) then toy_reset
  else
    let u := enc_bit_in p in
    let enc := negb (enc_in_valid p =? 0) in
    let dec := negb (dec_sym_valid p =? 0) in
    {| t_d1 := if enc then u else t_d1 d;
       t_d0 := if enc then t_d1 d else t_d0 d;
       t_enc_valid := if enc then 1 else 0;
       t_y0 := if enc then Z.land (Z.lxor (Z.lxor u (t_d1 d)) (t_d0 d)) 1 else t_y0 d;
       t_y1 := if enc then Z.land (Z.lxor u (t_d0 d)) 1 else t_y1 d;
       t_dec_valid := if dec then 1 else 0;
       t_bit := if dec
                then Z.lxor (Z.land (Z.shiftr (dec_rx_sym p) 1) 1) (Z.land (dec_rx_sym p) 1)
                else t_bit d |}.

#[export] Instance toy_dut : Dut toy := {|
  rising_edge := toy_edge;
  enc_out_valid := t_enc_valid;
  enc_y0 := t_y0;
  enc_y1 := t_y1;
  dec_bit_valid := t_dec_valid;
  dec_bit_out := t_bit
|}.

(** The same device with a decoder that never asserts [dec_bit_valid]. *)
Record mute : Type := Mute { unmute : toy }.

#[export] Instance mute_dut : Dut mute := {|
  rising_edge := fun p d => Mute (toy_edge p (unmute d));
  enc_out_valid := fun d => t_enc_valid (unmute d);
  enc_y0 := fun d => t_y0 (unmute d);
  enc_y1 := fun d => t_y1 (unmute d);
  dec_bit_valid := fun _ => 0;
  dec_bit_out := fun d => t_bit (unmute d)
|}.

Definition idle_pins : pins := Pins 0 0 0 0 0 0.

(** What a run returned, or a default when it raised. *)
Definition returned {A W : Type} (o : outcome (A * W)) (default : A * W) : A * W :=
  match o with
  | Returns x => x
  | Raises _ => default
  end.

Definition small_config : config :=
  {| TB_LEN := 1; PAYLOAD_LEN := 8; TRIALS := 3;
     P_FLIPS := [0 # 1; 1 # 10]%Q; ENC_LATENCY := 0; rng_seed := 42 |}.

(** A configuration whose only flip probability is negative. *)
Definition negative_p_config : config :=
  {| TB_LEN := 1; PAYLOAD_LEN := 8; TRIALS := 2;
     P_FLIPS := [-1 # 2]%Q; ENC_LATENCY := 0; rng_seed := 42 |}.

End Samples.

(** ** scripts/generate_readme_artifacts.py: pulse shaping utilities *)

(** [upsample_rect(symbols, sps)]: [np.repeat(symbols, sps)], every symbol
    [sps] times in a row; the count [sps] is a natural number (numpy raises
    on a negative one). *)
Definition upsample_rect {A : Type} (symbols : list A) (sps : nat) : list A :=
  flat_map (fun x => replicate sps x) symbols.

(** [np.arange(start, stop, step)] on natural numbers, for a positive
    [step] (numpy raises on a zero step). *)
Definition arange (start stop step : nat) : list nat :=
  map (fun k => start + k * step)%nat
      (seq 0 ((stop - start + (step - 1)) / step)).

(** The third result of [matched_filter_rect(rx, sps)]:
    [np.arange(sps//2, len(y), sps)], where [y] has the length of [rx]
    (the mode "same" of [np.convolve], for [len(rx) >= sps]). *)
Definition centers (len_y sps : nat) : list nat := arange (sps / 2) len_y sps.

(** [a[idx]] for an index array [idx]. *)
Definition take_at {A : Type} `{Inhabited A} (a : list A) (idx : list nat) : list A :=
  map (fun i => a !!! i) idx.

(** The loop of [eye_traces(mf, sps, ntr)] from trace number [k], with
    [fuel] iterations of [range(ntr)] left: the window [mf[st:st+span]] is
    appended while it fits, and the loop breaks at the first one that does
    not.  [sps] and [ntr] are natural numbers, as the callers pass them. *)
Fixpoint eye_traces_from {A : Type} (mf : list A) (sps k fuel : nat)
  : list (list A) :=
  match fuel with
  | O => []
  | S fuel' =>
      let span := (2 * sps)%nat in
      let st := (k * sps)%nat in
      if (st + span <=? length mf)%nat
      then take span (drop st mf) :: eye_traces_from mf sps (S k) fuel'
      else []
  end.

(** [eye_traces(mf, sps, ntr)]: the rows of the stacked array (no row at
    all for [np.empty((0, span))]). *)
Definition eye_traces {A : Type} (mf : list A) (sps ntr : nat) : list (list A) :=
  eye_traces_from mf sps 0 ntr.

(** ** scripts/generate_readme_artifacts.py: the generator of the module *)

(** [np.random.default_rng(seed)] *)
Class NumpySeed (N : Type) : Type := {
  default_rng : Z -> N
}.

Section Script.

Context {N : Type} `{NumpyLink N} `{NumpySeed N}.

(** [rng = np.random.default_rng(42)]: the one generator of the module.
    The functions that draw ([simulate_ber], and [add_awgn] inside the
    link) use it where the call before left it; the model passes its state
    in and out of [simulate_ber]. *)
Definition rng : N := default_rng 42.

(** The rows of [df = simulate_ber()], the first statement of [main]: the
    default arguments, and the generator as the module created it, since
    nothing draws before. *)
Definition main_ber_rows : list ber_row :=
  fst (simulate_ber (Z.to_nat 20000)
         [0 # 1; 1 # 1; 2 # 1; 3 # 1; 4 # 1; 5 # 1; 6 # 1; 7 # 1]%Q 8 rng).

End Script.

(** ** Further devices and links, to run the harness and [simulate_ber] on *)

Module SilentSample.

(** A device whose outputs stay at 0: its encoder never asserts
    [enc_out_valid]. *)
#[export] Instance silent_dut : Dut unit := {|
  rising_edge := fun _ d => d;
  enc_out_valid := fun _ => 0;
  enc_y0 := fun _ => 0;
  enc_y1 := fun _ => 0;
  dec_bit_valid := fun _ => 0;
  dec_bit_out := fun _ => 0
|}.

End SilentSample.

Module LinkSample.

Import Samples.

(** A link over the sample generator: the bits are drawn from it, and the
    channel gets the first transmitted bit wrong and all others right. *)
#[export] Instance first_bit_link : NumpyLink Z := {|
  integers01 := fun n g => draw_bits n g;
  hard_link := fun _ _ tx g =>
    (match tx with
     | [] => []
     | b :: rest => Z.lxor b 1 :: rest
     end, g)
|}.

End LinkSample.

Module SeededLinkSample.

Import Samples.

(** A link whose noise takes one step of the sample generator for each
    sample of the signal, and decides every bit as it was sent. *)
#[export] Instance stepping_link : NumpyLink Z := {|
  integers01 := fun n g => draw_bits n g;
  hard_link := fun _ sps tx g =>
    (tx, Nat.iter (length tx * Z.to_nat sps) lcg_next g)
|}.

#[export] Instance lcg_seed : NumpySeed Z := {|
  default_rng := fun z => z mod 2147483648
|}.

End SeededLinkSample.
(** * Proofs *)

(** ** The model on the test vectors of the sources *)

(** sim/test_viterbi_sequence.py: the payload [1, 1, 0, 1, 1] is coded as
    11 01 01 00 01. *)
Example enc_7_5_docstring :
  RefEncoders.enc_7_5 [1; 1; 0; 1; 1] = [(1, 1); (0, 1); (0, 1); (0, 0); (0, 1)].
Proof. reflexivity. Qed.

(** The same test: with a tail of five zeros and the first bit of symbol 3
    flipped, the decoder of the script returns the payload and the tail. *)
Example decode_one_flip :
  Viterbi.viterbi_decode_hard_7_5
    (flip_coded_bit 6
       (flatten_pairs (RefEncoders.enc_7_5 ([1; 1; 0; 1; 1] ++ [0; 0; 0; 0; 0]))))
  = [1; 1; 0; 1; 1; 0; 0; 0; 0; 0].
Proof. vm_compute. reflexivity. Qed.

(** The trellis tables of [_precompute]. *)
Example precompute_tables :
  Trellis.NEXT_STATE = [[0; 1]; [2; 3]; [0; 1]; [2; 3]] /\
  Trellis.OUT_BITS =
    [[(0, 0); (1, 1)]; [(1, 0); (0, 1)]; [(1, 1); (0, 0)]; [(0, 1); (1, 0)]].
Proof. split; reflexivity. Qed.

(** ** Equivalence of the three encoders *)

Section EncoderEquivalence.

Import Encoder RefEncoders.

Lemma conv_ref_enc_7_5_from (bits : list Z) :
  Forall is_bit bits ->
  forall a b, is_bit a -> is_bit b ->
    conv_ref_from b a bits = enc_7_5_from a b bits.
Proof.
  induction 1 as [| u rest Hu _ IH]; intros a b Ha Hb; [reflexivity |].
  cbn [conv_ref_from enc_7_5_from].
  rewrite (IH b u Hb Hu). f_equal.
  destruct Ha as [-> | ->], Hb as [-> | ->], Hu as [-> | ->]; reflexivity.
Qed.

Lemma lor_shiftl1_bit (x b : Z) :
  is_bit b -> Z.lor (Z.shiftl x 1) b = 2 * x + b.
Proof.
  intros Hb. rewrite Z.shiftl_mul_pow2 by lia.
  replace (x * 2 ^ 1) with (2 * x) by lia.
  destruct Hb as [-> | ->]; [rewrite Z.lor_0_r; lia |].
  apply Z.bits_inj'. intros n Hn.
  rewrite Z.lor_spec.
  destruct (Z.eq_dec n 0) as [-> | Hne].
  - rewrite Z.testbit_odd_0, Z.testbit_even_0. reflexivity.
  - replace n with (Z.succ (n - 1)) by lia.
    rewrite Z.testbit_odd_succ, Z.testbit_even_succ by lia.
    replace (Z.testbit 1 (Z.succ (n - 1))) with false; [apply orb_false_r |].
    symmetry. apply Z.bits_above_log2; cbn; lia.
Qed.

(** The register after one step: the two low bits of the old register
    followed by the new bit. *)
Lemma shift_in_bits (st a b u : Z) :
  is_bit a -> is_bit b -> is_bit u -> Z.land st 3 = 2 * a + b ->
  shift_in st u = 4 * a + 2 * b + u.
Proof.
  intros Ha Hb Hu Hst. unfold shift_in.
  replace (Z.land u 1) with u
    by (destruct Hu as [-> | ->]; reflexivity).
  rewrite lor_shiftl1_bit by assumption.
  change 7 with (Z.ones 3). rewrite Z.land_ones by lia.
  change 3 with (Z.ones 2) in Hst. rewrite Z.land_ones in Hst by lia.
  change (2 ^ 2) with 4 in Hst. change (2 ^ 3) with 8.
  pose proof (Z.div_mod st 4 ltac:(lia)) as Hdm.
  rewrite Hst in Hdm.
  replace (2 * st + u) with ((4 * a + 2 * b + u) + (st / 4) * 8) by lia.
  rewrite Z.mod_add by lia.
  apply Z.mod_small. unfold is_bit in *. lia.
Qed.

(** The register of [conv_encode_7_5] holds the last three input bits; only
    its two low bits matter for the next step. *)
Lemma conv_encode_conv_ref_from (bits : list Z) :
  Forall is_bit bits ->
  forall st a b, is_bit a -> is_bit b -> Z.land st 3 = 2 * a + b ->
    conv_encode_from st bits = flatten_pairs (conv_ref_from b a bits).
Proof.
  induction 1 as [| u rest Hu _ IH]; intros st a b Ha Hb Hst; [reflexivity |].
  cbn [conv_encode_from conv_ref_from flatten_pairs].
  assert (Hs : shift_in st u = 4 * a + 2 * b + u)
    by (apply shift_in_bits; assumption).
  rewrite Hs. clear Hs.
  rewrite (IH (4 * a + 2 * b + u) b u Hb Hu); clear IH Hst;
    destruct Ha as [-> | ->], Hb as [-> | ->], Hu as [-> | ->]; reflexivity.
Qed.

(** Three consecutive entries of a list as a three-bit word. *)
Definition win3 (l : list Z) (k : nat) : Z :=
  4 * nth k l 0 + 2 * nth (S k) l 0 + nth (S (S k)) l 0.

Lemma last3_win3 (bits : list Z) (k : nat) :
  last3 bits k = win3 (0 :: 0 :: bits) k.
Proof.
  unfold last3, win3, bit_at.
  destruct k as [| [| k]]; [reflexivity | reflexivity |].
  rewrite !(proj2 (Z.ltb_ge _ _)) by lia.
  replace (Z.to_nat (Z.of_nat (S (S k)) - 2)) with k by lia.
  replace (Z.to_nat (Z.of_nat (S (S k)) - 1)) with (S k) by lia.
  rewrite Nat2Z.id. reflexivity.
Qed.

Lemma conv_ref_from_window (bits : list Z) :
  Forall is_bit bits ->
  forall a b k, is_bit a -> is_bit b -> (k < length bits)%nat ->
    conv_ref_from b a bits !! k =
    Some (parity (Z.land (win3 (a :: b :: bits) k) 7),
          parity (Z.land (win3 (a :: b :: bits) k) 5)).
Proof.
  induction 1 as [| u rest Hu _ IH]; intros a b k Ha Hb Hk; [cbn in Hk; lia |].
  destruct k as [| k].
  - cbn [conv_ref_from lookup list_lookup]. unfold win3. cbn [nth].
    destruct Ha as [-> | ->], Hb as [-> | ->], Hu as [-> | ->]; reflexivity.
  - cbn [conv_ref_from]. rewrite lookup_cons.
    rewrite (IH b u k Hb Hu) by (cbn in Hk; lia).
    reflexivity.
Qed.

Lemma flatten_pairs_lookup (l : list (Z * Z)) (k : nat) (a b : Z) :
  l !! k = Some (a, b) ->
  flatten_pairs l !! (2 * k)%nat = Some a /\
  flatten_pairs l !! (2 * k + 1)%nat = Some b.
Proof.
  revert k. induction l as [| [x y] l IH]; intros k Hk; [discriminate |].
  destruct k as [| k].
  - cbn in Hk. injection Hk as -> ->. split; reflexivity.
  - cbn in Hk. apply IH in Hk as [H1 H2].
    replace (2 * S k)%nat with (S (S (2 * k))) by lia.
    replace (S (S (2 * k)) + 1)%nat with (S (S (2 * k + 1))) by lia.
    split; assumption.
Qed.

(** C10: on a bit sequence, the k-th output pair of [conv_ref], the k-th
    output pair of [enc_7_5] and the pair of entries [2k], [2k+1] of
    [conv_encode_7_5] are one pair: the parity of the last three input bits
    under the mask 0b111, then under the mask 0b101. *)
Theorem encoders_equivalent (bits : list Z) (k : nat) :
  Forall is_bit bits -> (k < length bits)%nat ->
  exists y0 y1 : Z,
    conv_ref bits !! k = Some (y0, y1) /\
    enc_7_5 bits !! k = Some (y0, y1) /\
    conv_encode_7_5 bits !! (2 * k)%nat = Some y0 /\
    conv_encode_7_5 bits !! (2 * k + 1)%nat = Some y1 /\
    y0 = parity (Z.land (last3 bits k) 7) /\
    y1 = parity (Z.land (last3 bits k) 5).
Proof.
  intros Hbits Hk.
  assert (H0 : is_bit 0) by (left; reflexivity).
  pose proof (conv_ref_from_window bits Hbits 0 0 k H0 H0 Hk) as Hw.
  rewrite <- last3_win3 in Hw.
  exists (parity (Z.land (last3 bits k) 7)), (parity (Z.land (last3 bits k) 5)).
  assert (Hflat : conv_encode_7_5 bits = flatten_pairs (conv_ref bits))
    by (apply (conv_encode_conv_ref_from bits Hbits 0 0 0 H0 H0); reflexivity).
  destruct (flatten_pairs_lookup _ _ _ _ Hw) as [He Ho].
  unfold enc_7_5. rewrite <- (conv_ref_enc_7_5_from bits Hbits 0 0 H0 H0).
  rewrite Hflat. fold (conv_ref bits). auto 10.
Qed.

(** The three encoders as whole sequences. *)
Lemma encoders_equal (bits : list Z) :
  Forall is_bit bits ->
  conv_ref bits = enc_7_5 bits /\
  conv_encode_7_5 bits = flatten_pairs (conv_ref bits).
Proof.
  intros Hbits.
  assert (H0 : is_bit 0) by (left; reflexivity).
  split.
  - apply conv_ref_enc_7_5_from; assumption.
  - apply (conv_encode_conv_ref_from bits Hbits 0 0 0 H0 H0). reflexivity.
Qed.

Lemma encoders_equivalent_witness :
  exists y0 y1 : Z,
    conv_ref [1; 0; 1; 1; 0; 0; 1] !! 3%nat = Some (y0, y1) /\
    enc_7_5 [1; 0; 1; 1; 0; 0; 1] !! 3%nat = Some (y0, y1) /\
    conv_encode_7_5 [1; 0; 1; 1; 0; 0; 1] !! (2 * 3)%nat = Some y0 /\
    conv_encode_7_5 [1; 0; 1; 1; 0; 0; 1] !! (2 * 3 + 1)%nat = Some y1 /\
    y0 = parity (Z.land (last3 [1; 0; 1; 1; 0; 0; 1] 3) 7) /\
    y1 = parity (Z.land (last3 [1; 0; 1; 1; 0; 0; 1] 3) 5).
Proof.
  apply (encoders_equivalent [1; 0; 1; 1; 0; 0; 1] 3).
  - repeat constructor; (left; reflexivity) || (right; reflexivity).
  - cbn. lia.
Defined.

End EncoderEquivalence.

(** ** The decoder, row by row *)

Section ViterbiRows.

Import Trellis Viterbi.

(** Row [t] of the three arrays. *)
Definition row3 (st : tables) (t : nat) : list Z * list Z * list Z :=
  (pm st !!! t, prev st !!! t, prev_u st !!! t).

Definition set_row3 (st : tables) (t : nat) (R : list Z * list Z * list Z)
  : tables :=
  {| pm := <[t := R.1.1]> (pm st);
     prev := <[t := R.1.2]> (prev st);
     prev_u := <[t := R.2]> (prev_u st) |}.

(** The Hamming distance of the branch [(s, u)] to the received pair. *)
Definition branch_metric (r1 r0 s u : Z) : Z :=
  Z.lxor (out_bits s u).1 r1 + Z.lxor (out_bits s u).2 r0.

(** [relax] on the rows it reads ([A], row [t] of [pm]) and writes
    ([R], row [t+1] of the three arrays). *)
Definition relax_row (A : list Z) (r1 r0 : Z)
    (R : list Z * list Z * list Z) (e : Z * Z) : list Z * list Z * list Z :=
  let ns := next_state e.1 e.2 in
  let cand := get1 A e.1 + branch_metric r1 r0 e.1 e.2 in
  if cand <? get1 R.1.1 ns then
    (<[Z.to_nat ns := cand]> R.1.1,
     <[Z.to_nat ns := e.1]> R.1.2,
     <[Z.to_nat ns := e.2]> R.2)
  else R.

(** The branches out of state [s] that the loops visit: none from a state
    with a sentinel metric, otherwise input bit 0 and then input bit 1. *)
Definition branches_of (A : list Z) (s : Z) : list (Z * Z) :=
  if INF <=? get1 A s then [] else [(s, 0); (s, 1)].

(** All visited branches of one time step, in the order of the loops. *)
Definition visit_order (A : list Z) : list (Z * Z) :=
  flat_map (branches_of A) (range NUM_STATES).

Definition row_init : list Z * list Z * list Z :=
  (replicate 4 INF, replicate 4 (-1), replicate 4 (-1)).

Definition row_step (A : list Z) (r1 r0 : Z) : list Z * list Z * list Z :=
  fold_left (relax_row A r1 r0) (visit_order A) row_init.

Lemma insert_lookup_total_id {A : Type} `{!Inhabited A} (l : list A) (i : nat) :
  <[i := l !!! i]> l = l.
Proof.
  apply list_insert_id'. intros Hlt.
  apply list_lookup_lookup_total_lt. exact Hlt.
Qed.

Lemma set_row3_id (st : tables) (t : nat) : set_row3 st t (row3 st t) = st.
Proof.
  destruct st as [P V U]. unfold set_row3, row3. cbn.
  rewrite !insert_lookup_total_id. reflexivity.
Qed.

Lemma relax_as_row (r1 r0 : Z) (t : nat) (s u : Z) (st : tables) :
  relax r1 r0 t s st u =
  set_row3 st (t + 1) (relax_row (pm st !!! t) r1 r0 (row3 st (t + 1)) (s, u)).
Proof.
  unfold relax, relax_row, branch_metric, get2, get1, set2.
  cbn [fst snd row3].
  destruct (out_bits s u) as [v1 v0]. cbn [fst snd].
  destruct (_ <? _).
  - reflexivity.
  - symmetry. apply set_row3_id.
Qed.

(** The arrays keep [n] rows. *)
Definition rows (n : nat) (st : tables) : Prop :=
  length (pm st) = n /\ length (prev st) = n /\ length (prev_u st) = n.

Lemma rows_set_row3 n st t R : rows n st -> rows n (set_row3 st t R).
Proof.
  intros (H1 & H2 & H3). unfold rows, set_row3. cbn.
  rewrite !length_insert. auto.
Qed.

Lemma row3_set_row3_eq n st t R :
  rows n st -> (t < n)%nat -> row3 (set_row3 st t R) t = R.
Proof.
  intros (H1 & H2 & H3) Ht. unfold row3, set_row3. cbn.
  rewrite !list_lookup_total_insert_eq by lia.
  destruct R as [[? ?] ?]. reflexivity.
Qed.

Lemma row3_set_row3_ne st t t' R :
  t <> t' -> row3 (set_row3 st t R) t' = row3 st t'.
Proof.
  intros Hne. unfold row3, set_row3. cbn.
  rewrite !list_lookup_total_insert_ne by exact Hne. reflexivity.
Qed.

Lemma set_row3_twice st t R R' :
  set_row3 (set_row3 st t R) t R' = set_row3 st t R'.
Proof.
  unfold set_row3. cbn. rewrite !list_insert_insert_eq. reflexivity.
Qed.

Lemma pm_set_row3_ne st t t' R :
  t <> t' -> pm (set_row3 st t R) !!! t' = pm st !!! t'.
Proof.
  intros Hne. unfold set_row3. cbn.
  apply list_lookup_total_insert_ne. exact Hne.
Qed.

(** A run of [relax] over any list of branches at time [t] rewrites row
    [t+1] and nothing else. *)
Lemma fold_relax_rows (r1 r0 : Z) (t n : nat) (es : list (Z * Z)) :
  (t + 1 < n)%nat ->
  forall st, rows n st ->
    fold_left (fun st e => relax r1 r0 t e.1 st e.2) es st =
    set_row3 st (t + 1)
      (fold_left (relax_row (pm st !!! t) r1 r0) es (row3 st (t + 1))).
Proof.
  intros Ht. induction es as [| [s u] es IH]; intros st Hst.
  - cbn. symmetry. apply set_row3_id.
  - cbn [fold_left fst snd]. rewrite relax_as_row.
    set (R := relax_row _ _ _ _ _).
    rewrite IH by (apply rows_set_row3; exact Hst).
    rewrite set_row3_twice.
    rewrite (row3_set_row3_eq n) by (exact Hst || lia).
    rewrite pm_set_row3_ne by lia.
    reflexivity.
Qed.

Lemma visit_state_rows (r1 r0 : Z) (t n : nat) (s : Z) (st : tables) :
  (t + 1 < n)%nat -> rows n st ->
  visit_state r1 r0 t st s =
  set_row3 st (t + 1)
    (fold_left (relax_row (pm st !!! t) r1 r0) (branches_of (pm st !!! t) s)
       (row3 st (t + 1))).
Proof.
  intros Ht Hst. unfold visit_state, branches_of, get2, get1.
  destruct (INF <=? _).
  - cbn. symmetry. apply set_row3_id.
  - apply (fold_relax_rows r1 r0 t n [(s, 0); (s, 1)] Ht st Hst).
Qed.

Lemma fold_visit_state_rows (r1 r0 : Z) (t n : nat) (ss : list Z) :
  (t + 1 < n)%nat ->
  forall st, rows n st ->
    fold_left (visit_state r1 r0 t) ss st =
    set_row3 st (t + 1)
      (fold_left (relax_row (pm st !!! t) r1 r0)
         (flat_map (branches_of (pm st !!! t)) ss) (row3 st (t + 1))).
Proof.
  intros Ht. induction ss as [| s ss IH]; intros st Hst.
  - cbn. symmetry. apply set_row3_id.
  - cbn [fold_left flat_map]. rewrite fold_left_app.
    rewrite (visit_state_rows r1 r0 t n s st Ht Hst).
    set (R := fold_left _ (branches_of _ _) _).
    rewrite IH by (apply rows_set_row3; exact Hst).
    rewrite set_row3_twice.
    rewrite (row3_set_row3_eq n) by (exact Hst || lia).
    rewrite pm_set_row3_ne by lia.
    reflexivity.
Qed.

(** One iteration of the loop over time writes row [t+1] from row [t]. *)
Lemma time_step_rows (rx : list Z) (t n : nat) (st : tables) :
  (t + 1 < n)%nat -> rows n st ->
  time_step rx st t =
  set_row3 st (t + 1)
    (fold_left
       (relax_row (pm st !!! t) (rx !!! (2 * t)%nat) (rx !!! (2 * t + 1)%nat))
       (visit_order (pm st !!! t)) (row3 st (t + 1))).
Proof.
  intros Ht Hst. unfold time_step, visit_order.
  apply (fold_visit_state_rows _ _ t n _ Ht st Hst).
Qed.


Definition forward_upto (rx : list Z) (n : nat) : tables :=
  fold_left (time_step rx) (seq 0 n) (init_tables (num_pairs rx)).

Lemma forward_upto_S rx n :
  forward_upto rx (S n) = time_step rx (forward_upto rx n) n.
Proof. unfold forward_upto. rewrite seq_S, fold_left_app. reflexivity. Qed.

Lemma forward_upto_all rx : forward rx = forward_upto rx (num_pairs rx).
Proof. reflexivity. Qed.

Lemma row3_init_tables T t :
  (0 < t <= T)%nat -> row3 (init_tables T) t = row_init.
Proof.
  intros Ht. unfold row3, init_tables, set2, full, row_init. cbn [pm prev prev_u].
  rewrite list_lookup_total_insert_ne by lia.
  rewrite !lookup_total_replicate_2 by lia.
  reflexivity.
Qed.

(** What the first [n] iterations of the loop over time leave in the
    arrays. *)
Lemma forward_upto_spec (rx : list Z) (n : nat) :
  (n <= num_pairs rx)%nat ->
  let st := forward_upto rx n in
  rows (num_pairs rx + 1) st /\
  pm st !!! 0%nat = [0; INF; INF; INF] /\
  (forall t, (n < t <= num_pairs rx)%nat -> row3 st t = row_init) /\
  (forall t, (t < n)%nat ->
     row3 st (t + 1) =
     row_step (pm st !!! t) (rx !!! (2 * t)%nat) (rx !!! (2 * t + 1)%nat)).
Proof.
  induction n as [| n IH]; intros Hn; cbn zeta.
  - unfold forward_upto. cbn [seq fold_left]. repeat split.
    + unfold init_tables, set2, full. cbn. rewrite length_insert.
      apply length_replicate.
    + unfold init_tables, full. cbn. apply length_replicate.
    + unfold init_tables, full. cbn. apply length_replicate.
    + unfold init_tables, set2, full. cbn [pm].
      rewrite list_lookup_total_insert_eq
        by (rewrite length_replicate; lia).
      rewrite lookup_total_replicate_2 by lia. reflexivity.
    + intros t Ht. apply row3_init_tables. lia.
    + intros t Ht. lia.
  - destruct (IH ltac:(lia)) as (Hrows & H0 & Hinit & Hstep).
    rewrite forward_upto_S.
    set (st := forward_upto rx n) in *.
    rewrite (time_step_rows rx n (num_pairs rx + 1) st) by (lia || exact Hrows).
    rewrite (Hinit (n + 1)%nat) by lia.
    fold (row_step (pm st !!! n) (rx !!! (2 * n)%nat) (rx !!! (2 * n + 1)%nat)).
    repeat split.
    + apply rows_set_row3, Hrows.
    + apply rows_set_row3, Hrows.
    + apply rows_set_row3, Hrows.
    + rewrite pm_set_row3_ne by lia. exact H0.
    + intros t Ht. rewrite row3_set_row3_ne by lia. apply Hinit. lia.
    + intros t Ht. destruct (Nat.eq_dec t n) as [-> | Hne].
      * rewrite (row3_set_row3_eq (num_pairs rx + 1)) by (exact Hrows || lia).
        rewrite pm_set_row3_ne by lia. reflexivity.
      * rewrite row3_set_row3_ne by lia.
        rewrite pm_set_row3_ne by lia. apply Hstep. lia.
Qed.

(** The arrays at the end of the forward pass: row 0 holds the start
    metrics and every later row is one [row_step] of the row before. *)
Lemma forward_spec (rx : list Z) :
  let st := forward rx in
  rows (num_pairs rx + 1) st /\
  pm st !!! 0%nat = [0; INF; INF; INF] /\
  (forall t, (t < num_pairs rx)%nat ->
     row3 st (t + 1) =
     row_step (pm st !!! t) (rx !!! (2 * t)%nat) (rx !!! (2 * t + 1)%nat)).
Proof.
  cbn zeta. rewrite forward_upto_all.
  destruct (forward_upto_spec rx (num_pairs rx) ltac:(lia)) as (H1 & H2 & _ & H4).
  auto.
Qed.

End ViterbiRows.

(** ** One time step, cell by cell *)

Definition is_state (s : Z) : Prop := 0 <= s < Trellis.NUM_STATES.

Definition valid_branch (e : Z * Z) : Prop := is_state e.1 /\ is_bit e.2.

Lemma triple_inj {X Y W : Type} (a a' : X) (b b' : Y) (c c' : W) :
  (a, b, c) = (a', b', c') -> a = a' /\ b = b' /\ c = c'.
Proof. intros H. injection H as -> -> ->. auto. Qed.

(** Case analysis on a state. *)
Ltac by_states s Hs :=
  let H := fresh "Hcases" in
  assert (H : s = 0 \/ s = 1 \/ s = 2 \/ s = 3)
    by (unfold is_state in Hs; change Trellis.NUM_STATES with 4 in Hs; lia);
  destruct H as [-> | [-> | [-> | ->]]].

Section RowStep.

Import Trellis Viterbi.

Lemma is_state_cases (P : Z -> Prop) :
  P 0 -> P 1 -> P 2 -> P 3 -> forall s, is_state s -> P s.
Proof.
  intros H0 H1 H2 H3 s [Hlo Hhi]. change NUM_STATES with 4 in Hhi.
  assert (s = 0 \/ s = 1 \/ s = 2 \/ s = 3) as [-> | [-> | [-> | ->]]] by lia;
    assumption.
Qed.

Lemma next_state_is_state (s u : Z) :
  is_state s -> is_bit u -> is_state (next_state s u).
Proof.
  intros Hs Hu. revert s Hs. apply is_state_cases;
    destruct Hu as [-> | ->]; vm_compute; intuition congruence.
Qed.

Lemma out_bits_are_bits (s u : Z) :
  is_state s -> is_bit u -> is_bit (out_bits s u).1 /\ is_bit (out_bits s u).2.
Proof.
  intros Hs Hu. revert s Hs. apply is_state_cases;
    destruct Hu as [-> | ->]; vm_compute; auto.
Qed.

(** The stored triple of one next state. *)
Definition cell (R : list Z * list Z * list Z) (ns : Z) : Z * Z * Z :=
  (get1 R.1.1 ns, get1 R.1.2 ns, get1 R.2 ns).

Definition row_lengths (R : list Z * list Z * list Z) : Prop :=
  length R.1.1 = 4%nat /\ length R.1.2 = 4%nat /\ length R.2 = 4%nat.

Section BestOf.

Variable cand : Z * Z -> Z.
Variable tgt : Z * Z -> Z.
Variable ns : Z.

(** [relax] as seen from the next state [ns]: a branch into another state
    leaves the triple alone; a branch into [ns] replaces it exactly when its
    candidate is strictly less than the stored metric. *)
Definition relax_cell (c : Z * Z * Z) (e : Z * Z) : Z * Z * Z :=
  if tgt e =? ns then (if cand e <? c.1.1 then (cand e, e.1, e.2) else c)
  else c.

(** After a run over [es], the triple is the start triple, no branch into
    [ns] having beaten it, or it is the earliest branch of least candidate:
    every branch into [ns] before it has a strictly larger candidate and
    every one after it has one at least as large. *)
Lemma fold_relax_cell_spec (es : list (Z * Z)) :
  forall c0 : Z * Z * Z,
    let c := fold_left relax_cell es c0 in
    (c = c0 /\ forall e, In e es -> tgt e = ns -> c0.1.1 <= cand e) \/
    (exists L1 e L2,
        es = L1 ++ e :: L2 /\ tgt e = ns /\ c = (cand e, e.1, e.2) /\
        cand e < c0.1.1 /\
        (forall e', In e' L1 -> tgt e' = ns -> cand e < cand e') /\
        (forall e', In e' L2 -> tgt e' = ns -> cand e <= cand e')).
Proof.
  induction es as [| e0 es IH]; intros c0; cbn zeta.
  - left. split; [reflexivity |]. intros e [].
  - cbn [fold_left]. unfold relax_cell at 2 4.
    destruct (Z.eqb_spec (tgt e0) ns) as [Ht | Ht];
      [destruct (Z.ltb_spec (cand e0) c0.1.1) as [Hlt | Hge] |].
    + destruct (IH (cand e0, e0.1, e0.2)) as [[Hc Hall] | (L1 & e & L2 & -> & Hte & Hc & Hlt' & HL1 & HL2)];
        cbn [fst snd] in *.
      * right. exists [], e0, es. repeat split; try assumption.
        intros e' [].
      * right. exists (e0 :: L1), e, L2. repeat split; try assumption.
        -- lia.
        -- intros e' [<- | Hin] Hte'; [exact Hlt' | apply HL1; assumption].
    + destruct (IH c0) as [[Hc Hall] | (L1 & e & L2 & -> & Hte & Hc & Hlt' & HL1 & HL2)].
      * left. split; [exact Hc |].
        intros e' [<- | Hin] Hte'; [exact Hge | apply Hall; assumption].
      * right. exists (e0 :: L1), e, L2. repeat split; try assumption.
        intros e' [<- | Hin] Hte'; [lia | apply HL1; assumption].
    + destruct (IH c0) as [[Hc Hall] | (L1 & e & L2 & -> & Hte & Hc & Hlt' & HL1 & HL2)].
      * left. split; [exact Hc |].
        intros e' [<- | Hin] Hte'; [contradiction | apply Hall; assumption].
      * right. exists (e0 :: L1), e, L2. repeat split; try assumption.
        intros e' [<- | Hin] Hte'; [contradiction | apply HL1; assumption].
Qed.

End BestOf.

Section Cells.

Variable A : list Z.
Variables r1 r0 : Z.

Definition cand_of (e : Z * Z) : Z := get1 A e.1 + branch_metric r1 r0 e.1 e.2.
Definition tgt_of (e : Z * Z) : Z := next_state e.1 e.2.

Lemma relax_row_lengths R e :
  row_lengths R -> row_lengths (relax_row A r1 r0 R e).
Proof.
  intros (H1 & H2 & H3). unfold relax_row. destruct (_ <? _).
  - unfold row_lengths. cbn. rewrite !length_insert. auto.
  - split; auto.
Qed.

Lemma cell_relax_row R e ns :
  row_lengths R -> valid_branch e -> is_state ns ->
  cell (relax_row A r1 r0 R e) ns = relax_cell cand_of tgt_of ns (cell R ns) e.
Proof.
  intros (H1 & H2 & H3) [Hs Hu] Hns.
  pose proof (next_state_is_state _ _ Hs Hu) as Hn.
  unfold relax_row, relax_cell, cand_of, tgt_of, cell, get1 in *.
  cbn [fst snd].
  unfold is_state in *. change NUM_STATES with 4 in *.
  destruct (Z.eqb_spec (next_state e.1 e.2) ns) as [Heq | Hne].
  - rewrite Heq. destruct (_ <? _); [| reflexivity].
    cbn [fst snd]. rewrite !list_lookup_total_insert_eq by lia. reflexivity.
  - destruct (_ <? _); [| reflexivity].
    cbn [fst snd]. rewrite !list_lookup_total_insert_ne by lia. reflexivity.
Qed.

Lemma fold_relax_row_lengths es :
  forall R, row_lengths R -> row_lengths (fold_left (relax_row A r1 r0) es R).
Proof.
  induction es as [| e es IH]; intros R HR; [exact HR |].
  cbn [fold_left]. apply IH, relax_row_lengths, HR.
Qed.

Lemma cell_fold_relax_row es ns :
  Forall valid_branch es -> is_state ns ->
  forall R, row_lengths R ->
    cell (fold_left (relax_row A r1 r0) es R) ns =
    fold_left (relax_cell cand_of tgt_of ns) es (cell R ns).
Proof.
  intros Hes Hns. induction Hes as [| e es He _ IH]; intros R HR; [reflexivity |].
  cbn [fold_left]. rewrite IH by (apply relax_row_lengths, HR).
  rewrite cell_relax_row by assumption. reflexivity.
Qed.

Lemma visit_order_valid : Forall valid_branch (visit_order A).
Proof.
  apply List.Forall_forall. intros e. unfold visit_order.
  rewrite in_flat_map. intros (s & Hs & Hin).
  assert (Hst : is_state s).
  { change (range NUM_STATES) with [0; 1; 2; 3] in Hs.
    unfold is_state. change NUM_STATES with 4. cbn in Hs. lia. }
  unfold branches_of in Hin. destruct (INF <=? _); [destruct Hin |].
  destruct Hin as [<- | [<- | []]]; split; cbn; try exact Hst.
  - left; reflexivity.
  - right; reflexivity.
Qed.

Lemma visit_order_reached e :
  In e (visit_order A) -> get1 A e.1 < INF.
Proof.
  unfold visit_order. rewrite in_flat_map. intros (s & _ & Hin).
  unfold branches_of in Hin.
  destruct (Z.leb_spec INF (get1 A s)) as [Hle | Hlt]; [destruct Hin |].
  destruct Hin as [<- | [<- | []]]; exact Hlt.
Qed.

Lemma visit_order_complete s u :
  is_state s -> is_bit u -> get1 A s < INF -> In (s, u) (visit_order A).
Proof.
  intros Hs Hu Hlt. unfold visit_order. rewrite in_flat_map.
  exists s. split.
  - change (range NUM_STATES) with [0; 1; 2; 3].
    unfold is_state in Hs. change NUM_STATES with 4 in Hs. cbn. lia.
  - unfold branches_of.
    destruct (Z.leb_spec INF (get1 A s)) as [Hle | _]; [lia |].
    destruct Hu as [-> | ->]; cbn; auto.
Qed.

Lemma row_init_lengths : row_lengths row_init.
Proof. repeat split. Qed.

Lemma cell_row_init ns : is_state ns -> cell row_init ns = (INF, -1, -1).
Proof. revert ns. apply is_state_cases; reflexivity. Qed.

Lemma row_step_lengths : row_lengths (row_step A r1 r0).
Proof. apply fold_relax_row_lengths, row_init_lengths. Qed.

(** The triple that [row_step] stores for the next state [ns]. *)
Lemma row_step_cell (ns : Z) :
  is_state ns ->
  let c := cell (row_step A r1 r0) ns in
  (c = (INF, -1, -1) /\
   forall e, In e (visit_order A) -> tgt_of e = ns -> INF <= cand_of e) \/
  (exists L1 e L2,
      visit_order A = L1 ++ e :: L2 /\ tgt_of e = ns /\
      c = (cand_of e, e.1, e.2) /\ cand_of e < INF /\
      (forall e', In e' L1 -> tgt_of e' = ns -> cand_of e < cand_of e') /\
      (forall e', In e' L2 -> tgt_of e' = ns -> cand_of e <= cand_of e')).
Proof.
  intros Hns. cbn zeta. unfold row_step.
  rewrite cell_fold_relax_row
    by (apply visit_order_valid || exact Hns || apply row_init_lengths).
  rewrite cell_row_init by exact Hns.
  apply (fold_relax_cell_spec cand_of tgt_of ns (visit_order A) (INF, -1, -1)).
Qed.

End Cells.

End RowStep.

(** ** The tie-break of the path-metric recursion *)

Section TieBreak.

Import Trellis Viterbi.

Lemma relax_tie_keeps (r1 r0 : Z) (t : nat) (s u : Z) (st : tables) :
  get2 (pm st) (t + 1) (next_state s u) <=
    get2 (pm st) t s + branch_metric r1 r0 s u ->
  relax r1 r0 t s st u = st.
Proof.
  unfold relax, branch_metric. destruct (out_bits s u) as [v1 v0].
  cbn [fst snd]. intros Hle.
  rewrite (proj2 (Z.ltb_ge _ _)) by exact Hle. reflexivity.
Qed.

Lemma cell_row3 (st : tables) (t : nat) (ns : Z) :
  cell (row3 st t) ns = (get2 (pm st) t ns, get2 (prev st) t ns, get2 (prev_u st) t ns).
Proof. reflexivity. Qed.

(** The entry of [(t+1, ns)] after the forward pass. *)
Lemma forward_cell (rx : list Z) (t : nat) (ns : Z) :
  (t < num_pairs rx)%nat -> is_state ns ->
  let st := forward rx in
  let A := pm st !!! t in
  let r1 := rx !!! (2 * t)%nat in
  let r0 := rx !!! (2 * t + 1)%nat in
  ((get2 (pm st) (t + 1) ns, get2 (prev st) (t + 1) ns,
    get2 (prev_u st) (t + 1) ns) = (INF, -1, -1) /\
   forall e, In e (visit_order A) -> tgt_of e = ns -> INF <= cand_of A r1 r0 e) \/
  (exists L1 e L2,
      visit_order A = L1 ++ e :: L2 /\ tgt_of e = ns /\
      (get2 (pm st) (t + 1) ns, get2 (prev st) (t + 1) ns,
       get2 (prev_u st) (t + 1) ns) = (cand_of A r1 r0 e, e.1, e.2) /\
      cand_of A r1 r0 e < INF /\
      (forall e', In e' L1 -> tgt_of e' = ns -> cand_of A r1 r0 e < cand_of A r1 r0 e') /\
      (forall e', In e' L2 -> tgt_of e' = ns -> cand_of A r1 r0 e <= cand_of A r1 r0 e')).
Proof.
  intros Ht Hns. cbn zeta.
  destruct (forward_spec rx) as (_ & _ & Hstep).
  pose proof (row_step_cell (pm (forward rx) !!! t)
                (rx !!! (2 * t)%nat) (rx !!! (2 * t + 1)%nat) ns Hns) as Hc.
  cbn zeta in Hc. rewrite <- (Hstep t Ht), cell_row3 in Hc. exact Hc.
Qed.

(** C3: [relax] leaves the arrays alone unless the candidate is strictly
    less than the stored metric; and after the forward pass, for every time
    step [t] and next state [ns], either no visited branch into [ns] had a
    candidate below the sentinel and the entry still holds [(INF, -1, -1)],
    or the entry holds the metric and the provenance [(s, u)] of the
    earliest visited branch of least candidate: in the order of the loops
    (states ascending, input bit 0 before 1) every branch into [ns] before
    [(s, u)] has a strictly larger candidate, every one after it a candidate
    at least as large. *)
Theorem tie_break_earliest (rx : list Z) (t : nat) (ns : Z) :
  (t < num_pairs rx)%nat -> 0 <= ns < NUM_STATES ->
  let st := forward rx in
  let r1 := rx !!! (2 * t)%nat in
  let r0 := rx !!! (2 * t + 1)%nat in
  let cand := fun e : Z * Z =>
                get2 (pm st) t e.1 + branch_metric r1 r0 e.1 e.2 in
  (forall (st0 : tables) (s u : Z),
      get2 (pm st0) (t + 1) (next_state s u) <=
        get2 (pm st0) t s + branch_metric r1 r0 s u ->
      relax r1 r0 t s st0 u = st0) /\
  ((get2 (pm st) (t + 1) ns = INF /\
    get2 (prev st) (t + 1) ns = -1 /\
    get2 (prev_u st) (t + 1) ns = -1 /\
    forall e, In e (visit_order (pm st !!! t)) ->
              next_state e.1 e.2 = ns -> INF <= cand e) \/
   (exists L1 s u L2,
       visit_order (pm st !!! t) = L1 ++ (s, u) :: L2 /\
       next_state s u = ns /\
       get2 (pm st) (t + 1) ns = cand (s, u) /\
       get2 (prev st) (t + 1) ns = s /\
       get2 (prev_u st) (t + 1) ns = u /\
       cand (s, u) < INF /\
       (forall e', In e' L1 -> next_state e'.1 e'.2 = ns ->
                   cand (s, u) < cand e') /\
       (forall e', In e' L2 -> next_state e'.1 e'.2 = ns ->
                   cand (s, u) <= cand e'))).
Proof.
  intros Ht Hns. cbn zeta. split.
  - intros st0 s u. apply relax_tie_keeps.
  - destruct (forward_cell rx t ns Ht Hns)
      as [[Hc Hall] | (L1 & [s u] & L2 & Hsplit & Htgt & Hc & Hlt & HL1 & HL2)].
    + left. apply triple_inj in Hc as (-> & -> & ->). repeat split. exact Hall.
    + right. exists L1, s, u, L2. apply triple_inj in Hc as (-> & -> & ->).
      repeat split; assumption.
Qed.

Lemma tie_break_earliest_witness :
  let rx := [1; 1; 0; 1; 1; 0; 0; 0] in
  let t := 2%nat in
  let ns := 1 in
  let st := forward rx in
  let r1 := rx !!! (2 * t)%nat in
  let r0 := rx !!! (2 * t + 1)%nat in
  let cand := fun e : Z * Z =>
                get2 (pm st) t e.1 + branch_metric r1 r0 e.1 e.2 in
  (forall (st0 : tables) (s u : Z),
      get2 (pm st0) (t + 1) (next_state s u) <=
        get2 (pm st0) t s + branch_metric r1 r0 s u ->
      relax r1 r0 t s st0 u = st0) /\
  ((get2 (pm st) (t + 1) ns = INF /\
    get2 (prev st) (t + 1) ns = -1 /\
    get2 (prev_u st) (t + 1) ns = -1 /\
    forall e, In e (visit_order (pm st !!! t)) ->
              next_state e.1 e.2 = ns -> INF <= cand e) \/
   (exists L1 s u L2,
       visit_order (pm st !!! t) = L1 ++ (s, u) :: L2 /\
       next_state s u = ns /\
       get2 (pm st) (t + 1) ns = cand (s, u) /\
       get2 (prev st) (t + 1) ns = s /\
       get2 (prev_u st) (t + 1) ns = u /\
       cand (s, u) < INF /\
       (forall e', In e' L1 -> next_state e'.1 e'.2 = ns ->
                   cand (s, u) < cand e') /\
       (forall e', In e' L2 -> next_state e'.1 e'.2 = ns ->
                   cand (s, u) <= cand e'))).
Proof.
  apply (tie_break_earliest [1; 1; 0; 1; 1; 0; 0; 0] 2 1).
  - vm_compute. lia.
  - change NUM_STATES with 4. lia.
Defined.

(** The visited branches are the reachable ones among all eight, states
    ascending and, within a state, input bit 0 before input bit 1. *)
Lemma visit_order_filter (A : list Z) :
  visit_order A =
  List.filter (fun e : Z * Z => negb (INF <=? get1 A e.1))
    [(0, 0); (0, 1); (1, 0); (1, 1); (2, 0); (2, 1); (3, 0); (3, 1)].
Proof.
  unfold visit_order. change (range NUM_STATES) with [0; 1; 2; 3].
  cbn [flat_map List.filter fst]. unfold branches_of.
  destruct (INF <=? get1 A 0), (INF <=? get1 A 1),
    (INF <=? get1 A 2), (INF <=? get1 A 3); reflexivity.
Qed.

End TieBreak.

(** ** Paths through the trellis *)

Section Paths.

Import Encoder Trellis Viterbi.

(** The coded bits along the path that starts in state [s] and reads the
    input bits [w]. *)
Fixpoint enc_path (s : Z) (w : list Z) : list Z :=
  match w with
  | [] => []
  | u :: w' =>
      (out_bits s u).1 :: (out_bits s u).2 :: enc_path (next_state s u) w'
  end.

(** The state such a path ends in. *)
Definition run (s : Z) (w : list Z) : Z := fold_left next_state w s.

(** The Hamming distance of two bit sequences, as the decoder adds it up:
    [v ^ r] per position. *)
Fixpoint hamming (x y : list Z) : Z :=
  match x, y with
  | a :: x', b :: y' => Z.lxor a b + hamming x' y'
  | _, _ => 0
  end.

Lemma run_app s w w' : run s (w ++ w') = run (run s w) w'.
Proof. unfold run. apply fold_left_app. Qed.

Lemma enc_path_app w w' :
  forall s, enc_path s (w ++ w') = enc_path s w ++ enc_path (run s w) w'.
Proof.
  induction w as [| u w IH]; intros s; [reflexivity |].
  cbn [app enc_path]. rewrite IH. reflexivity.
Qed.

Lemma length_enc_path w : forall s, length (enc_path s w) = (2 * length w)%nat.
Proof.
  induction w as [| u w IH]; intros s; [reflexivity |].
  cbn [enc_path length]. rewrite IH. lia.
Qed.

Lemma run_is_state w :
  Forall is_bit w -> forall s, is_state s -> is_state (run s w).
Proof.
  induction 1 as [| u w Hu _ IH]; intros s Hs; [exact Hs |].
  apply IH, next_state_is_state; assumption.
Qed.

Lemma enc_path_bits w :
  Forall is_bit w -> forall s, is_state s -> Forall is_bit (enc_path s w).
Proof.
  induction 1 as [| u w Hu _ IH]; intros s Hs; [constructor |].
  cbn [enc_path]. destruct (out_bits_are_bits s u Hs Hu) as [H1 H0].
  constructor; [exact H1 |]. constructor; [exact H0 |].
  apply IH, next_state_is_state; assumption.
Qed.

Lemma lxor_bits a b : is_bit a -> is_bit b -> 0 <= Z.lxor a b <= 1.
Proof. intros [-> | ->] [-> | ->]; vm_compute; intuition congruence. Qed.

Lemma lxor_bits_triangle a b c :
  is_bit a -> is_bit b -> is_bit c ->
  Z.lxor a c <= Z.lxor a b + Z.lxor b c.
Proof. intros [-> | ->] [-> | ->] [-> | ->]; vm_compute; congruence. Qed.

Lemma hamming_app x y :
  forall x' y', length x = length y ->
    hamming (x ++ x') (y ++ y') = hamming x y + hamming x' y'.
Proof.
  revert y. induction x as [| a x IH]; intros [| b y] x' y' Hlen;
    try discriminate; [reflexivity |].
  cbn [app hamming]. rewrite IH by (cbn in Hlen; lia). lia.
Qed.

Lemma hamming_nonneg x :
  Forall is_bit x -> forall y, Forall is_bit y -> 0 <= hamming x y.
Proof.
  induction 1 as [| a x Ha _ IH]; intros y Hy; [reflexivity |].
  destruct Hy as [| b y Hb Hy]; [reflexivity |].
  cbn [hamming]. pose proof (lxor_bits a b Ha Hb). specialize (IH y Hy). lia.
Qed.

Lemma hamming_refl x : hamming x x = 0.
Proof.
  induction x as [| a x IH]; [reflexivity |].
  cbn [hamming]. rewrite Z.lxor_nilpotent, IH. reflexivity.
Qed.

Lemma hamming_sym x : forall y, hamming x y = hamming y x.
Proof.
  induction x as [| a x IH]; intros [| b y]; try reflexivity.
  cbn [hamming]. rewrite Z.lxor_comm, (IH y). reflexivity.
Qed.

Lemma hamming_triangle x :
  Forall is_bit x ->
  forall y z, Forall is_bit y -> Forall is_bit z ->
    length x = length y -> length y = length z ->
    hamming x z <= hamming x y + hamming y z.
Proof.
  induction 1 as [| a x Ha _ IH]; intros y z Hy Hz Hxy Hyz.
  - destruct y; [| discriminate]. destruct z; [| discriminate]. reflexivity.
  - destruct Hy as [| b y Hb Hy]; [discriminate |].
    destruct Hz as [| c z Hc Hz]; [discriminate |].
    cbn [hamming]. cbn in Hxy, Hyz.
    pose proof (lxor_bits_triangle a b c Ha Hb Hc).
    specialize (IH y z Hy Hz ltac:(lia) ltac:(lia)). lia.
Qed.

(** The encoder of the script is the path encoder from state 0. *)
Lemma conv_encode_from_enc_path w :
  Forall is_bit w ->
  forall st s, is_state s -> Z.land st 3 = s ->
    conv_encode_from st w = enc_path s w.
Proof.
  assert (B0 : is_bit 0) by (left; reflexivity).
  assert (B1 : is_bit 1) by (right; reflexivity).
  induction 1 as [| u w Hu _ IH]; intros st s Hs Hst; [reflexivity |].
  cbn [conv_encode_from enc_path].
  assert (Hcases : s = 0 \/ s = 1 \/ s = 2 \/ s = 3)
    by (unfold is_state in Hs; change NUM_STATES with 4 in Hs; lia).
  assert (Hnext : is_state (next_state s u))
    by (apply next_state_is_state; assumption).
  destruct Hcases as [-> | [-> | [-> | ->]]]; destruct Hu as [-> | ->].
  - rewrite (shift_in_bits st 0 0 0) by auto.
    rewrite (IH _ _ Hnext) by reflexivity. reflexivity.
  - rewrite (shift_in_bits st 0 0 1) by auto.
    rewrite (IH _ _ Hnext) by reflexivity. reflexivity.
  - rewrite (shift_in_bits st 0 1 0) by auto.
    rewrite (IH _ _ Hnext) by reflexivity. reflexivity.
  - rewrite (shift_in_bits st 0 1 1) by auto.
    rewrite (IH _ _ Hnext) by reflexivity. reflexivity.
  - rewrite (shift_in_bits st 1 0 0) by auto.
    rewrite (IH _ _ Hnext) by reflexivity. reflexivity.
  - rewrite (shift_in_bits st 1 0 1) by auto.
    rewrite (IH _ _ Hnext) by reflexivity. reflexivity.
  - rewrite (shift_in_bits st 1 1 0) by auto.
    rewrite (IH _ _ Hnext) by reflexivity. reflexivity.
  - rewrite (shift_in_bits st 1 1 1) by auto.
    rewrite (IH _ _ Hnext) by reflexivity. reflexivity.
Qed.

Lemma conv_encode_enc_path w :
  Forall is_bit w -> conv_encode_7_5 w = enc_path 0 w.
Proof.
  intros Hw. apply conv_encode_from_enc_path; [exact Hw | | reflexivity].
  unfold is_state. change NUM_STATES with 4. lia.
Qed.

(** Two paths out of one state that part within the first [n] input bits,
    with at least one further step to go, are at distance 3 or more: the
    branches where they part differ in both coded bits and the branches of
    the next step in at least one. *)
Lemma parting_branches s u u' b b' :
  is_state s -> is_bit u -> is_bit u' -> u <> u' -> is_bit b -> is_bit b' ->
  Z.lxor (out_bits s u).1 (out_bits s u').1
  + Z.lxor (out_bits s u).2 (out_bits s u').2 = 2 /\
  1 <= Z.lxor (out_bits (next_state s u) b).1 (out_bits (next_state s u') b').1
       + Z.lxor (out_bits (next_state s u) b).2 (out_bits (next_state s u') b').2.
Proof.
  intros Hs Hu Hu' Hne Hb Hb'. revert s Hs. apply is_state_cases;
    destruct Hu as [-> | ->], Hu' as [-> | ->]; try congruence;
    destruct Hb as [-> | ->], Hb' as [-> | ->]; vm_compute; split; congruence.
Qed.

Lemma parted_paths_distance w :
  Forall is_bit w ->
  forall w' n s,
    Forall is_bit w' -> length w = length w' -> is_state s ->
    (n < length w)%nat -> take n w <> take n w' ->
    3 <= hamming (enc_path s w) (enc_path s w').
Proof.
  induction 1 as [| u w Hu Hw IH]; intros w' n s Hw' Hlen Hs Hn Hdiff;
    [cbn in Hn; lia |].
  destruct Hw' as [| u' w' Hu' Hw']; [discriminate |].
  destruct n as [| n]; [contradiction Hdiff; reflexivity |].
  cbn in Hlen, Hn.
  destruct (Z.eq_dec u u') as [<- | Hne].
  - cbn [enc_path hamming]. rewrite !Z.lxor_nilpotent.
    assert (3 <= hamming (enc_path (next_state s u) w) (enc_path (next_state s u) w'));
      [| lia].
    apply (IH w' n); try assumption; try lia.
    + apply next_state_is_state; assumption.
    + intros Heq. apply Hdiff. cbn [take]. rewrite Heq. reflexivity.
  - destruct Hw as [| b w Hb Hw]; [cbn in Hn; lia |].
    destruct Hw' as [| b' w' Hb' Hw']; [discriminate |].
    cbn [enc_path hamming].
    destruct (parting_branches s u u' b b' Hs Hu Hu' Hne Hb Hb') as [H2 H1].
    assert (0 <= hamming (enc_path (next_state (next_state s u) b) w)
                   (enc_path (next_state (next_state s u') b') w')).
    { apply hamming_nonneg; apply enc_path_bits; try assumption;
        repeat apply next_state_is_state; assumption. }
    lia.
Qed.

End Paths.

(** ** Survivors: what the traceback reads off the arrays *)

Section Survivors.

Import Encoder Trellis Viterbi.

(** The state the traceback moves to from [(t, s)]. *)
Definition pred_state (st : tables) (t : nat) (s : Z) : Z :=
  if 0 <=? get2 (prev st) t s then get2 (prev st) t s else 0.

(** The input bits the traceback collects on its way from [(t, s)] back to
    time 0, in forward order. *)
Fixpoint survivor (st : tables) (t : nat) (s : Z) : list Z :=
  match t with
  | O => []
  | S t' => survivor st t' (pred_state st t s) ++ [get2 (prev_u st) t s]
  end.

Lemma length_survivor st t : forall s, length (survivor st t s) = t.
Proof.
  induction t as [| t IH]; intros s; [reflexivity |].
  cbn [survivor]. rewrite length_app, IH. cbn. lia.
Qed.

Lemma traceback_fold st n :
  forall uhat s, (n <= length uhat)%nat ->
    (fold_left (back_step st) (rev (seq 1 n)) (uhat, s)).1 =
    survivor st n s ++ drop n uhat.
Proof.
  induction n as [| n IH]; intros uhat s Hn.
  - cbn. rewrite drop_0. reflexivity.
  - rewrite seq_S, rev_app_distr. cbn [rev app fold_left Nat.add].
    unfold back_step at 2. fold (pred_state st (S n) s).
    rewrite IH by (rewrite length_insert; lia).
    replace (S n - 1)%nat with n by lia.
    rewrite insert_take_drop by lia.
    rewrite drop_app_length' by (rewrite length_take_le; lia).
    cbn [survivor]. rewrite <- app_assoc. reflexivity.
Qed.

Lemma traceback_survivor st T s : traceback st T s = survivor st T s.
Proof.
  unfold traceback.
  rewrite traceback_fold by (rewrite length_replicate; lia).
  rewrite drop_ge by (rewrite length_replicate; lia).
  apply app_nil_r.
Qed.

Lemma decode_survivor rx :
  viterbi_decode_hard_7_5 rx =
  survivor (forward rx) (num_pairs rx)
    (argmin (pm (forward rx) !!! num_pairs rx)).
Proof. unfold viterbi_decode_hard_7_5. apply traceback_survivor. Qed.

(** The decoder returns one bit per received pair. *)
Lemma length_decode rx : length (viterbi_decode_hard_7_5 rx) = num_pairs rx.
Proof. rewrite decode_survivor. apply length_survivor. Qed.

Lemma num_pairs_le rx : (2 * num_pairs rx <= length rx)%nat.
Proof. unfold num_pairs. apply Nat.Div0.mul_div_le. Qed.

Lemma take_two_more (rx : list Z) (t : nat) :
  (2 * t + 2 <= length rx)%nat ->
  take (2 * (t + 1)) rx =
  take (2 * t) rx ++ [rx !!! (2 * t)%nat; rx !!! (2 * t + 1)%nat].
Proof.
  intros Hlen.
  replace (2 * (t + 1))%nat with (S (S (2 * t))) by lia.
  rewrite (take_S_r rx (S (2 * t)) (rx !!! (2 * t + 1)%nat)).
  - rewrite (take_S_r rx (2 * t) (rx !!! (2 * t)%nat)).
    + rewrite <- app_assoc. reflexivity.
    + apply list_lookup_lookup_total_lt. lia.
  - replace (S (2 * t)) with (2 * t + 1)%nat by lia.
    apply list_lookup_lookup_total_lt. lia.
Qed.

Lemma hamming_pair v1 v0 r1 r0 :
  hamming [v1; v0] [r1; r0] = Z.lxor v1 r1 + Z.lxor v0 r0.
Proof. cbn [hamming]. lia. Qed.

(** The cost of a path one branch longer. *)
Lemma cost_snoc (rx w : list Z) (u : Z) :
  (2 * length w + 2 <= length rx)%nat ->
  hamming (enc_path 0 (w ++ [u])) (take (2 * (length w + 1)) rx) =
  hamming (enc_path 0 w) (take (2 * length w) rx)
  + branch_metric (rx !!! (2 * length w)%nat) (rx !!! (2 * length w + 1)%nat)
      (run 0 w) u.
Proof.
  intros Hlen. rewrite enc_path_app, take_two_more by exact Hlen.
  rewrite hamming_app
    by (rewrite length_enc_path, length_take_le; lia).
  cbn [enc_path]. rewrite hamming_pair. reflexivity.
Qed.

Section Forward.

Variable rx : list Z.

Local Abbreviation st := (forward rx).
Local Abbreviation T := (num_pairs rx).

Lemma get2_pm_0 s : is_state s -> get2 (pm st) 0 s < INF -> s = 0.
Proof.
  intros Hs. unfold get2.
  destruct (forward_spec rx) as (_ & H0 & _). rewrite H0.
  by_states s Hs; vm_compute; congruence.
Qed.

Lemma get2_pm_0_0 : get2 (pm st) 0 0 = 0.
Proof.
  unfold get2. destruct (forward_spec rx) as (_ & H0 & _).
  rewrite H0. reflexivity.
Qed.

(** A stored metric below the sentinel comes from a visited branch. *)
Lemma stored_from_branch t ns :
  (t < T)%nat -> is_state ns -> get2 (pm st) (t + 1) ns < INF ->
  exists s u,
    is_state s /\ is_bit u /\ next_state s u = ns /\
    get2 (pm st) t s < INF /\
    get2 (pm st) (t + 1) ns =
      get2 (pm st) t s
      + branch_metric (rx !!! (2 * t)%nat) (rx !!! (2 * t + 1)%nat) s u /\
    get2 (prev st) (t + 1) ns = s /\
    get2 (prev_u st) (t + 1) ns = u.
Proof.
  intros Ht Hns Hlt.
  destruct (forward_cell rx t ns Ht Hns) as [(Hinf & _) | Hex];
    [apply triple_inj in Hinf as (Hinf & _ & _); lia |].
  destruct Hex as (L1 & [s u] & L2 & Hsplit & Htgt & Hc & _).
  apply triple_inj in Hc as (Hpm & Hprev & Hprevu). cbn [fst snd] in *.
  assert (Hin : In (s, u) (visit_order (pm st !!! t)))
    by (rewrite Hsplit; apply in_elt).
  pose proof (visit_order_valid (pm st !!! t)) as Hvalid.
  rewrite List.Forall_forall in Hvalid.
  destruct (Hvalid _ Hin) as [Hs Hu].
  exists s, u. repeat split; try assumption; try apply Hs.
  apply (visit_order_reached _ _ Hin).
Qed.

(** A stored metric is at most the candidate of every branch out of a
    state with a metric below the sentinel. *)
Lemma stored_le_branch t s u :
  (t < T)%nat -> is_state s -> is_bit u -> get2 (pm st) t s < INF ->
  get2 (pm st) (t + 1) (next_state s u) <=
  get2 (pm st) t s
  + branch_metric (rx !!! (2 * t)%nat) (rx !!! (2 * t + 1)%nat) s u.
Proof.
  intros Ht Hs Hu Hlt.
  pose proof (next_state_is_state s u Hs Hu) as Hns.
  pose proof (visit_order_complete (pm st !!! t) s u Hs Hu Hlt) as Hin.
  destruct (forward_cell rx t _ Ht Hns) as [(Hinf & Hall) | Hex].
  - apply triple_inj in Hinf as (Hinf & _ & _).
    specialize (Hall (s, u) Hin eq_refl). unfold cand_of in Hall.
    cbn [fst snd] in Hall. unfold get2, get1 in *. lia.
  - destruct Hex as (L1 & e & L2 & Hsplit & Htgt & Hc & _ & HL1 & HL2).
    apply triple_inj in Hc as (Hpm & _ & _). rewrite Hpm.
    change (get2 (pm st) t s
            + branch_metric (rx !!! (2 * t)%nat) (rx !!! (2 * t + 1)%nat) s u)
      with (cand_of (pm st !!! t) (rx !!! (2 * t)%nat) (rx !!! (2 * t + 1)%nat) (s, u)).
    rewrite Hsplit in Hin. apply in_app_or in Hin.
    destruct Hin as [Hin | [Heq | Hin]].
    + specialize (HL1 _ Hin eq_refl). lia.
    + rewrite Heq. lia.
    + apply (HL2 _ Hin eq_refl).
Qed.

(** Soundness: below the sentinel, the stored metric of [(t, s)] is the
    cost of the survivor of [(t, s)], a path of [t] input bits from state 0
    to state [s]. *)
Lemma survivor_sound t :
  (t <= T)%nat ->
  forall s, is_state s -> get2 (pm st) t s < INF ->
    Forall is_bit (survivor st t s) /\
    run 0 (survivor st t s) = s /\
    hamming (enc_path 0 (survivor st t s)) (take (2 * t) rx) = get2 (pm st) t s.
Proof.
  induction t as [| t IH]; intros Ht s Hs Hlt.
  - pose proof (get2_pm_0 s Hs Hlt) as ->. cbn [survivor].
    repeat split; [constructor | symmetry; apply get2_pm_0_0].
  - replace (S t) with (t + 1)%nat in * by lia.
    destruct (stored_from_branch t s ltac:(lia) Hs Hlt)
      as (s0 & u0 & Hs0 & Hu0 & Htgt & Hlt0 & Hpm & Hprev & Hprevu).
    destruct (IH ltac:(lia) s0 Hs0 Hlt0) as (Hbits & Hrun & Hcost).
    replace (t + 1)%nat with (S t) at 1 2 3 by lia. cbn [survivor].
    replace (S t) with (t + 1)%nat by lia.
    assert (Hpred : pred_state st (t + 1) s = s0).
    { unfold pred_state. rewrite Hprev.
      destruct (Z.leb_spec 0 s0) as [_ | Hneg]; [reflexivity |].
      unfold is_state in Hs0. lia. }
    rewrite Hpred, Hprevu.
    pose proof (length_survivor st t s0) as Hlen.
    repeat split.
    + apply Forall_app. split; [exact Hbits |].
      constructor; [exact Hu0 | constructor].
    + rewrite run_app, Hrun. exact Htgt.
    + pose proof (num_pairs_le rx).
      rewrite <- Hlen at 2. rewrite cost_snoc by lia.
      rewrite Hlen, Hrun, Hcost, Hpm. reflexivity.
Qed.

Hypothesis rx_bits : Forall is_bit rx.

Lemma branch_metric_nonneg t s u :
  (t < T)%nat -> is_state s -> is_bit u ->
  0 <= branch_metric (rx !!! (2 * t)%nat) (rx !!! (2 * t + 1)%nat) s u.
Proof.
  intros Ht Hs Hu. pose proof (num_pairs_le rx) as Hle.
  destruct (out_bits_are_bits s u Hs Hu) as [H1 H0].
  assert (Hr1 : is_bit (rx !!! (2 * t)%nat))
    by (apply Forall_lookup_total_1; [exact rx_bits | lia]).
  assert (Hr0 : is_bit (rx !!! (2 * t + 1)%nat))
    by (apply Forall_lookup_total_1; [exact rx_bits | lia]).
  unfold branch_metric.
  pose proof (lxor_bits _ _ H1 Hr1). pose proof (lxor_bits _ _ H0 Hr0). lia.
Qed.

(** Completeness: the stored metric of the end of a path is at most the
    cost of the path, when that cost is below the sentinel. *)
Lemma stored_le_path (w : list Z) :
  Forall is_bit w -> (length w <= T)%nat ->
  hamming (enc_path 0 w) (take (2 * length w) rx) < INF ->
  get2 (pm st) (length w) (run 0 w) <=
  hamming (enc_path 0 w) (take (2 * length w) rx).
Proof.
  assert (H0 : is_state 0) by (unfold is_state; change NUM_STATES with 4; lia).
  induction w as [| u w IH] using rev_ind; intros Hw Hlen Hcost.
  - change (get2 (pm st) 0 0 <= 0). rewrite get2_pm_0_0. reflexivity.
  - apply Forall_app in Hw as [Hw Hu]. apply Forall_inv in Hu.
    rewrite length_app in *. cbn [length] in *.
    pose proof (num_pairs_le rx) as Hle.
    rewrite cost_snoc in * by lia.
    pose proof (run_is_state w Hw 0 H0) as Hs.
    pose proof (branch_metric_nonneg (length w) (run 0 w) u ltac:(lia) Hs Hu) as Hbm.
    specialize (IH Hw ltac:(lia) ltac:(lia)).
    rewrite run_app. cbn [run fold_left]. fold (run 0 w).
    pose proof (stored_le_branch (length w) (run 0 w) u ltac:(lia) Hs Hu ltac:(lia)).
    lia.
Qed.

End Forward.

(** [np.argmin] on a row of four metrics: a state of least metric. *)
Lemma argmin_least (row : list Z) :
  length row = 4%nat ->
  is_state (argmin row) /\
  forall s, is_state s -> get1 row (argmin row) <= get1 row s.
Proof.
  intros Hlen.
  destruct row as [| a [| b [| c [| d [| ? ?]]]]]; try discriminate.
  assert (G0 : get1 [a; b; c; d] 0 = a) by reflexivity.
  assert (G1 : get1 [a; b; c; d] 1 = b) by reflexivity.
  assert (G2 : get1 [a; b; c; d] 2 = c) by reflexivity.
  assert (G3 : get1 [a; b; c; d] 3 = d) by reflexivity.
  cbn [argmin argmin_from]. change (1 + 1 + 1) with 3. change (1 + 1) with 2.
  repeat match goal with
         | |- context [if ?x <? ?y then _ else _] => destruct (Z.ltb_spec x y)
         end;
    (split; [unfold is_state; change NUM_STATES with 4; lia |
             intros s Hs; by_states s Hs; rewrite ?G0, ?G1, ?G2, ?G3; lia]).
Qed.

End Survivors.

(** ** Decoding a sequence close to a codeword *)

Section Decoding.

Import Encoder Trellis Viterbi.

Lemma num_pairs_double (rx : list Z) (n : nat) :
  length rx = (2 * n)%nat -> num_pairs rx = n.
Proof.
  intros H. unfold num_pairs. rewrite H.
  rewrite Nat.mul_comm. apply Nat.div_mul. lia.
Qed.

Lemma length_last_row (rx : list Z) (t : nat) :
  (t <= num_pairs rx)%nat -> length (pm (forward rx) !!! t) = 4%nat.
Proof.
  intros Ht. destruct (forward_spec rx) as (_ & H0 & Hstep).
  destruct t as [| t].
  - rewrite H0. reflexivity.
  - replace (S t) with (t + 1)%nat by lia.
    pose proof (Hstep t ltac:(lia)) as Hrow.
    pose proof (row_step_lengths (pm (forward rx) !!! t)
                  (rx !!! (2 * t)%nat) (rx !!! (2 * t + 1)%nat)) as (Hl & _).
    rewrite <- Hrow in Hl. exact Hl.
Qed.

(** The decoder returns input bits of a path that is at least as close to
    the received sequence as any given path. *)
Lemma decode_at_least_as_close (rx w0 : list Z) :
  Forall is_bit rx -> Forall is_bit w0 ->
  length rx = (2 * length w0)%nat ->
  hamming (enc_path 0 w0) rx < INF ->
  length (viterbi_decode_hard_7_5 rx) = length w0 /\
  Forall is_bit (viterbi_decode_hard_7_5 rx) /\
  hamming (enc_path 0 (viterbi_decode_hard_7_5 rx)) rx <=
    hamming (enc_path 0 w0) rx.
Proof.
  intros Hrx Hw0 Hlen Hcost.
  pose proof (num_pairs_double rx _ Hlen) as HT.
  assert (Htake : take (2 * num_pairs rx) rx = rx)
    by (apply take_ge; lia).
  assert (H0 : is_state 0) by (unfold is_state; change NUM_STATES with 4; lia).
  destruct (argmin_least (pm (forward rx) !!! num_pairs rx)
              (length_last_row rx _ (Nat.le_refl _))) as [Hs Hleast].
  pose proof (stored_le_path rx Hrx w0 Hw0 ltac:(lia)) as Hle.
  rewrite <- HT, Htake in Hle. specialize (Hle Hcost).
  pose proof (Hleast _ (run_is_state w0 Hw0 0 H0)) as Hmin.
  change (get2 (pm (forward rx)) (num_pairs rx)
            (argmin (pm (forward rx) !!! num_pairs rx))
          <= get2 (pm (forward rx)) (num_pairs rx) (run 0 w0)) in Hmin.
  destruct (survivor_sound rx (num_pairs rx) (Nat.le_refl _) _ Hs ltac:(lia))
    as (Hbits & _ & Hsound).
  rewrite Htake in Hsound.
  rewrite decode_survivor. split; [| split].
  - rewrite length_survivor. exact HT.
  - exact Hbits.
  - rewrite Hsound. lia.
Qed.

(** If a path is within distance 1 of the received sequence, the decoder
    agrees with it on every input bit but, possibly, the last one. *)
Lemma decode_prefix (rx w0 : list Z) (n : nat) :
  Forall is_bit rx -> Forall is_bit w0 ->
  length rx = (2 * length w0)%nat -> (n < length w0)%nat ->
  hamming (enc_path 0 w0) rx <= 1 ->
  take n (viterbi_decode_hard_7_5 rx) = take n w0.
Proof.
  intros Hrx Hw0 Hlen Hn Hcost.
  assert (H0 : is_state 0) by (unfold is_state; change NUM_STATES with 4; lia).
  destruct (decode_at_least_as_close rx w0 Hrx Hw0 Hlen)
    as (Hdlen & Hdbits & Hdcost); [change INF with 1000000000; lia |].
  set (d := viterbi_decode_hard_7_5 rx) in *.
  destruct (decide (take n d = take n w0)) as [Heq | Hne]; [exact Heq |].
  exfalso.
  pose proof (parted_paths_distance d Hdbits w0 n 0 Hw0 Hdlen H0 ltac:(lia) Hne)
    as Hfar.
  pose proof (hamming_triangle (enc_path 0 d)
                (enc_path_bits d Hdbits 0 H0) rx (enc_path 0 w0) Hrx
                (enc_path_bits w0 Hw0 0 H0)
                ltac:(rewrite length_enc_path; lia)
                ltac:(rewrite length_enc_path; lia)) as Htri.
  rewrite (hamming_sym rx) in Htri. lia.
Qed.

Lemma add_tail_eq (B : list Z) : add_tail B = B ++ [0; 0].
Proof. reflexivity. Qed.

Lemma add_tail_bits (B : list Z) : Forall is_bit B -> Forall is_bit (add_tail B).
Proof.
  intros HB. rewrite add_tail_eq. apply Forall_app. split; [exact HB |].
  repeat constructor; left; reflexivity.
Qed.

(** C1: over a noiseless channel the decoder recovers the payload: the
    first [len(B)] decoded bits of the coded, tailed payload [B] are [B]. *)
Theorem round_trip (B : list Z) :
  Forall is_bit B ->
  take (length B)
    (viterbi_decode_hard_7_5 (conv_encode_7_5 (add_tail B))) = B.
Proof.
  intros HB. pose proof (add_tail_bits B HB) as Hw0.
  assert (H0 : is_state 0) by (unfold is_state; change NUM_STATES with 4; lia).
  rewrite (conv_encode_enc_path _ Hw0).
  rewrite (decode_prefix (enc_path 0 (add_tail B)) (add_tail B) (length B)).
  - rewrite add_tail_eq. apply take_app_length.
  - apply enc_path_bits; assumption.
  - exact Hw0.
  - apply length_enc_path.
  - rewrite add_tail_eq, length_app. cbn. lia.
  - rewrite hamming_refl. lia.
Qed.

Lemma round_trip_witness :
  take (length [1; 1; 0; 1; 1])
    (viterbi_decode_hard_7_5 (conv_encode_7_5 (add_tail [1; 1; 0; 1; 1])))
  = [1; 1; 0; 1; 1].
Proof.
  apply (round_trip [1; 1; 0; 1; 1]).
  repeat constructor; (left; reflexivity) || (right; reflexivity).
Defined.

Lemma flip_coded_bit_bits (c : list Z) (i : nat) :
  Forall is_bit c -> (i < length c)%nat -> Forall is_bit (flip_coded_bit i c).
Proof.
  intros Hc Hi. unfold flip_coded_bit. apply Forall_insert; [exact Hc |].
  destruct (Forall_lookup_total_1 _ _ i Hc Hi) as [-> | ->];
    [right | left]; reflexivity.
Qed.

Lemma hamming_flip (c : list Z) :
  Forall is_bit c ->
  forall i, (i < length c)%nat -> hamming c (flip_coded_bit i c) = 1.
Proof.
  unfold flip_coded_bit.
  induction 1 as [| a c Ha Hc IH]; intros i Hi; [cbn in Hi; lia |].
  destruct i as [| i].
  - cbn [insert list_insert lookup_total list_lookup_total hamming].
    rewrite hamming_refl. destruct Ha as [-> | ->]; reflexivity.
  - cbn [insert list_insert lookup_total list_lookup_total hamming].
    rewrite Z.lxor_nilpotent.
    change (hamming c (<[i := Z.lxor (c !!! i) 1]> c)) with
      (hamming c (<[i := Z.lxor (c !!! i) 1]> c)).
    rewrite (IH i) by (cbn in Hi; lia). reflexivity.
Qed.

(** C2: one flipped coded bit is corrected: for every payload [B] and every
    position [i] of the coded sequence of the tailed payload, decoding the
    sequence with the bit at [i] flipped still gives [B] as the first
    [len(B)] decoded bits. *)
Theorem single_flip_corrected (B : list Z) (i : nat) :
  Forall is_bit B ->
  (i < length (conv_encode_7_5 (add_tail B)))%nat ->
  take (length B)
    (viterbi_decode_hard_7_5
       (flip_coded_bit i (conv_encode_7_5 (add_tail B)))) = B.
Proof.
  intros HB Hi. pose proof (add_tail_bits B HB) as Hw0.
  assert (H0 : is_state 0) by (unfold is_state; change NUM_STATES with 4; lia).
  rewrite (conv_encode_enc_path _ Hw0) in *.
  pose proof (enc_path_bits _ Hw0 0 H0) as Hc.
  rewrite (decode_prefix (flip_coded_bit i (enc_path 0 (add_tail B)))
             (add_tail B) (length B)).
  - rewrite add_tail_eq. apply take_app_length.
  - apply flip_coded_bit_bits; assumption.
  - exact Hw0.
  - unfold flip_coded_bit. rewrite length_insert. apply length_enc_path.
  - rewrite add_tail_eq, length_app. cbn. lia.
  - rewrite hamming_flip by assumption. lia.
Qed.

Lemma single_flip_corrected_witness :
  take (length [1; 1; 0; 1; 1])
    (viterbi_decode_hard_7_5
       (flip_coded_bit 6 (conv_encode_7_5 (add_tail [1; 1; 0; 1; 1]))))
  = [1; 1; 0; 1; 1].
Proof.
  apply (single_flip_corrected [1; 1; 0; 1; 1] 6).
  - repeat constructor; (left; reflexivity) || (right; reflexivity).
  - vm_compute. lia.
Defined.

End Decoding.

(** ** The sentinel *)

Section Sentinel.

Import Encoder Trellis Viterbi.

Lemma hamming_le_length x :
  Forall is_bit x -> forall y, Forall is_bit y ->
    hamming x y <= Z.of_nat (length x).
Proof.
  induction 1 as [| a x Ha _ IH]; intros y Hy; [reflexivity |].
  destruct Hy as [| b y Hb Hy]; [cbn [hamming]; lia |].
  cbn [hamming length]. pose proof (lxor_bits a b Ha Hb).
  specialize (IH y Hy). lia.
Qed.

(** C8, as the code has it: the sentinel is the constant 10^9, so it
    exceeds 2T for every received sequence of fewer than 5 * 10^8 pairs; for
    such a sequence of bits the stored metric of the end of every path is
    at most twice the length of the path, below the sentinel. *)
Theorem sentinel_above_metrics (rx : list Z) :
  Forall is_bit rx ->
  Z.of_nat (num_pairs rx) < 500000000 ->
  INF > 2 * Z.of_nat (num_pairs rx) /\
  forall w : list Z,
    Forall is_bit w -> (length w <= num_pairs rx)%nat ->
    get2 (pm (forward rx)) (length w) (run 0 w) <= 2 * Z.of_nat (length w)
    /\ 2 * Z.of_nat (length w) < INF.
Proof.
  intros Hrx HT. change INF with 1000000000. split; [lia |].
  intros w Hw Hlen.
  assert (H0 : is_state 0) by (unfold is_state; change NUM_STATES with 4; lia).
  pose proof (hamming_le_length (enc_path 0 w) (enc_path_bits w Hw 0 H0)
                (take (2 * length w) rx) (Forall_take _ _ _ Hrx)) as Hb.
  rewrite length_enc_path in Hb.
  pose proof (stored_le_path rx Hrx w Hw Hlen) as Hle.
  change INF with 1000000000 in Hle. lia.
Qed.

Lemma sentinel_above_metrics_witness :
  INF > 2 * Z.of_nat (num_pairs [1; 1; 0; 1]) /\
  forall w : list Z,
    Forall is_bit w -> (length w <= num_pairs [1; 1; 0; 1]%Z)%nat ->
    get2 (pm (forward [1; 1; 0; 1])) (length w) (run 0 w)
      <= 2 * Z.of_nat (length w)
    /\ 2 * Z.of_nat (length w) < INF.
Proof.
  apply (sentinel_above_metrics [1; 1; 0; 1]).
  - repeat constructor; (left; reflexivity) || (right; reflexivity).
  - vm_compute. reflexivity.
Defined.

(** A received sequence of 10^9 bits has 5 * 10^8 pairs, and the sentinel
    does not exceed twice that. *)
Lemma sentinel_not_above_2T :
  Forall is_bit (repeat 0 (Z.to_nat 1000000000)) /\
  INF <= 2 * Z.of_nat (num_pairs (repeat 0 (Z.to_nat 1000000000))).
Proof.
  split.
  - apply List.Forall_forall. intros x Hx. apply repeat_spec in Hx.
    left. exact Hx.
  - unfold num_pairs. rewrite repeat_length.
    rewrite Nat2Z.inj_div, Z2Nat.id by lia.
    change INF with 1000000000. change (Z.of_nat 2) with 2.
    assert (1000000000 / 2 = 500000000) as -> by reflexivity. lia.
Qed.

End Sentinel.

(** ** The bit-flip channel *)

Section FlipBit.

Context {G : Type} `{PyRandom G}.

Lemma Qltb_false (x p : Q) : (p <= x)%Q -> Qltb x p = false.
Proof.
  intros Hle. unfold Qltb. apply negb_false_iff, Qle_bool_iff. exact Hle.
Qed.

Lemma flip_bit_keeps (b : Z) (p : Q) (g : G) :
  (p <= fst (random g))%Q -> flip_bit b p g = (b, snd (random g)).
Proof.
  intros Hle. unfold flip_bit. destruct (random g) as [x g'].
  cbn [fst snd] in *. rewrite Qltb_false by exact Hle. reflexivity.
Qed.

Lemma flip_channel_keeps (p : Q) :
  (forall g : G, (p <= fst (random g))%Q) ->
  forall (coded : list (Z * Z)) (g : G), fst (flip_channel coded p g) = coded.
Proof.
  intros Hp. induction coded as [| [v1 v0] coded IH]; intros g; [reflexivity |].
  cbn [flip_channel]. rewrite !flip_bit_keeps by apply Hp.
  specialize (IH (snd (random (snd (random g))))).
  destruct (flip_channel coded p _) as [noisy g']. cbn [fst] in *.
  rewrite IH. reflexivity.
Qed.

End FlipBit.

(** C9: with flip probability 0 the channel is the identity: [flip_bit]
    returns its bit whatever the state of the generator, and the noisy
    symbol sequence is the coded one. *)
Theorem zero_flip_identity (G : Type) `{PyRandom G} :
  well_ranged G ->
  (forall (b : Z) (g : G), fst (flip_bit b 0 g) = b) /\
  (forall (coded : list (Z * Z)) (g : G), fst (flip_channel coded 0 g) = coded).
Proof.
  intros Hrange. split.
  - intros b g. rewrite flip_bit_keeps; [reflexivity | apply Hrange].
  - apply flip_channel_keeps. intros g. apply Hrange.
Qed.

(** C7, as the code has it: a flip probability [p <= 0], negative
    included, is accepted: [flip_bit] makes its one draw and returns the bit
    unchanged, as it does for [p = 0]. *)
Theorem negative_probability_keeps_bit (G : Type) `{PyRandom G} :
  well_ranged G ->
  forall (b : Z) (p : Q) (g : G),
    (p <= 0)%Q -> flip_bit b p g = (b, snd (random g)).
Proof.
  intros Hrange b p g Hp. apply flip_bit_keeps.
  destruct (Hrange g) as (H0 & _). eapply Qle_trans; eassumption.
Qed.

Section SampleGenerator.

Import Samples.

Lemma lcg_next_range (s : Z) : 0 <= lcg_next s < 2147483648.
Proof. unfold lcg_next. apply Z.mod_pos_bound. lia. Qed.

Lemma lcg_well_ranged : well_ranged Z.
Proof.
  intros g. cbn [random randint01 lcg fst].
  pose proof (lcg_next_range g) as [Hlo Hhi].
  repeat split.
  - unfold Qle. cbn. lia.
  - unfold Qlt. cbn. lia.
  - pose proof (Z.mod_pos_bound (lcg_next g / 65536) 2 ltac:(lia)).
    unfold is_bit. lia.
Qed.

Lemma zero_flip_identity_witness :
  (forall (b : Z) (g : Z), fst (flip_bit b 0 g) = b) /\
  (forall (coded : list (Z * Z)) (g : Z), fst (flip_channel coded 0 g) = coded).
Proof. apply (zero_flip_identity Z lcg_well_ranged). Defined.

Lemma negative_probability_keeps_bit_witness :
  flip_bit 1 (-1 # 2) 42 = (1, snd (random 42)).
Proof.
  apply (negative_probability_keeps_bit Z lcg_well_ranged 1 (-1 # 2) 42).
  unfold Qle. cbn. lia.
Defined.

(** C7 fails on the code: with p = -1/2 [flip_bit] returns its bit
    unchanged, and a sweep configured with that probability alone runs to
    its row, with no error, instead of being rejected. *)
Lemma negative_probability_not_rejected :
  (-1 # 2 < 0)%Q /\
  fst (flip_bit (G := Z) 1 (-1 # 2) 42) = 1 /\
  test_ber_sweep (D := toy) (G := Z) negative_p_config toy_reset idle_pins =
  Returns [{| p_flip := -1 # 2; BER_hw := 0 # 16; errors := 0;
              total_bits := 16; trials := 2; payload_len := 8; tb_len := 1;
              clk_ns := 10; seed := 42; row_mapping := y0_is_v1 |}].
Proof. repeat split; vm_compute; reflexivity. Qed.

End SampleGenerator.

(** ** Which decoded bits are compared with the payload *)

Section ComparedBits.

Import Encoder Trellis Viterbi.

Lemma slice_from_suffix (l : list Z) (start : Z) :
  exists discarded, l = discarded ++ slice_from l start.
Proof.
  unfold slice_from. eexists. symmetry. apply take_drop.
Qed.

Lemma slice_from_short (l : list Z) (n : Z) :
  Z.of_nat (length l) < n -> slice_from l (- n) = l.
Proof.
  intros Hlt. unfold slice_from.
  destruct (Z.ltb_spec (- n) 0) as [_ | Hge]; [| lia].
  rewrite Z.max_r by lia. reflexivity.
Qed.

Context {D G : Type} `{Dut D} `{PyRandom G}.

Lemma trial_unfold (cfg : config) (mp : mapping) (p : Q) (w : world D G) :
  trial cfg mp p w =
  match trial_run cfg mp p w with
  | Returns (pd, w') =>
      match trial_compare (PAYLOAD_LEN cfg) (snd pd) (fst pd) with
      | Returns errs => Returns (errs, w')
      | Raises e => Raises e
      end
  | Raises e => Raises e
  end.
Proof.
  unfold trial, bind. destruct (trial_run cfg mp p w) as [[pd w'] | e];
    reflexivity.
Qed.

Lemma one_pass_unfold (mp : mapping) (payload : list Z) (tb lat : Z)
    (w : world D G) :
  _one_pass_errors mp payload tb lat w =
  match one_pass_run mp payload tb lat w with
  | Returns (decided, w') => Returns (one_pass_compare decided payload, w')
  | Raises e => Raises e
  end.
Proof.
  unfold _one_pass_errors, bind, ret.
  destruct (one_pass_run mp payload tb lat w) as [[decided w'] | e];
    reflexivity.
Qed.

(** A sweep trial that returns an error count has compared the payload
    with a suffix of the decided bits, [PAYLOAD_LEN] bits long. *)
Lemma trial_compares_last (cfg : config) (mp : mapping) (p : Q)
    (w w' : world D G) (errs : Z) :
  trial cfg mp p w = Returns (errs, w') ->
  exists payload decided discarded recovered,
    trial_run cfg mp p w = Returns ((payload, decided), w') /\
    decided = discarded ++ recovered /\
    Z.of_nat (length recovered) = PAYLOAD_LEN cfg /\
    errs = count_diff recovered payload.
Proof.
  rewrite trial_unfold.
  destruct (trial_run cfg mp p w) as [[[payload decided] w1] | e];
    [| discriminate].
  cbn [fst snd]. unfold trial_compare.
  destruct (Z.eqb_spec
              (Z.of_nat (length (slice_from decided (- PAYLOAD_LEN cfg))))
              (PAYLOAD_LEN cfg)) as [Heq | Hne]; cbn [negb]; [| discriminate].
  intros Hret. injection Hret as <- <-.
  destruct (slice_from_suffix decided (- PAYLOAD_LEN cfg)) as [discarded Hd].
  exists payload, decided, discarded, (slice_from decided (- PAYLOAD_LEN cfg)).
  auto.
Qed.

(** A sweep trial with fewer decided bits than the payload length raises. *)
Lemma trial_short_raises (cfg : config) (mp : mapping) (p : Q)
    (w w' : world D G) (payload decided : list Z) :
  trial_run cfg mp p w = Returns ((payload, decided), w') ->
  Z.of_nat (length decided) < PAYLOAD_LEN cfg ->
  trial cfg mp p w =
  Raises (Not_enough_decided_bits (Z.of_nat (length decided)) (PAYLOAD_LEN cfg)).
Proof.
  intros Hrun Hshort. rewrite trial_unfold, Hrun. cbn [fst snd].
  unfold trial_compare. rewrite slice_from_short by exact Hshort.
  destruct (Z.eqb_spec (Z.of_nat (length decided)) (PAYLOAD_LEN cfg)) as [Heq | _];
    [lia |].
  reflexivity.
Qed.

(** The calibration pass with fewer decided bits than the payload length
    returns the payload length as its error count. *)
Lemma one_pass_short_counts (mp : mapping) (payload decided : list Z)
    (tb lat : Z) (w w' : world D G) :
  one_pass_run mp payload tb lat w = Returns (decided, w') ->
  (length decided < length payload)%nat ->
  _one_pass_errors mp payload tb lat w =
  Returns ((Z.of_nat (length payload), Z.of_nat (length decided)), w').
Proof.
  intros Hrun Hshort. rewrite one_pass_unfold, Hrun.
  unfold one_pass_compare. rewrite slice_from_short by lia.
  destruct (Nat.eqb_spec (length decided) (length payload)) as [Heq | _];
    [lia |].
  reflexivity.
Qed.

End ComparedBits.

Section SoftwareWindow.

Import Encoder Trellis Viterbi.

(** [simulate_ber] compares the first [len(payload)] decoded bits; the
    decisions it leaves out are the [K - 1] at the end. *)
Lemma dec_payload_first (payload hard : list Z) :
  length hard = (2 * (length payload + Z.to_nat (K - 1)))%nat ->
  exists tail_decisions,
    viterbi_decode_hard_7_5 hard = dec_payload payload hard ++ tail_decisions /\
    length (dec_payload payload hard) = length payload /\
    Z.of_nat (length tail_decisions) = K - 1.
Proof.
  intros Hlen. pose proof (length_decode hard) as Hdec.
  rewrite (num_pairs_double hard _ Hlen) in Hdec.
  exists (drop (length payload) (viterbi_decode_hard_7_5 hard)).
  unfold dec_payload, slice_to. repeat split.
  - symmetry. apply take_drop.
  - rewrite length_take_le; lia.
  - rewrite length_drop, Hdec. change (K - 1) with 2. lia.
Qed.

End SoftwareWindow.

(** C5, as the code has it: a sweep trial of the hardware harness compares
    the payload with the last [PAYLOAD_LEN] decided bits; [simulate_ber]
    compares it with the first [len(payload)] decoded bits, which leaves out
    the [K - 1] tail decisions at the end. *)
Theorem compared_bits :
  (forall (D G : Type) `{Dut D} `{PyRandom G}
          (cfg : config) (mp : mapping) (p : Q) (w w' : world D G) (errs : Z),
      trial cfg mp p w = Returns (errs, w') ->
      exists payload decided discarded recovered,
        trial_run cfg mp p w = Returns ((payload, decided), w') /\
        decided = discarded ++ recovered /\
        Z.of_nat (length recovered) = PAYLOAD_LEN cfg /\
        errs = count_diff recovered payload) /\
  (forall payload hard : list Z,
      length hard = (2 * (length payload + Z.to_nat (Trellis.K - 1)))%nat ->
      exists tail_decisions,
        Viterbi.viterbi_decode_hard_7_5 hard =
          dec_payload payload hard ++ tail_decisions /\
        length (dec_payload payload hard) = length payload /\
        Z.of_nat (length tail_decisions) = Trellis.K - 1).
Proof.
  split.
  - intros D G HD HG cfg mp p w w' errs. apply trial_compares_last.
  - apply dec_payload_first.
Qed.

(** C6, as the code has it: a sweep trial whose decode produced fewer bits
    than the payload length raises and counts nothing, and the calibration
    pass in the same situation returns the payload length as its error
    count. *)
Theorem short_decode_handling :
  (forall (D G : Type) `{Dut D} `{PyRandom G}
          (cfg : config) (mp : mapping) (p : Q) (w w' : world D G)
          (payload decided : list Z),
      trial_run cfg mp p w = Returns ((payload, decided), w') ->
      Z.of_nat (length decided) < PAYLOAD_LEN cfg ->
      trial cfg mp p w =
      Raises (Not_enough_decided_bits (Z.of_nat (length decided))
                (PAYLOAD_LEN cfg))) /\
  (forall (D G : Type) `{Dut D} `{PyRandom G}
          (mp : mapping) (payload decided : list Z) (tb lat : Z)
          (w w' : world D G),
      one_pass_run mp payload tb lat w = Returns (decided, w') ->
      (length decided < length payload)%nat ->
      _one_pass_errors mp payload tb lat w =
      Returns ((Z.of_nat (length payload), Z.of_nat (length decided)), w')).
Proof.
  split.
  - intros D G HD HG cfg mp p w w' payload decided. apply trial_short_raises.
  - intros D G HD HG mp payload decided tb lat w w'. apply one_pass_short_counts.
Qed.

Section ComparedBitsSamples.

Import Encoder Trellis Viterbi Samples.

(** C5 fails on [simulate_ber]: for the payload [1] over a noiseless link
    the compared bit is the first decoded bit, 1, and the last decoded bit
    is a tail decision, 0. *)
Lemma software_compares_first_bits :
  viterbi_decode_hard_7_5 (conv_encode_7_5 (add_tail [1])) = [1; 0; 0] /\
  dec_payload [1] (conv_encode_7_5 (add_tail [1])) = [1] /\
  slice_from (viterbi_decode_hard_7_5 (conv_encode_7_5 (add_tail [1]))) (-1) = [0].
Proof. repeat split; vm_compute; reflexivity. Qed.

(** C6 fails on the calibration pass: on a device whose decoder never
    asserts [dec_bit_valid], the pass returns one error for a payload of one
    bit, with nothing recovered, and raises nothing. *)
Lemma calibration_counts_shortfall :
  result_of (one_pass_run (D := mute) (G := Z) y0_is_v1 [1] 1 0
               (World (Mute toy_reset) idle_pins 0)) = Returns [] /\
  result_of (_one_pass_errors (D := mute) (G := Z) y0_is_v1 [1] 1 0
               (World (Mute toy_reset) idle_pins 0)) = Returns (1, 0).
Proof. split; vm_compute; reflexivity. Qed.

Lemma compared_bits_witness :
  let w0 := World toy_reset idle_pins (42 : Z) in
  let r := returned (trial small_config y0_is_v1 0 w0) (0, w0) in
  (exists payload decided discarded recovered,
      trial_run small_config y0_is_v1 0 w0 = Returns ((payload, decided), snd r) /\
      decided = discarded ++ recovered /\
      Z.of_nat (length recovered) = PAYLOAD_LEN small_config /\
      fst r = count_diff recovered payload) /\
  (exists tail_decisions,
      viterbi_decode_hard_7_5 (conv_encode_7_5 (add_tail [1])) =
        dec_payload [1] (conv_encode_7_5 (add_tail [1])) ++ tail_decisions /\
      length (dec_payload [1] (conv_encode_7_5 (add_tail [1]))) = length [1] /\
      Z.of_nat (length tail_decisions) = K - 1).
Proof.
  cbv zeta. split.
  - apply (proj1 compared_bits toy Z _ _ small_config y0_is_v1 0%Q).
    vm_compute. reflexivity.
  - apply (proj2 compared_bits [1] (conv_encode_7_5 (add_tail [1]))).
    reflexivity.
Defined.

Lemma short_decode_handling_witness :
  let w0 := World (Mute toy_reset) idle_pins (42 : Z) in
  let r := returned (trial_run small_config y0_is_v1 0 w0) (([], []), w0) in
  let c := returned (one_pass_run y0_is_v1 [1] 1 0 w0) ([], w0) in
  trial small_config y0_is_v1 0 w0 =
    Raises (Not_enough_decided_bits (Z.of_nat (length (snd (fst r))))
              (PAYLOAD_LEN small_config)) /\
  _one_pass_errors y0_is_v1 [1] 1 0 w0 =
    Returns ((Z.of_nat (length [1]), Z.of_nat (length (fst c))), snd c).
Proof.
  cbv zeta. split.
  - apply (proj1 short_decode_handling mute Z _ _ small_config y0_is_v1 0%Q
             (World (Mute toy_reset) idle_pins 42)
             (snd (returned (trial_run small_config y0_is_v1 0
                               (World (Mute toy_reset) idle_pins 42))
                     (([], []), World (Mute toy_reset) idle_pins 42)))
             (fst (fst (returned (trial_run small_config y0_is_v1 0
                               (World (Mute toy_reset) idle_pins 42))
                     (([], []), World (Mute toy_reset) idle_pins 42))))).
    + vm_compute. reflexivity.
    + vm_compute. reflexivity.
  - apply (proj2 short_decode_handling mute Z _ _ y0_is_v1 [1]).
    + vm_compute. reflexivity.
    + vm_compute. lia.
Defined.

End ComparedBitsSamples.

(** ** Determinism of the sweep under a fixed seed *)

(** Two runs are compared step by step.  The two devices are related by a
    relation that every clock edge preserves and under which the signals
    read back are equal; the two generators by a relation that both methods
    preserve while they return equal draws. *)
Definition device_simulation {D1 D2 : Type} `{Dut D1} `{Dut D2}
    (Rd : D1 -> D2 -> Prop) : Prop :=
  forall d1 d2, Rd d1 d2 ->
    enc_out_valid d1 = enc_out_valid d2 /\
    enc_y0 d1 = enc_y0 d2 /\
    enc_y1 d1 = enc_y1 d2 /\
    dec_bit_valid d1 = dec_bit_valid d2 /\
    dec_bit_out d1 = dec_bit_out d2 /\
    forall p : pins, Rd (rising_edge p d1) (rising_edge p d2).

Definition generator_simulation {G1 G2 : Type} `{PyRandom G1} `{PyRandom G2}
    (R : G1 -> G2 -> Prop) : Prop :=
  (forall z : Z, R (seed_rng z) (seed_rng z)) /\
  forall g1 g2, R g1 g2 ->
    fst (random g1) = fst (random g2) /\
    R (snd (random g1)) (snd (random g2)) /\
    fst (randint01 g1) = fst (randint01 g2) /\
    R (snd (randint01 g1)) (snd (randint01 g2)).

Section Determinism.

Context {D1 D2 : Type} {U1 : Dut D1} {U2 : Dut D2}.
Context {G1 G2 : Type} {P1 : PyRandom G1} {P2 : PyRandom G2}.

Variable Rd : D1 -> D2 -> Prop.
Variable R : G1 -> G2 -> Prop.

Hypothesis Rd_sim : device_simulation Rd.
Hypothesis R_sim : generator_simulation R.

Definition world_rel (w1 : world D1 G1) (w2 : world D2 G2) : Prop :=
  Rd (w_dut w1) (w_dut w2) /\ w_pins w1 = w_pins w2 /\ R (w_rng w1) (w_rng w2).

Definition outcome_rel {A : Type}
    (o1 : outcome (A * world D1 G1)) (o2 : outcome (A * world D2 G2)) : Prop :=
  match o1, o2 with
  | Returns (a1, w1), Returns (a2, w2) => a1 = a2 /\ world_rel w1 w2
  | Raises e1, Raises e2 => e1 = e2
  | _, _ => False
  end.

(** Two computations that, from related states, raise the same exception
    or return the same value in related states. *)
Definition same {A : Type}
    (c1 : M (world D1 G1) A) (c2 : M (world D2 G2) A) : Prop :=
  forall w1 w2, world_rel w1 w2 -> outcome_rel (c1 w1) (c2 w2).

Lemma same_ret {A : Type} (a : A) : same (ret a) (ret a).
Proof. intros w1 w2 Hw. cbn. auto. Qed.

Lemma same_raise {A : Type} (e : exn) : same (A := A) (raise e) (raise e).
Proof. intros w1 w2 Hw. reflexivity. Qed.

Lemma same_bind {A B : Type} c1 c2 (k1 : A -> M _ B) (k2 : A -> M _ B) :
  same c1 c2 -> (forall a, same (k1 a) (k2 a)) -> same (bind c1 k1) (bind c2 k2).
Proof.
  intros Hc Hk w1 w2 Hw. unfold bind. specialize (Hc w1 w2 Hw).
  destruct (c1 w1) as [[a1 w1'] | e1], (c2 w2) as [[a2 w2'] | e2];
    cbn in Hc; try contradiction.
  - destruct Hc as [-> Hw']. apply Hk, Hw'.
  - exact Hc.
Qed.

Lemma same_lift_outcome {A : Type} (o : outcome A) :
  same (lift_outcome o) (lift_outcome o).
Proof. intros w1 w2 Hw. destruct o; cbn; auto. Qed.

Lemma same_drive f : same (drive f) (drive f).
Proof.
  intros w1 w2 (Hd & Hp & Hg). cbn. unfold world_rel. cbn.
  rewrite Hp. auto.
Qed.

Lemma same_RisingEdge : same RisingEdge RisingEdge.
Proof.
  intros w1 w2 (Hd & Hp & Hg). cbn. unfold world_rel. cbn.
  rewrite Hp. repeat split; try assumption. apply (Rd_sim _ _ Hd).
Qed.

(** The five signals the harness reads back. *)
Lemma same_read_enc_out_valid : same (read enc_out_valid) (read enc_out_valid).
Proof.
  intros w1 w2 Hw. cbn. split; [| exact Hw].
  destruct Hw as (Hd & _). apply (Rd_sim _ _ Hd).
Qed.

Lemma same_read_enc_y0 : same (read enc_y0) (read enc_y0).
Proof.
  intros w1 w2 Hw. cbn. split; [| exact Hw].
  destruct Hw as (Hd & _). apply (Rd_sim _ _ Hd).
Qed.

Lemma same_read_enc_y1 : same (read enc_y1) (read enc_y1).
Proof.
  intros w1 w2 Hw. cbn. split; [| exact Hw].
  destruct Hw as (Hd & _). apply (Rd_sim _ _ Hd).
Qed.

Lemma same_read_dec_bit_valid : same (read dec_bit_valid) (read dec_bit_valid).
Proof.
  intros w1 w2 Hw. cbn. split; [| exact Hw].
  destruct Hw as (Hd & _). apply (Rd_sim _ _ Hd).
Qed.

Lemma same_read_dec_bit_out : same (read dec_bit_out) (read dec_bit_out).
Proof.
  intros w1 w2 Hw. cbn. split; [| exact Hw].
  destruct Hw as (Hd & _). apply (Rd_sim _ _ Hd).
Qed.

Lemma same_with_rng {A : Type} (f1 : G1 -> A * G1) (f2 : G2 -> A * G2) :
  (forall g1 g2, R g1 g2 ->
     fst (f1 g1) = fst (f2 g2) /\ R (snd (f1 g1)) (snd (f2 g2))) ->
  same (with_rng f1) (with_rng f2).
Proof.
  intros Hf w1 w2 (Hd & Hp & Hg). unfold with_rng.
  specialize (Hf _ _ Hg).
  destruct (f1 (w_rng w1)) as [a1 g1'], (f2 (w_rng w2)) as [a2 g2'].
  cbn in *. unfold world_rel. cbn. intuition.
Qed.

Lemma same_repeatM n c1 c2 :
  same c1 c2 -> same (repeatM n c1) (repeatM n c2).
Proof.
  intros Hc. induction n as [| n IH]; cbn [repeatM].
  - apply same_ret.
  - apply same_bind; [exact Hc | intros _; exact IH].
Qed.

Lemma flip_bit_related b p g1 g2 :
  R g1 g2 ->
  fst (flip_bit b p g1) = fst (flip_bit b p g2) /\
  R (snd (flip_bit b p g1)) (snd (flip_bit b p g2)).
Proof.
  intros Hg. unfold flip_bit.
  destruct (proj2 R_sim _ _ Hg) as (Hx & Hg' & _).
  destruct (random g1) as [x1 g1'], (random g2) as [x2 g2'].
  cbn in *. subst. auto.
Qed.

Lemma flip_channel_related p coded :
  forall g1 g2, R g1 g2 ->
    fst (flip_channel coded p g1) = fst (flip_channel coded p g2) /\
    R (snd (flip_channel coded p g1)) (snd (flip_channel coded p g2)).
Proof.
  induction coded as [| [v1 v0] coded IH]; intros g1 g2 Hg; [cbn; auto |].
  cbn [flip_channel].
  destruct (flip_bit_related v1 p g1 g2 Hg) as [Hn1 Hg1].
  destruct (flip_bit v1 p g1) as [n1 g1a], (flip_bit v1 p g2) as [n1' g2a].
  cbn [fst snd] in *.
  destruct (flip_bit_related v0 p g1a g2a Hg1) as [Hn0 Hg0].
  destruct (flip_bit v0 p g1a) as [n0 g1b], (flip_bit v0 p g2a) as [n0' g2b].
  cbn [fst snd] in *.
  destruct (IH g1b g2b Hg0) as [Hrest Hg'].
  destruct (flip_channel coded p g1b) as [r1 g1c],
    (flip_channel coded p g2b) as [r2 g2c].
  cbn [fst snd] in *. subst. auto.
Qed.

Lemma draw_bits_related n :
  forall g1 g2, R g1 g2 ->
    fst (draw_bits n g1) = fst (draw_bits n g2) /\
    R (snd (draw_bits n g1)) (snd (draw_bits n g2)).
Proof.
  induction n as [| n IH]; intros g1 g2 Hg; [cbn; auto |].
  cbn [draw_bits].
  destruct (proj2 R_sim _ _ Hg) as (_ & _ & Hb & Hg1).
  destruct (randint01 g1) as [b1 g1a], (randint01 g2) as [b2 g2a].
  cbn [fst snd] in *.
  destruct (IH g1a g2a Hg1) as [Hbs Hg'].
  destruct (draw_bits n g1a) as [bs1 g1b], (draw_bits n g2a) as [bs2 g2b].
  cbn [fst snd] in *. subst. auto.
Qed.

(** One step of a proof that two runs of one piece of harness code agree. *)
Ltac same_step :=
  lazymatch goal with
  | |- same (bind _ _) (bind _ _) => apply same_bind; [| intros ? ]
  | |- same (ret _) (ret _) => apply same_ret
  | |- same (raise _) (raise _) => apply same_raise
  | |- same (drive _) (drive _) => apply same_drive
  | |- same RisingEdge RisingEdge => apply same_RisingEdge
  | |- same (read enc_out_valid) _ => apply same_read_enc_out_valid
  | |- same (read enc_y0) _ => apply same_read_enc_y0
  | |- same (read enc_y1) _ => apply same_read_enc_y1
  | |- same (read dec_bit_valid) _ => apply same_read_dec_bit_valid
  | |- same (read dec_bit_out) _ => apply same_read_dec_bit_out
  | |- same (lift_outcome _) (lift_outcome _) => apply same_lift_outcome
  | |- same (repeatM _ _) (repeatM _ _) => apply same_repeatM
  end.

Lemma same_reset_chain : same reset_chain reset_chain.
Proof. unfold reset_chain. repeat same_step. Qed.

Lemma same_wait_enc_out_valid n :
  same (wait_enc_out_valid n) (wait_enc_out_valid n).
Proof.
  induction n as [| n IH]; cbn [wait_enc_out_valid]; [apply same_raise |].
  apply same_bind; [apply same_read_enc_out_valid | intros v].
  destruct (v =? 0); [| repeat same_step].
  apply same_bind; [apply same_RisingEdge | intros _; exact IH].
Qed.

Lemma same_enc_push u lat tmo :
  same (enc_push_bit_and_get_symbol u lat tmo)
       (enc_push_bit_and_get_symbol u lat tmo).
Proof.
  unfold enc_push_bit_and_get_symbol.
  do 5 (apply same_bind; [repeat same_step | intros _]).
  apply same_wait_enc_out_valid.
Qed.

Lemma same_encode_stream mp lat in_stream :
  same (encode_stream mp lat in_stream) (encode_stream mp lat in_stream).
Proof.
  induction in_stream as [| u rest IH]; cbn [encode_stream]; [apply same_ret |].
  apply same_bind; [apply same_enc_push | intros y].
  apply same_bind; [exact IH | intros coded]. apply same_ret.
Qed.

Lemma same_collect decided : same (collect decided) (collect decided).
Proof.
  unfold collect. apply same_bind; [apply same_read_dec_bit_valid | intros bv].
  destruct (bv =? 0); repeat same_step.
Qed.

Lemma same_feed_decoder noisy :
  forall decided, same (feed_decoder noisy decided) (feed_decoder noisy decided).
Proof.
  induction noisy as [| [v1 v0] rest IH]; intros decided; cbn [feed_decoder];
    [apply same_ret |].
  do 4 (apply same_bind; [repeat same_step | intros _]).
  apply same_bind; [apply same_collect | intros decided'; apply IH].
Qed.

Lemma same_drain n :
  forall decided, same (drain n decided) (drain n decided).
Proof.
  induction n as [| n IH]; intros decided; cbn [drain]; [apply same_ret |].
  apply same_bind; [apply same_RisingEdge | intros _].
  apply same_bind; [apply same_collect | intros decided'; apply IH].
Qed.

Lemma same_decode_stream tb noisy :
  same (decode_stream tb noisy) (decode_stream tb noisy).
Proof.
  unfold decode_stream.
  apply same_bind; [apply same_feed_decoder | intros decided].
  apply same_drain.
Qed.

Lemma same_one_pass_errors mp payload tb lat :
  same (_one_pass_errors mp payload tb lat) (_one_pass_errors mp payload tb lat).
Proof.
  unfold _one_pass_errors, one_pass_run.
  apply same_bind; [| intros decided; apply same_ret].
  apply same_bind; [apply same_reset_chain | intros _].
  apply same_bind; [apply same_encode_stream | intros coded].
  apply same_decode_stream.
Qed.

Lemma same_calibrate_mapping tb lat :
  same (calibrate_mapping tb lat) (calibrate_mapping tb lat).
Proof.
  unfold calibrate_mapping.
  apply same_bind; [apply same_with_rng, draw_bits_related | intros payload].
  apply same_bind; [apply same_one_pass_errors | intros a].
  apply same_bind; [apply same_one_pass_errors | intros b].
  destruct (fst a <=? fst b); apply same_ret.
Qed.

Lemma same_trial cfg mp p : same (trial cfg mp p) (trial cfg mp p).
Proof.
  unfold trial, trial_run.
  apply same_bind; [| intros pd; apply same_lift_outcome].
  apply same_bind; [apply same_reset_chain | intros _].
  apply same_bind; [apply same_with_rng, draw_bits_related | intros payload].
  apply same_bind; [apply same_encode_stream | intros coded].
  apply same_bind; [apply same_with_rng, flip_channel_related | intros noisy].
  apply same_bind; [apply same_decode_stream | intros decided; apply same_ret].
Qed.

Lemma same_trials_loop n cfg mp p :
  forall e t, same (trials_loop n cfg mp p e t) (trials_loop n cfg mp p e t).
Proof.
  induction n as [| n IH]; intros e t; cbn [trials_loop]; [apply same_ret |].
  apply same_bind; [apply same_trial | intros errs; apply IH].
Qed.

Lemma same_sweep_point cfg mp p :
  same (sweep_point cfg mp p) (sweep_point cfg mp p).
Proof.
  unfold sweep_point.
  apply same_bind; [apply same_trials_loop | intros counts; apply same_ret].
Qed.

Lemma same_sweep cfg mp ps : same (sweep cfg mp ps) (sweep cfg mp ps).
Proof.
  induction ps as [| p rest IH]; cbn [sweep]; [apply same_ret |].
  apply same_bind; [apply same_sweep_point | intros r].
  apply same_bind; [exact IH | intros rows; apply same_ret].
Qed.

Lemma same_result_of {A : Type} o1 o2 :
  outcome_rel (A := A) o1 o2 -> result_of o1 = result_of o2.
Proof.
  destruct o1 as [[a1 w1] | e1], o2 as [[a2 w2] | e2]; cbn;
    try contradiction.
  - intros [-> _]. reflexivity.
  - intros ->. reflexivity.
Qed.

Lemma same_test_ber_sweep cfg d1 d2 p0 :
  Rd d1 d2 ->
  test_ber_sweep (G := G1) cfg d1 p0 = test_ber_sweep (G := G2) cfg d2 p0.
Proof.
  intros Hd. unfold test_ber_sweep. apply same_result_of.
  apply (same_bind (calibrate_mapping (TB_LEN cfg) (ENC_LATENCY cfg))
                   (calibrate_mapping (TB_LEN cfg) (ENC_LATENCY cfg))).
  - apply same_calibrate_mapping.
  - intros mp. apply same_sweep.
  - unfold world_rel. cbn. repeat split; [exact Hd | apply (proj1 R_sim)].
Qed.

End Determinism.

Section DeterminismSample.

Import Samples.

Lemma toy_simulates_itself : device_simulation (@eq toy).
Proof. intros d1 d2 <-. repeat split. Qed.

Lemma lcg_counted_simulates_lcg :
  generator_simulation (fun (g1 : Z) (g2 : Z * nat) => g1 = fst g2).
Proof.
  split.
  - intros z. reflexivity.
  - intros g1 [g2 n] ->. repeat split.
Qed.

End DeterminismSample.

(** * Further properties of the code *)

(** ** The encoder on arbitrary integers *)

Section EncoderShape.

Import Encoder.

Lemma land_1_bit (c : Z) : is_bit (Z.land c 1).
Proof.
  assert (Hm : Z.land c 1 = c mod 2)
    by (change 1 with (Z.ones 1) at 1; apply Z.land_ones; lia).
  rewrite Hm. pose proof (Z.mod_pos_bound c 2 ltac:(lia)).
  unfold is_bit. lia.
Qed.

Lemma parity_bit (x : Z) : is_bit (parity x).
Proof. apply land_1_bit. Qed.

Lemma length_conv_encode_from (bits : list Z) :
  forall st, length (conv_encode_from st bits) = (2 * length bits)%nat.
Proof.
  induction bits as [| b bits IH]; intros st; [reflexivity |].
  cbn [conv_encode_from length]. rewrite IH. lia.
Qed.

Lemma conv_encode_from_bits (bits : list Z) :
  forall st, Forall is_bit (conv_encode_from st bits).
Proof.
  induction bits as [| b bits IH]; intros st; [constructor |].
  cbn [conv_encode_from]. repeat (constructor; [apply parity_bit |]). apply IH.
Qed.

Lemma land_1_twice (b : Z) : Z.land (Z.land b 1) 1 = Z.land b 1.
Proof. rewrite <- Z.land_assoc, Z.land_diag. reflexivity. Qed.

Lemma shift_in_low_bit (st b : Z) : shift_in st (Z.land b 1) = shift_in st b.
Proof. unfold shift_in. rewrite land_1_twice. reflexivity. Qed.

Lemma conv_encode_from_low_bit (bits : list Z) :
  forall st,
    conv_encode_from st (map (fun b => Z.land b 1) bits) = conv_encode_from st bits.
Proof.
  induction bits as [| b bits IH]; intros st; [reflexivity |].
  cbn [map conv_encode_from]. rewrite shift_in_low_bit, IH. reflexivity.
Qed.

(** X1: whatever integers it is given, [conv_encode_7_5] returns two coded
    bits per input, every one of them 0 or 1, and reads only the least
    significant bit of each input. *)
Theorem conv_encode_shape (bits : list Z) :
  length (conv_encode_7_5 bits) = (2 * length bits)%nat /\
  Forall is_bit (conv_encode_7_5 bits) /\
  conv_encode_7_5 (map (fun b => Z.land b 1) bits) = conv_encode_7_5 bits.
Proof.
  unfold conv_encode_7_5. split; [| split].
  - apply length_conv_encode_from.
  - apply conv_encode_from_bits.
  - apply conv_encode_from_low_bit.
Qed.

(** The register of [conv_encode_7_5] after the loop. *)
Definition register_after (st : Z) (bits : list Z) : Z :=
  fold_left shift_in bits st.

Lemma conv_encode_from_app (a b : list Z) :
  forall st,
    conv_encode_from st (a ++ b) =
    conv_encode_from st a ++ conv_encode_from (register_after st a) b.
Proof.
  induction a as [| x a IH]; intros st; [reflexivity |].
  cbn [app conv_encode_from register_after fold_left]. rewrite IH. reflexivity.
Qed.

(** X2: the encoder is causal: the coded bits of a prefix of the input do
    not depend on the inputs that follow. *)
Theorem conv_encode_prefix (a b : list Z) :
  take (2 * length a) (conv_encode_7_5 (a ++ b)) = conv_encode_7_5 a.
Proof.
  unfold conv_encode_7_5. rewrite conv_encode_from_app.
  apply take_app_length'. symmetry. apply length_conv_encode_from.
Qed.

Lemma shift_in_mod (st b : Z) : shift_in st b = (2 * st + Z.land b 1) mod 8.
Proof.
  unfold shift_in. rewrite lor_shiftl1_bit by apply land_1_bit.
  change 7 with (Z.ones 3). rewrite Z.land_ones by lia. reflexivity.
Qed.

Lemma land_3_mod (st : Z) : Z.land st 3 = st mod 4.
Proof. change 3 with (Z.ones 2). rewrite Z.land_ones by lia. reflexivity. Qed.

(** The next register depends on the two low bits of the register only. *)
Lemma shift_in_low2 (st st' b : Z) :
  Z.land st 3 = Z.land st' 3 -> shift_in st b = shift_in st' b.
Proof.
  rewrite !land_3_mod, !shift_in_mod. intros Hm.
  pose proof (Z.div_mod st 4 ltac:(lia)) as H1.
  pose proof (Z.div_mod st' 4 ltac:(lia)) as H2.
  replace (2 * st + Z.land b 1)
    with ((2 * (st mod 4) + Z.land b 1) + (st / 4) * 8) by lia.
  replace (2 * st' + Z.land b 1)
    with ((2 * (st' mod 4) + Z.land b 1) + (st' / 4) * 8) by lia.
  rewrite !Z.mod_add by lia. rewrite Hm. reflexivity.
Qed.

Lemma conv_encode_from_low2 (bits : list Z) (st st' : Z) :
  Z.land st 3 = Z.land st' 3 ->
  conv_encode_from st bits = conv_encode_from st' bits.
Proof.
  intros Hm. destruct bits as [| b bits]; [reflexivity |].
  cbn [conv_encode_from]. rewrite (shift_in_low2 st st' b Hm). reflexivity.
Qed.

(** Two zero inputs clear the two low bits of the register. *)
Lemma register_after_tail (st : Z) :
  Z.land (register_after st [0; 0]) 3 = 0.
Proof.
  cbn [register_after fold_left]. rewrite land_3_mod, !shift_in_mod.
  change (Z.land 0 1) with 0. Z.div_mod_to_equations. lia.
Qed.

Lemma register_after_app (a b : list Z) (st : Z) :
  register_after st (a ++ b) = register_after (register_after st a) b.
Proof. unfold register_after. apply fold_left_app. Qed.

(** X3: the tail returns the encoder to its start: what is coded after a
    tailed block is coded as if the encoder were fresh, whatever integers
    the block held. *)
Theorem conv_encode_after_tail (a b : list Z) :
  conv_encode_7_5 (add_tail a ++ b) =
  conv_encode_7_5 (add_tail a) ++ conv_encode_7_5 b.
Proof.
  unfold conv_encode_7_5. rewrite conv_encode_from_app. f_equal.
  apply conv_encode_from_low2.
  change (add_tail a) with (a ++ [0; 0]).
  rewrite register_after_app, register_after_tail. reflexivity.
Qed.

End EncoderShape.

(** ** The code is linear and the encoder injective *)

Section EncoderAlgebra.

Import Encoder Trellis.

Lemma trellis_linear (s s' u u' : Z) :
  is_state s -> is_state s' -> is_bit u -> is_bit u' ->
  is_state (Z.lxor s s') /\
  next_state (Z.lxor s s') (Z.lxor u u') =
    Z.lxor (next_state s u) (next_state s' u') /\
  (out_bits (Z.lxor s s') (Z.lxor u u')).1 =
    Z.lxor (out_bits s u).1 (out_bits s' u').1 /\
  (out_bits (Z.lxor s s') (Z.lxor u u')).2 =
    Z.lxor (out_bits s u).2 (out_bits s' u').2.
Proof.
  intros Hs Hs' Hu Hu'. by_states s Hs; by_states s' Hs';
    destruct Hu as [-> | ->], Hu' as [-> | ->];
    vm_compute; intuition congruence.
Qed.

Lemma enc_path_linear (a : list Z) :
  Forall is_bit a ->
  forall b s s', Forall is_bit b -> is_state s -> is_state s' ->
    enc_path (Z.lxor s s') (zip_with Z.lxor a b) =
    zip_with Z.lxor (enc_path s a) (enc_path s' b).
Proof.
  induction 1 as [| u a Hu _ IH]; intros b s s' Hb Hs Hs'; [reflexivity |].
  destruct Hb as [| u' b Hu' Hb]; [reflexivity |].
  cbn [zip_with enc_path].
  destruct (trellis_linear s s' u u' Hs Hs' Hu Hu') as (_ & Hn & H1 & H0).
  rewrite H1, H0, Hn. f_equal. f_equal.
  apply IH; try assumption; apply next_state_is_state; assumption.
Qed.

Lemma land_lxor_1 (x y : Z) :
  Z.land (Z.lxor x y) 1 = Z.lxor (Z.land x 1) (Z.land y 1).
Proof.
  apply Z.bits_inj'. intros n _.
  rewrite !Z.land_spec, !Z.lxor_spec, !Z.land_spec.
  destruct (Z.testbit x n), (Z.testbit y n), (Z.testbit 1 n); reflexivity.
Qed.

Lemma map_land_zip_lxor (a b : list Z) :
  map (fun x => Z.land x 1) (zip_with Z.lxor a b) =
  zip_with Z.lxor (map (fun x => Z.land x 1) a) (map (fun x => Z.land x 1) b).
Proof.
  revert b. induction a as [| x a IH]; intros [| y b]; try reflexivity.
  cbn [zip_with map]. rewrite IH, land_lxor_1. reflexivity.
Qed.

Lemma map_land_bits (a : list Z) : Forall is_bit (map (fun x => Z.land x 1) a).
Proof. apply List.Forall_map, List.Forall_forall. intros x _. apply land_1_bit. Qed.

(** X4: the code is linear over GF(2): the coded sequence of the bitwise
    exclusive or of two inputs is the bitwise exclusive or of their coded
    sequences (up to the length of the shorter one). *)
Theorem conv_encode_linear (a b : list Z) :
  conv_encode_7_5 (zip_with Z.lxor a b) =
  zip_with Z.lxor (conv_encode_7_5 a) (conv_encode_7_5 b).
Proof.
  assert (H0 : is_state 0) by (unfold is_state; change NUM_STATES with 4; lia).
  unfold conv_encode_7_5.
  rewrite <- (conv_encode_from_low_bit (zip_with Z.lxor a b)).
  rewrite <- (conv_encode_from_low_bit a), <- (conv_encode_from_low_bit b).
  fold (conv_encode_7_5 (map (fun b => Z.land b 1) (zip_with Z.lxor a b))).
  fold (conv_encode_7_5 (map (fun b => Z.land b 1) a)).
  fold (conv_encode_7_5 (map (fun b => Z.land b 1) b)).
  rewrite map_land_zip_lxor.
  pose proof (map_land_bits a) as Ha. pose proof (map_land_bits b) as Hb.
  set (a' := map (fun x => Z.land x 1) a) in *.
  set (b' := map (fun x => Z.land x 1) b) in *.
  assert (Hab : Forall is_bit (zip_with Z.lxor a' b')).
  { clearbody a' b'. clear -Ha Hb. revert b' Hb.
    induction Ha as [| x a' Hx _ IH]; intros b' Hb; [constructor |].
    destruct Hb as [| y b' Hy Hb]; [constructor |].
    cbn [zip_with]. constructor; [| apply IH, Hb].
    destruct Hx as [-> | ->], Hy as [-> | ->]; vm_compute; auto. }
  rewrite !conv_encode_enc_path by assumption.
  change 0 with (Z.lxor 0 0) at 1.
  apply enc_path_linear; assumption.
Qed.

Lemma branch_determines_input (s u u' : Z) :
  is_state s -> is_bit u -> is_bit u' ->
  (out_bits s u).1 = (out_bits s u').1 -> u = u'.
Proof.
  intros Hs Hu Hu'. by_states s Hs;
    destruct Hu as [-> | ->], Hu' as [-> | ->]; vm_compute; congruence.
Qed.

Lemma enc_path_injective (a : list Z) :
  Forall is_bit a ->
  forall b s, Forall is_bit b -> is_state s ->
    enc_path s a = enc_path s b -> a = b.
Proof.
  induction 1 as [| u a Hu _ IH]; intros b s Hb Hs Heq.
  - destruct b; [reflexivity | discriminate].
  - destruct Hb as [| u' b Hu' Hb]; [discriminate |].
    cbn [enc_path] in Heq. injection Heq as H1 H0 Hrest.
    pose proof (branch_determines_input s u u' Hs Hu Hu' H1) as <-.
    f_equal. apply (IH b (next_state s u)); try assumption.
    apply next_state_is_state; assumption.
Qed.

(** X5: the encoder is injective on bit sequences: two payloads with the
    same coded sequence are the same payload. *)
Theorem conv_encode_injective (a b : list Z) :
  Forall is_bit a -> Forall is_bit b ->
  conv_encode_7_5 a = conv_encode_7_5 b -> a = b.
Proof.
  intros Ha Hb. rewrite !conv_encode_enc_path by assumption.
  apply enc_path_injective; try assumption.
  unfold is_state. change NUM_STATES with 4. lia.
Qed.

Lemma conv_encode_injective_witness :
  conv_encode_7_5 [1; 0; 1] = [1; 1; 1; 0; 0; 0] /\
  [1; 0; 1] = Z.lxor 1 0 :: [0; 1].
Proof.
  split; [reflexivity |].
  apply (conv_encode_injective [1; 0; 1] (Z.lxor 1 0 :: [0; 1])).
  - repeat constructor; (left; reflexivity) || (right; reflexivity).
  - repeat constructor; (left; reflexivity) || (right; reflexivity).
  - reflexivity.
Defined.

End EncoderAlgebra.

(** ** The decoder: shape, optimality, inversion of the encoder *)

Section DecoderProperties.

Import Encoder Trellis Viterbi.

Lemma fold_left_ext_in {A B : Type} (f g : A -> B -> A) (l : list B) :
  (forall x, In x l -> forall a, f a x = g a x) ->
  forall a, fold_left f l a = fold_left g l a.
Proof.
  induction l as [| x l IH]; intros Hfg a; [reflexivity |].
  cbn [fold_left]. rewrite (Hfg x (or_introl eq_refl)).
  apply IH. intros y Hy. apply Hfg. right. exact Hy.
Qed.

Lemma num_pairs_take (rx : list Z) :
  num_pairs (take (2 * num_pairs rx) rx) = num_pairs rx.
Proof.
  apply num_pairs_double. apply length_take_le, num_pairs_le.
Qed.

Lemma forward_take (rx : list Z) :
  forward (take (2 * num_pairs rx) rx) = forward rx.
Proof.
  unfold forward. rewrite num_pairs_take.
  apply fold_left_ext_in. intros t Ht st.
  apply in_seq in Ht. unfold time_step.
  rewrite !lookup_total_take_lt by lia. reflexivity.
Qed.

(** X6: the decoder returns one decision per received pair, whatever
    integers it is given (none for an empty input), and never reads an
    unpaired last entry: only the first [2 * (len // 2)] entries count. *)
Theorem decode_shape (rx : list Z) :
  length (viterbi_decode_hard_7_5 rx) = (length rx / 2)%nat /\
  viterbi_decode_hard_7_5 (take (2 * (length rx / 2)) rx) =
    viterbi_decode_hard_7_5 rx.
Proof.
  split; [apply length_decode |].
  fold (num_pairs rx). unfold viterbi_decode_hard_7_5.
  rewrite forward_take, num_pairs_take. reflexivity.
Qed.

Lemma cost_below_sentinel (rx w : list Z) :
  Forall is_bit rx -> Forall is_bit w ->
  length rx = (2 * length w)%nat -> Z.of_nat (length rx) < INF ->
  hamming (enc_path 0 w) rx < INF.
Proof.
  intros Hrx Hw Hlen Hlt.
  assert (H0 : is_state 0) by (unfold is_state; change NUM_STATES with 4; lia).
  pose proof (hamming_le_length (enc_path 0 w) (enc_path_bits w Hw 0 H0) rx Hrx)
    as Hb.
  rewrite length_enc_path in Hb. lia.
Qed.

(** X7: maximum likelihood.  On a received sequence of fewer than 10^9
    bits, an even number of them, the decoder returns bits, one per pair,
    and no input bit sequence of that length has a coded sequence closer to
    the received one than the coded sequence of the decoder's output. *)
Theorem decode_maximum_likelihood (rx w : list Z) :
  Forall is_bit rx -> Forall is_bit w ->
  length rx = (2 * length w)%nat -> Z.of_nat (length rx) < INF ->
  Forall is_bit (viterbi_decode_hard_7_5 rx) /\
  length (viterbi_decode_hard_7_5 rx) = length w /\
  hamming (conv_encode_7_5 (viterbi_decode_hard_7_5 rx)) rx <=
    hamming (conv_encode_7_5 w) rx.
Proof.
  intros Hrx Hw Hlen Hlt.
  destruct (decode_at_least_as_close rx w Hrx Hw Hlen
              (cost_below_sentinel rx w Hrx Hw Hlen Hlt)) as (Hl & Hb & Hc).
  rewrite !conv_encode_enc_path by assumption. auto.
Qed.

Lemma decode_maximum_likelihood_witness :
  Forall is_bit (viterbi_decode_hard_7_5 [1; 0; 0; 1; 1; 1]) /\
  length (viterbi_decode_hard_7_5 [1; 0; 0; 1; 1; 1]) = length [1; 0; 1] /\
  hamming (conv_encode_7_5 (viterbi_decode_hard_7_5 [1; 0; 0; 1; 1; 1]))
    [1; 0; 0; 1; 1; 1] <=
  hamming (conv_encode_7_5 [1; 0; 1]) [1; 0; 0; 1; 1; 1].
Proof.
  apply (decode_maximum_likelihood [1; 0; 0; 1; 1; 1] [1; 0; 1]).
  - repeat constructor; (left; reflexivity) || (right; reflexivity).
  - repeat constructor; (left; reflexivity) || (right; reflexivity).
  - reflexivity.
  - vm_compute. reflexivity.
Defined.

Lemma hamming_zero_eq (x : list Z) :
  Forall is_bit x ->
  forall y, Forall is_bit y -> length x = length y ->
    hamming x y = 0 -> x = y.
Proof.
  induction 1 as [| a x Ha Hx IH]; intros y Hy Hlen Hz.
  - destruct y; [reflexivity | discriminate].
  - destruct Hy as [| b y Hb Hy]; [discriminate |].
    cbn [hamming] in Hz. cbn in Hlen.
    pose proof (lxor_bits a b Ha Hb) as Hab.
    pose proof (hamming_nonneg x Hx y Hy) as Hn.
    assert (Hxor : Z.lxor a b = 0) by lia.
    apply Z.lxor_eq in Hxor. subst b. f_equal.
    apply IH; try assumption; lia.
Qed.

(** X8: without channel errors the decoder inverts the encoder on every bit
    sequence, with or without a tail. *)
Theorem decode_inverts_encode (w : list Z) :
  Forall is_bit w -> viterbi_decode_hard_7_5 (conv_encode_7_5 w) = w.
Proof.
  intros Hw.
  assert (H0 : is_state 0) by (unfold is_state; change NUM_STATES with 4; lia).
  rewrite (conv_encode_enc_path w Hw).
  pose proof (enc_path_bits w Hw 0 H0) as Hrx.
  destruct (decode_at_least_as_close (enc_path 0 w) w Hrx Hw
              (length_enc_path w 0))
    as (Hl & Hb & Hc); [rewrite hamming_refl; reflexivity |].
  rewrite hamming_refl in Hc.
  set (d := viterbi_decode_hard_7_5 (enc_path 0 w)) in *.
  pose proof (hamming_nonneg _ (enc_path_bits d Hb 0 H0) _ Hrx) as Hn.
  apply (enc_path_injective d Hb w 0 Hw H0).
  apply hamming_zero_eq.
  - apply enc_path_bits; assumption.
  - exact Hrx.
  - rewrite !length_enc_path. lia.
  - lia.
Qed.

Lemma decode_inverts_encode_witness :
  viterbi_decode_hard_7_5 (conv_encode_7_5 [1; 0; 1; 1]) = [1; 0; 1; 1].
Proof.
  apply (decode_inverts_encode [1; 0; 1; 1]).
  repeat constructor; (left; reflexivity) || (right; reflexivity).
Defined.

(** X9: one flipped coded bit leaves every input bit but the last one
    intact: a single further input after the payload is enough to protect
    it, zero or not. *)
Theorem single_flip_spares_all_but_last (w : list Z) (i : nat) :
  Forall is_bit w -> (i < length (conv_encode_7_5 w))%nat ->
  take (length w - 1)
    (viterbi_decode_hard_7_5 (flip_coded_bit i (conv_encode_7_5 w)))
  = take (length w - 1) w.
Proof.
  intros Hw Hi.
  assert (H0 : is_state 0) by (unfold is_state; change NUM_STATES with 4; lia).
  rewrite (conv_encode_enc_path w Hw) in *.
  pose proof (enc_path_bits w Hw 0 H0) as Hc.
  rewrite length_enc_path in Hi.
  apply decode_prefix.
  - apply flip_coded_bit_bits; [exact Hc |]. rewrite length_enc_path. exact Hi.
  - exact Hw.
  - unfold flip_coded_bit. rewrite length_insert. apply length_enc_path.
  - lia.
  - rewrite hamming_flip; [lia | exact Hc |]. rewrite length_enc_path. exact Hi.
Qed.

Lemma single_flip_spares_all_but_last_witness :
  take (length [1; 0; 1; 1] - 1)
    (viterbi_decode_hard_7_5 (flip_coded_bit 7 (conv_encode_7_5 [1; 0; 1; 1])))
  = take (length [1; 0; 1; 1] - 1) [1; 0; 1; 1].
Proof.
  apply (single_flip_spares_all_but_last [1; 0; 1; 1] 7).
  - repeat constructor; (left; reflexivity) || (right; reflexivity).
  - vm_compute. lia.
Defined.

(** The last input bit is not protected: with the payload [1] alone, a flip
    of the first coded bit makes the decoder return [0]. *)
Example last_bit_unprotected :
  viterbi_decode_hard_7_5 (flip_coded_bit 0 (conv_encode_7_5 [1])) = [0].
Proof. vm_compute. reflexivity. Qed.

End DecoderProperties.

(** ** The bit-flip channel: shape and use of the generator *)

Section ChannelShape.

Context {G : Type} `{PyRandom G}.

(** The generator after one call of [random()], of [randint(0, 1)]. *)
Definition after_random (g : G) : G := snd (random g).
Definition after_randint (g : G) : G := snd (randint01 g).

Lemma flip_bit_cases (b : Z) (p : Q) (g : G) :
  (fst (flip_bit b p g) = b \/ fst (flip_bit b p g) = Z.lxor b 1) /\
  snd (flip_bit b p g) = after_random g.
Proof.
  unfold flip_bit, after_random. destruct (random g) as [x g'].
  destruct (Qltb x p); cbn; auto.
Qed.

Lemma flip_channel_rng (coded : list (Z * Z)) (p : Q) :
  forall g, snd (flip_channel coded p g) =
            Nat.iter (2 * length coded) after_random g.
Proof.
  induction coded as [| [v1 v0] coded IH]; intros g; [reflexivity |].
  cbn [flip_channel].
  pose proof (flip_bit_cases v1 p g) as [_ H1].
  destruct (flip_bit v1 p g) as [n1 g1]. cbn [snd] in H1. subst g1.
  pose proof (flip_bit_cases v0 p (after_random g)) as [_ H0].
  destruct (flip_bit v0 p (after_random g)) as [n0 g0]. cbn [snd] in H0. subst g0.
  specialize (IH (after_random (after_random g))).
  destruct (flip_channel coded p _) as [noisy g']. cbn [snd] in *.
  rewrite IH. cbn [length].
  replace (2 * S (length coded))%nat with (S (S (2 * length coded))) by lia.
  rewrite !Nat.iter_succ_r. reflexivity.
Qed.

Lemma flip_channel_pointwise (coded : list (Z * Z)) (p : Q) :
  forall g,
    Forall2 (fun c n => (n.1 = c.1 \/ n.1 = Z.lxor c.1 1) /\
                        (n.2 = c.2 \/ n.2 = Z.lxor c.2 1))
      coded (fst (flip_channel coded p g)).
Proof.
  induction coded as [| [v1 v0] coded IH]; intros g; [constructor |].
  cbn [flip_channel].
  pose proof (flip_bit_cases v1 p g) as [H1 _].
  destruct (flip_bit v1 p g) as [n1 g1].
  pose proof (flip_bit_cases v0 p g1) as [H0 _].
  destruct (flip_bit v0 p g1) as [n0 g0].
  specialize (IH g0). destruct (flip_channel coded p g0) as [noisy g'].
  cbn [fst snd] in *. constructor; [split; assumption | exact IH].
Qed.

(** X10: for every flip probability the channel returns one noisy symbol
    per coded symbol, each of its two bits either kept or flipped, and
    makes exactly two calls of [rng.random()] per symbol, whatever the
    symbols and the probability are. *)
Theorem flip_channel_shape (coded : list (Z * Z)) (p : Q) (g : G) :
  length (fst (flip_channel coded p g)) = length coded /\
  Forall2 (fun c n => (n.1 = c.1 \/ n.1 = Z.lxor c.1 1) /\
                      (n.2 = c.2 \/ n.2 = Z.lxor c.2 1))
    coded (fst (flip_channel coded p g)) /\
  snd (flip_channel coded p g) = Nat.iter (2 * length coded) after_random g.
Proof.
  pose proof (flip_channel_pointwise coded p g) as HF.
  split; [| split].
  - symmetry. apply (Forall2_length _ _ _ HF).
  - exact HF.
  - apply flip_channel_rng.
Qed.

Lemma Qltb_true (x p : Q) : (x < p)%Q -> Qltb x p = true.
Proof.
  intros Hlt. unfold Qltb. apply negb_true_iff.
  destruct (Qle_bool p x) eqn:E; [| reflexivity].
  apply Qle_bool_iff in E. exfalso. apply (Qlt_not_le _ _ Hlt E).
Qed.

Lemma flip_bit_flips (b : Z) (p : Q) (g : G) :
  (fst (random g) < p)%Q -> flip_bit b p g = (Z.lxor b 1, after_random g).
Proof.
  intros Hlt. unfold flip_bit, after_random. destruct (random g) as [x g'].
  cbn [fst snd] in *. rewrite Qltb_true by exact Hlt. reflexivity.
Qed.

Lemma flip_channel_flips (p : Q) :
  (forall g : G, (fst (random g) < p)%Q) ->
  forall (coded : list (Z * Z)) (g : G),
    fst (flip_channel coded p g) =
    map (fun c => (Z.lxor c.1 1, Z.lxor c.2 1)) coded.
Proof.
  intros Hp. induction coded as [| [v1 v0] coded IH]; intros g; [reflexivity |].
  cbn [flip_channel map fst snd]. rewrite !flip_bit_flips by apply Hp.
  specialize (IH (after_random (after_random g))).
  destruct (flip_channel coded p _) as [noisy g']. cbn [fst] in *.
  rewrite IH. reflexivity.
Qed.

End ChannelShape.

(** X11: with a flip probability of 1 or more the channel inverts every
    coded bit. *)
Theorem certain_flip_inverts (G : Type) `{PyRandom G} (p : Q) :
  well_ranged G -> (1 <= p)%Q ->
  forall (coded : list (Z * Z)) (g : G),
    fst (flip_channel coded p g) =
    map (fun c => (Z.lxor c.1 1, Z.lxor c.2 1)) coded.
Proof.
  intros Hrange Hp. apply flip_channel_flips. intros g.
  destruct (Hrange g) as (_ & Hlt & _).
  eapply Qlt_le_trans; eassumption.
Qed.

Section ChannelSamples.

Import Samples.

Lemma certain_flip_inverts_witness :
  fst (flip_channel (G := Z) [(1, 0); (0, 0)] 1 42) =
  map (fun c => (Z.lxor c.1 1, Z.lxor c.2 1)) [(1, 0); (0, 0)].
Proof.
  apply (certain_flip_inverts Z 1 lcg_well_ranged).
  unfold Qle. cbn. lia.
Defined.

End ChannelSamples.

(** ** The harness: resets, timeouts and the use of the generator *)

Section HarnessFacts.

Context {D G : Type} `{Dut D} `{PyRandom G}.

Local Open Scope harness_scope.

(** The signals as [reset_chain] leaves them, and the device after its six
    clock edges. *)
Definition pins_in_reset : pins := Pins 0 1 0 0 0 0.
Definition pins_after_reset : pins := Pins 1 0 0 0 0 0.

Definition after_reset (d : D) : D :=
  rising_edge pins_after_reset (Nat.iter 5 (rising_edge pins_in_reset) d).

Lemma reset_chain_result (d : D) (p : pins) (g : G) :
  reset_chain (World d p g) =
  Returns (tt, World (after_reset d) pins_after_reset g).
Proof. reflexivity. Qed.

Lemma one_pass_run_pins mp payload tb lat (d : D) (p p' : pins) (g : G) :
  one_pass_run mp payload tb lat (World d p g) =
  one_pass_run mp payload tb lat (World d p' g).
Proof. unfold one_pass_run, bind. rewrite !reset_chain_result. reflexivity. Qed.

Lemma one_pass_errors_pins mp payload tb lat (d : D) (p p' : pins) (g : G) :
  _one_pass_errors mp payload tb lat (World d p g) =
  _one_pass_errors mp payload tb lat (World d p' g).
Proof.
  unfold _one_pass_errors, bind.
  rewrite (one_pass_run_pins mp payload tb lat d p p' g). reflexivity.
Qed.

Lemma calibrate_mapping_pins tb lat (d : D) (p p' : pins) (g : G) :
  calibrate_mapping tb lat (World d p g) =
  calibrate_mapping tb lat (World d p' g).
Proof.
  unfold calibrate_mapping, bind, with_rng. cbn [w_rng w_dut w_pins].
  destruct (draw_bits 64 g) as [payload g'].
  rewrite (one_pass_errors_pins y0_is_v1 payload tb lat d p p' g').
  reflexivity.
Qed.

Lemma trial_pins cfg mp q (d : D) (p p' : pins) (g : G) :
  trial cfg mp q (World d p g) = trial cfg mp q (World d p' g).
Proof.
  unfold trial, trial_run, bind. rewrite !reset_chain_result. reflexivity.
Qed.

(** X12: every pass starts by driving all six input signals, so neither
    the sweep nor a single trial depends on the values the signals had
    before. *)
Theorem sweep_ignores_initial_pins (cfg : config) (d : D) (g : G)
    (mp : mapping) (q : Q) (p p' : pins) :
  test_ber_sweep cfg d p = test_ber_sweep cfg d p' /\
  trial cfg mp q (World d p g) = trial cfg mp q (World d p' g).
Proof.
  split; [| apply trial_pins].
  unfold test_ber_sweep, bind.
  rewrite (calibrate_mapping_pins _ _ d p p'). reflexivity.
Qed.

(** *** Timeouts *)

Lemma bind_drive {A : Type} f (k : unit -> M (world D G) A) w :
  bind (drive f) k w = k tt (World (w_dut w) (f (w_pins w)) (w_rng w)).
Proof. reflexivity. Qed.

Lemma bind_RisingEdge {A : Type} (k : unit -> M (world D G) A) w :
  bind RisingEdge k w =
  k tt (World (rising_edge (w_pins w) (w_dut w)) (w_pins w) (w_rng w)).
Proof. reflexivity. Qed.

Lemma repeatM_RisingEdge (n : nat) :
  forall w : world D G,
    repeatM n RisingEdge w =
    Returns (tt, World (Nat.iter n (rising_edge (w_pins w)) (w_dut w))
                   (w_pins w) (w_rng w)).
Proof.
  induction n as [| n IH]; intros w.
  - destruct w; reflexivity.
  - cbn [repeatM]. rewrite bind_RisingEdge, IH. cbn [w_dut w_pins w_rng].
    rewrite Nat.iter_succ_r. reflexivity.
Qed.

Section SilentEncoder.

Hypothesis never_valid : forall d : D, enc_out_valid d = 0.

Lemma wait_times_out (n : nat) :
  forall w : world D G,
    wait_enc_out_valid n w = Raises Timeout_waiting_for_enc_out_valid.
Proof.
  induction n as [| n IH]; intros w; [reflexivity |].
  cbn [wait_enc_out_valid]. unfold bind at 1. unfold read at 1.
  rewrite never_valid. cbn [Z.eqb]. rewrite bind_RisingEdge. apply IH.
Qed.

Lemma enc_push_times_out u lat tmo (w : world D G) :
  enc_push_bit_and_get_symbol u lat tmo w =
  Raises Timeout_waiting_for_enc_out_valid.
Proof.
  unfold enc_push_bit_and_get_symbol.
  rewrite !bind_drive, bind_RisingEdge, bind_drive.
  unfold bind. rewrite repeatM_RisingEdge. apply wait_times_out.
Qed.

Lemma encode_stream_times_out mp lat u rest (w : world D G) :
  encode_stream mp lat (u :: rest) w =
  Raises Timeout_waiting_for_enc_out_valid.
Proof.
  cbn [encode_stream]. unfold bind at 1. rewrite enc_push_times_out.
  reflexivity.
Qed.

Lemma draw_bits_S (n : nat) (g : G) :
  exists b bs g', draw_bits (S n) g = (b :: bs, g').
Proof.
  cbn [draw_bits]. destruct (randint01 g) as [b g1].
  destruct (draw_bits n g1) as [bs g']. eauto.
Qed.

Lemma calibrate_times_out tb lat (w : world D G) :
  calibrate_mapping tb lat w = Raises Timeout_waiting_for_enc_out_valid.
Proof.
  unfold calibrate_mapping, bind at 1. unfold with_rng.
  destruct (draw_bits_S 63 (w_rng w)) as (b & bs & g' & ->).
  unfold bind at 1. unfold _one_pass_errors at 1. unfold bind at 1.
  unfold one_pass_run. unfold bind at 1. destruct w as [d p g].
  rewrite reset_chain_result. unfold bind at 1.
  cbn [app]. rewrite encode_stream_times_out. reflexivity.
Qed.

Lemma sweep_times_out cfg (d : D) (p0 : pins) :
  test_ber_sweep cfg d p0 = Raises Timeout_waiting_for_enc_out_valid.
Proof.
  unfold test_ber_sweep, bind. rewrite calibrate_times_out. reflexivity.
Qed.

End SilentEncoder.

(** *** The generator is used by the draws only *)

(** A computation that leaves the generator as it found it. *)
Definition keeps_rng {A : Type} (c : M (world D G) A) : Prop :=
  forall w a w', c w = Returns (a, w') -> w_rng w' = w_rng w.

Lemma keeps_ret {A : Type} (a : A) : keeps_rng (ret a).
Proof. intros w a' w' E. injection E as _ <-. reflexivity. Qed.

Lemma keeps_raise {A : Type} e : keeps_rng (A := A) (raise e).
Proof. intros w a w' E. discriminate. Qed.

Lemma keeps_bind {A B : Type} (c : M _ A) (k : A -> M _ B) :
  keeps_rng c -> (forall a, keeps_rng (k a)) -> keeps_rng (bind c k).
Proof.
  intros Hc Hk w b w' E. unfold bind in E.
  destruct (c w) as [[a w1] | e] eqn:E1; [| discriminate].
  rewrite (Hk a _ _ _ E). apply (Hc _ _ _ E1).
Qed.

Lemma keeps_drive f : keeps_rng (drive f).
Proof. intros w a w' E. injection E as _ <-. reflexivity. Qed.

Lemma keeps_RisingEdge : keeps_rng RisingEdge.
Proof. intros w a w' E. injection E as _ <-. reflexivity. Qed.

Lemma keeps_read signal : keeps_rng (read signal).
Proof. intros w a w' E. injection E as _ <-. reflexivity. Qed.

Lemma keeps_repeatM n c : keeps_rng c -> keeps_rng (repeatM n c).
Proof.
  intros Hc. induction n as [| n IH]; cbn [repeatM].
  - apply keeps_ret.
  - apply keeps_bind; [exact Hc | intros _; exact IH].
Qed.

Ltac keeps_step :=
  lazymatch goal with
  | |- keeps_rng (bind _ _) => apply keeps_bind; [| intros ? ]
  | |- keeps_rng (ret _) => apply keeps_ret
  | |- keeps_rng (raise _) => apply keeps_raise
  | |- keeps_rng (drive _) => apply keeps_drive
  | |- keeps_rng RisingEdge => apply keeps_RisingEdge
  | |- keeps_rng (read _) => apply keeps_read
  | |- keeps_rng (repeatM _ _) => apply keeps_repeatM
  end.

Lemma keeps_reset_chain : keeps_rng reset_chain.
Proof. unfold reset_chain. repeat keeps_step. Qed.

Lemma keeps_wait n : keeps_rng (wait_enc_out_valid n).
Proof.
  induction n as [| n IH]; cbn [wait_enc_out_valid]; [apply keeps_raise |].
  apply keeps_bind; [apply keeps_read | intros v].
  destruct (v =? 0); [| repeat keeps_step].
  apply keeps_bind; [apply keeps_RisingEdge | intros _; exact IH].
Qed.

Lemma keeps_enc_push u lat tmo :
  keeps_rng (enc_push_bit_and_get_symbol u lat tmo).
Proof.
  unfold enc_push_bit_and_get_symbol.
  do 5 (apply keeps_bind; [repeat keeps_step | intros _]).
  apply keeps_wait.
Qed.

Lemma keeps_encode_stream mp lat in_stream :
  keeps_rng (encode_stream mp lat in_stream).
Proof.
  induction in_stream as [| u rest IH]; cbn [encode_stream]; [apply keeps_ret |].
  apply keeps_bind; [apply keeps_enc_push | intros y].
  apply keeps_bind; [exact IH | intros coded; apply keeps_ret].
Qed.

Lemma keeps_collect decided : keeps_rng (collect decided).
Proof.
  unfold collect. apply keeps_bind; [apply keeps_read | intros bv].
  destruct (bv =? 0); repeat keeps_step.
Qed.

Lemma keeps_feed_decoder noisy :
  forall decided, keeps_rng (feed_decoder noisy decided).
Proof.
  induction noisy as [| [v1 v0] rest IH]; intros decided; cbn [feed_decoder];
    [apply keeps_ret |].
  do 4 (apply keeps_bind; [repeat keeps_step | intros _]).
  apply keeps_bind; [apply keeps_collect | intros decided'; apply IH].
Qed.

Lemma keeps_drain n : forall decided, keeps_rng (drain n decided).
Proof.
  induction n as [| n IH]; intros decided; cbn [drain]; [apply keeps_ret |].
  apply keeps_bind; [apply keeps_RisingEdge | intros _].
  apply keeps_bind; [apply keeps_collect | intros decided'; apply IH].
Qed.

Lemma keeps_decode_stream tb noisy : keeps_rng (decode_stream tb noisy).
Proof.
  unfold decode_stream.
  apply keeps_bind; [apply keeps_feed_decoder | intros decided; apply keeps_drain].
Qed.

Lemma keeps_one_pass_errors mp payload tb lat :
  keeps_rng (_one_pass_errors mp payload tb lat).
Proof.
  unfold _one_pass_errors, one_pass_run.
  apply keeps_bind; [| intros decided; apply keeps_ret].
  apply keeps_bind; [apply keeps_reset_chain | intros _].
  apply keeps_bind; [apply keeps_encode_stream | intros coded].
  apply keeps_decode_stream.
Qed.

Lemma draw_bits_spec (n : nat) :
  forall g : G,
    length (fst (draw_bits n g)) = n /\
    snd (draw_bits n g) = Nat.iter n after_randint g.
Proof.
  induction n as [| n IH]; intros g; [split; reflexivity |].
  assert (Hr : after_randint g = snd (randint01 g)) by reflexivity.
  cbn [draw_bits]. rewrite Nat.iter_succ_r, Hr.
  destruct (IH (snd (randint01 g))) as [Hl Hg].
  destruct (randint01 g) as [b g1]. cbn [snd] in *.
  destruct (draw_bits n g1) as [bs g']. cbn [fst snd length] in *.
  split; [lia | exact Hg].
Qed.

Lemma encode_stream_length mp lat in_stream :
  forall (w w' : world D G) coded,
    encode_stream mp lat in_stream w = Returns (coded, w') ->
    length coded = length in_stream.
Proof.
  induction in_stream as [| u rest IH]; intros w w' coded E.
  - injection E as <- _. reflexivity.
  - cbn [encode_stream] in E. unfold bind in E.
    destruct (enc_push_bit_and_get_symbol u lat 16 w) as [[y w1] | e];
      [| discriminate].
    destruct (encode_stream mp lat rest w1) as [[c w2] | e] eqn:E2;
      [| discriminate].
    injection E as <- _. cbn [length]. rewrite (IH _ _ _ E2). reflexivity.
Qed.

(** X13: the calibration pass draws its 64 payload bits and nothing else:
    when [calibrate_mapping] returns, the generator has made exactly 64
    calls of [randint(0, 1)]. *)
Theorem calibration_draws (tb lat : Z) (w w' : world D G) (mp : mapping) :
  calibrate_mapping tb lat w = Returns (mp, w') ->
  w_rng w' = Nat.iter 64 after_randint (w_rng w).
Proof.
  unfold calibrate_mapping, bind, with_rng.
  destruct (draw_bits_spec 64 (w_rng w)) as [_ Hg].
  destruct (draw_bits 64 (w_rng w)) as [payload g']. cbn [snd] in Hg.
  destruct (_one_pass_errors y0_is_v1 payload tb lat _) as [[a w1] | e] eqn:E1;
    [| discriminate].
  destruct (_one_pass_errors y1_is_v1 payload tb lat w1) as [[b w2] | e] eqn:E2;
    [| discriminate].
  apply keeps_one_pass_errors in E1, E2. cbn [w_rng] in E1.
  intros E. destruct (fst a <=? fst b); injection E as _ <-; congruence.
Qed.

(** X14: a sweep trial uses the generator in one fixed way: [PAYLOAD_LEN]
    calls of [randint(0, 1)] for the payload, then two calls of [random()]
    for each of the [PAYLOAD_LEN + TB_LEN] coded symbols, whatever the
    device answers and whatever the flip probability is. *)
Theorem trial_draws (cfg : config) (mp : mapping) (q : Q)
    (w w' : world D G) (payload decided : list Z) :
  trial_run cfg mp q w = Returns ((payload, decided), w') ->
  payload = fst (draw_bits (Z.to_nat (PAYLOAD_LEN cfg)) (w_rng w)) /\
  w_rng w' =
    Nat.iter (2 * (Z.to_nat (PAYLOAD_LEN cfg) + Z.to_nat (TB_LEN cfg)))
      after_random
      (Nat.iter (Z.to_nat (PAYLOAD_LEN cfg)) after_randint (w_rng w)).
Proof.
  unfold trial_run, bind. destruct w as [d p g].
  rewrite reset_chain_result. unfold with_rng at 1. cbn [w_rng w_dut w_pins].
  destruct (draw_bits_spec (Z.to_nat (PAYLOAD_LEN cfg)) g) as [Hl Hg].
  destruct (draw_bits (Z.to_nat (PAYLOAD_LEN cfg)) g) as [pl g1].
  cbn [fst snd] in *.
  destruct (encode_stream _ _ _ _) as [[coded w1] | e] eqn:E1; [| discriminate].
  pose proof (encode_stream_length _ _ _ _ _ _ E1) as Hc.
  apply keeps_encode_stream in E1. cbn [w_rng] in E1.
  unfold with_rng.
  pose proof (flip_channel_rng coded q (w_rng w1)) as Hf.
  destruct (flip_channel coded q (w_rng w1)) as [noisy g2]. cbn [snd] in Hf.
  destruct (decode_stream _ _ _) as [[dec w2] | e] eqn:E2; [| discriminate].
  apply keeps_decode_stream in E2. cbn [w_rng] in E2.
  intros E. injection E as <- <- <-. split; [reflexivity |].
  rewrite E2, Hf, E1, Hc, length_app, repeat_length, Hl, Hg. reflexivity.
Qed.

End HarnessFacts.

(** X15: a device whose encoder never asserts [enc_out_valid] makes the
    whole sweep fail with the timeout error, in the calibration pass,
    whatever the configuration is. *)
Theorem silent_encoder_times_out (D G : Type) `{Dut D} `{PyRandom G} :
  (forall d : D, enc_out_valid d = 0) ->
  forall (cfg : config) (d : D) (p0 : pins),
    test_ber_sweep cfg d p0 = Raises Timeout_waiting_for_enc_out_valid.
Proof. intros Hnever cfg d p0. apply sweep_times_out. exact Hnever. Qed.

(** *** The rows of the sweep *)

(** What every row of a sweep with configuration [cfg] and calibrated
    mapping [mp] satisfies. *)
Definition row_consistent (cfg : config) (mp : mapping) (r : row) : Prop :=
  row_mapping r = mp /\
  trials r = TRIALS cfg /\ payload_len r = PAYLOAD_LEN cfg /\
  tb_len r = TB_LEN cfg /\ clk_ns r = CLK_NS /\ seed r = rng_seed cfg /\
  total_bits r = Z.of_nat (Z.to_nat (TRIALS cfg)) * PAYLOAD_LEN cfg /\
  0 <= errors r <= total_bits r /\
  (0 <= BER_hw r)%Q /\ (BER_hw r <= 1)%Q /\
  (BER_hw r * inject_Z (total_bits r) == inject_Z (errors r))%Q.

Lemma count_diff_bounds (xs : list Z) :
  forall ys, 0 <= count_diff xs ys <= Z.of_nat (length xs).
Proof.
  induction xs as [| x xs IH]; intros [| y ys]; cbn [count_diff length];
    try lia.
  specialize (IH ys). destruct (x =? y); lia.
Qed.

Lemma ratio_bounds (e t : Z) :
  0 <= e <= t -> t <> 0 ->
  (0 <= inject_Z e / inject_Z t)%Q /\ (inject_Z e / inject_Z t <= 1)%Q /\
  (inject_Z e / inject_Z t * inject_Z t == inject_Z e)%Q.
Proof.
  intros He Ht.
  assert (Hpos : (0 < inject_Z t)%Q)
    by (change 0%Q with (inject_Z 0); rewrite <- Zlt_Qlt; lia).
  repeat split.
  - apply Qle_shift_div_l; [exact Hpos |]. rewrite Qmult_0_l.
    change 0%Q with (inject_Z 0). rewrite <- Zle_Qle. lia.
  - apply Qle_shift_div_r; [exact Hpos |]. rewrite Qmult_1_l.
    rewrite <- Zle_Qle. lia.
  - rewrite Qmult_comm. apply Qmult_div_r.
    intros E. rewrite E in Hpos. apply (Qlt_irrefl _ Hpos).
Qed.

Section SweepRows.

Context {D G : Type} `{Dut D} `{PyRandom G}.

Local Open Scope harness_scope.

Lemma trial_errs_bounds cfg mp p (w w' : world D G) errs :
  trial cfg mp p w = Returns (errs, w') -> 0 <= errs <= PAYLOAD_LEN cfg.
Proof.
  intros E.
  destruct (trial_compares_last cfg mp p w w' errs E)
    as (payload & decided & discarded & recovered & _ & _ & Hlen & ->).
  rewrite <- Hlen. apply count_diff_bounds.
Qed.

Lemma trials_loop_counts cfg mp p (n : nat) :
  forall e t (w w' : world D G) e' t',
    trials_loop n cfg mp p e t w = Returns ((e', t'), w') ->
    t' = t + Z.of_nat n * PAYLOAD_LEN cfg /\ e <= e' <= e + (t' - t).
Proof.
  induction n as [| n IH]; intros e t w w' e' t'.
  - cbn [trials_loop]. unfold ret. intros E. injection E as <- <- _. lia.
  - cbn [trials_loop]. unfold bind.
    destruct (trial cfg mp p w) as [[errs w1] | x] eqn:E1; [| discriminate].
    intros E.
    pose proof (trial_errs_bounds _ _ _ _ _ _ E1) as Hb.
    pose proof (IH _ _ _ _ _ _ E) as [Ht He].
    rewrite Nat2Z.inj_succ, Z.mul_succ_l. clear E E1 IH. lia.
Qed.

Lemma sweep_point_row cfg mp p (w w' : world D G) r :
  sweep_point cfg mp p w = Returns (r, w') ->
  p_flip r = p /\ row_consistent cfg mp r.
Proof.
  unfold sweep_point, bind.
  destruct (trials_loop _ cfg mp p 0 0 w) as [[[e t] w1] | x] eqn:E1;
    [| discriminate].
  apply trials_loop_counts in E1. destruct E1 as [Ht He].
  intros E. injection E as <- _. cbn [fst snd].
  split; [reflexivity |]. unfold row_consistent.
  cbn [row_mapping trials payload_len tb_len clk_ns seed total_bits errors BER_hw].
  repeat (split; [first [reflexivity | lia] |]).
  destruct (Z.eqb_spec t 0) as [Hz | Hnz].
  - assert (e = 0) as -> by lia. rewrite Hz. repeat split; discriminate.
  - apply ratio_bounds; lia.
Qed.

Lemma sweep_rows cfg mp ps :
  forall (w w' : world D G) rows,
    sweep cfg mp ps w = Returns (rows, w') ->
    map p_flip rows = ps /\ Forall (row_consistent cfg mp) rows.
Proof.
  induction ps as [| p ps IH]; intros w w' rows E.
  - injection E as <- _. split; constructor.
  - cbn [sweep] in E. unfold bind in E.
    destruct (sweep_point cfg mp p w) as [[r w1] | x] eqn:E1; [| discriminate].
    destruct (sweep cfg mp ps w1) as [[rs w2] | x] eqn:E2; [| discriminate].
    injection E as <- _.
    apply sweep_point_row in E1. destruct E1 as [Hp Hr].
    apply IH in E2. destruct E2 as [Hps Hrs].
    split; [cbn [map]; congruence | constructor; assumption].
Qed.

(** X16: a sweep that returns gives one row for each flip probability, in
    the order of [P_FLIPS]; all rows carry one mapping and the knobs of the
    configuration; [total_bits] is [TRIALS * PAYLOAD_LEN], the errors are
    between 0 and [total_bits], and [BER_hw] is their ratio, between 0
    and 1. *)
Theorem sweep_rows_consistent (cfg : config) (d : D) (p0 : pins)
    (rows : list row) :
  test_ber_sweep cfg d p0 = Returns rows ->
  map p_flip rows = P_FLIPS cfg /\
  exists mp, Forall (row_consistent cfg mp) rows.
Proof.
  unfold test_ber_sweep, result_of, bind.
  destruct (calibrate_mapping _ _ _) as [[mp w1] | x]; [| discriminate].
  destruct (sweep cfg mp (P_FLIPS cfg) w1) as [[rs w2] | x] eqn:E2;
    [| discriminate].
  intros E. injection E as <-. apply sweep_rows in E2.
  destruct E2 as [Hps Hrs]. split; [exact Hps | exists mp; exact Hrs].
Qed.

End SweepRows.

Section HarnessSamples.

Import Samples SilentSample.

Lemma calibration_draws_witness :
  w_rng (snd (returned (calibrate_mapping 1 0 (World toy_reset idle_pins 42))
                (y0_is_v1, World toy_reset idle_pins 0))) =
  Nat.iter 64 after_randint 42.
Proof.
  apply (calibration_draws 1 0 (World toy_reset idle_pins 42) _
           (fst (returned (calibrate_mapping 1 0 (World toy_reset idle_pins 42))
                   (y0_is_v1, World toy_reset idle_pins 0)))).
  vm_compute. reflexivity.
Defined.

Lemma trial_draws_witness :
  fst (fst (returned (trial_run small_config y0_is_v1 (1 # 10)
                        (World toy_reset idle_pins 42))
              (([], []), World toy_reset idle_pins 0))) =
    fst (draw_bits 8 42) /\
  w_rng (snd (returned (trial_run small_config y0_is_v1 (1 # 10)
                          (World toy_reset idle_pins 42))
                (([], []), World toy_reset idle_pins 0))) =
    Nat.iter 18 after_random (Nat.iter 8 after_randint 42).
Proof.
  apply (trial_draws small_config y0_is_v1 (1 # 10)
           (World toy_reset idle_pins 42) _ _
           (snd (fst (returned (trial_run small_config y0_is_v1 (1 # 10)
                                  (World toy_reset idle_pins 42))
                        (([], []), World toy_reset idle_pins 0))))).
  vm_compute. reflexivity.
Defined.

Lemma silent_encoder_times_out_witness :
  test_ber_sweep (D := unit) (G := Z) small_config tt idle_pins =
  Raises Timeout_waiting_for_enc_out_valid.
Proof.
  apply (silent_encoder_times_out unit Z). intros d. reflexivity.
Defined.

Lemma sweep_rows_consistent_witness :
  map p_flip
    (match test_ber_sweep (D := toy) (G := Z) small_config toy_reset idle_pins with
     | Returns rows => rows
     | Raises _ => []
     end) = [0 # 1; 1 # 10]%Q /\
  exists mp,
    Forall (row_consistent small_config mp)
      (match test_ber_sweep (D := toy) (G := Z) small_config toy_reset idle_pins with
       | Returns rows => rows
       | Raises _ => []
       end).
Proof.
  apply (sweep_rows_consistent small_config toy_reset idle_pins).
  vm_compute. reflexivity.
Defined.

End HarnessSamples.

(** ** [simulate_ber] over a link with at most one error *)

Section SoftwareBer.

Import Encoder Trellis Viterbi.

Context {N : Type} `{NumpyLink N}.

(** A generator that returns as many bits as asked for, and a link that
    returns as many hard decisions as it was given bits, with at most one of
    them wrong. *)
Definition single_error_link : Prop :=
  (forall n g,
      length (fst (integers01 n g)) = n /\
      Forall is_bit (fst (integers01 n g))) /\
  (forall eb sps tx g,
      Forall is_bit tx ->
      length (fst (hard_link eb sps tx g)) = length tx /\
      Forall is_bit (fst (hard_link eb sps tx g)) /\
      hamming tx (fst (hard_link eb sps tx g)) <= 1).

Lemma count_diff_refl (xs : list Z) : count_diff xs xs = 0.
Proof.
  induction xs as [| x xs IH]; [reflexivity |].
  cbn [count_diff]. rewrite Z.eqb_refl, IH. reflexivity.
Qed.

Lemma mean_ne_refl (xs : list Z) : (mean_ne xs xs == 0)%Q.
Proof.
  unfold mean_ne. rewrite count_diff_refl. unfold Qdiv. apply Qmult_0_l.
Qed.

Lemma dec_payload_recovers (payload hard : list Z) :
  Forall is_bit payload -> Forall is_bit hard ->
  length hard = length (conv_encode_7_5 (add_tail_K payload K)) ->
  hamming (conv_encode_7_5 (add_tail_K payload K)) hard <= 1 ->
  dec_payload payload hard = payload.
Proof.
  intros Hp Hh Hlen Hd.
  change (add_tail_K payload K) with (add_tail payload) in *.
  pose proof (add_tail_bits payload Hp) as Hw0.
  rewrite (conv_encode_enc_path _ Hw0) in *.
  rewrite length_enc_path in Hlen.
  unfold dec_payload, slice_to.
  change (firstn (length payload) (viterbi_decode_hard_7_5 hard))
    with (take (length payload) (viterbi_decode_hard_7_5 hard)).
  rewrite (decode_prefix hard (add_tail payload) (length payload));
    try assumption.
  - rewrite add_tail_eq. apply take_app_length.
  - rewrite add_tail_eq, length_app. cbn [length]. lia.
Qed.

Lemma simulate_ber_point_single (nbits : nat) (eb : Q) (sps : Z) (g : N) :
  single_error_link ->
  EbN0_dB (fst (simulate_ber_point nbits eb sps g)) = eb /\
  (BER_coded (fst (simulate_ber_point nbits eb sps g)) == 0)%Q.
Proof.
  intros [Hgen Hlink]. unfold simulate_ber_point.
  destruct (Hgen nbits g) as [_ Hp].
  destruct (integers01 nbits g) as [payload g1]. cbn [fst] in Hp.
  assert (Hc : Forall is_bit (conv_encode_7_5 (add_tail_K payload K))).
  { change (add_tail_K payload K) with (add_tail payload).
    pose proof (add_tail_bits payload Hp) as Hw0.
    rewrite (conv_encode_enc_path _ Hw0). apply enc_path_bits; [exact Hw0 |].
    unfold is_state. change NUM_STATES with 4. lia. }
  destruct (Hlink eb sps _ g1 Hc) as (Hlen & Hbits & Hd).
  destruct (hard_link eb sps _ g1) as [hard g2]. cbn [fst] in Hlen, Hbits, Hd.
  destruct (integers01 nbits g2) as [u_bits g3].
  destruct (hard_link eb sps u_bits g3) as [u_hard g4].
  cbn [fst EbN0_dB BER_coded]. split; [reflexivity |].
  rewrite (dec_payload_recovers payload hard Hp Hbits Hlen Hd).
  apply mean_ne_refl.
Qed.

(** X17: when the generator gives [nbits] bits and the link gets at most
    one of the decisions of a point wrong, [simulate_ber] returns one row
    for each Eb/N0 value, in order, and every row has a coded bit error
    rate of 0: the tail and the decoder repair the error before the payload
    is compared.  ([nbits] is positive: numpy's mean of an empty comparison
    is not a number.) *)
Theorem simulate_ber_single_error (nbits : nat) (ebn0_list : list Q)
    (sps : Z) (g : N) :
  single_error_link -> (0 < nbits)%nat ->
  map EbN0_dB (fst (simulate_ber nbits ebn0_list sps g)) = ebn0_list /\
  Forall (fun r => (BER_coded r == 0)%Q)
    (fst (simulate_ber nbits ebn0_list sps g)).
Proof.
  intros Hlink _. revert g.
  induction ebn0_list as [| eb rest IH]; intros g; [split; constructor |].
  cbn [simulate_ber].
  destruct (simulate_ber_point_single nbits eb sps g Hlink) as [He Hb].
  destruct (simulate_ber_point nbits eb sps g) as [r g1]. cbn [fst] in He, Hb.
  destruct (IH g1) as [Hm Hf].
  destruct (simulate_ber nbits rest sps g1) as [rows g']. cbn [fst] in *.
  split; [cbn [map]; congruence | constructor; assumption].
Qed.

End SoftwareBer.

Section DrawnBits.

Context {G : Type} `{PyRandom G}.

Lemma draw_bits_bits (n : nat) :
  well_ranged G -> forall g : G, Forall is_bit (fst (draw_bits n g)).
Proof.
  intros Hr. induction n as [| n IH]; intros g; [constructor |].
  cbn [draw_bits]. destruct (Hr g) as (_ & _ & Hb). specialize (IH (snd (randint01 g))).
  destruct (randint01 g) as [b g1]. cbn [fst snd] in *.
  destruct (draw_bits n g1) as [bs g']. cbn [fst] in *.
  constructor; assumption.
Qed.

End DrawnBits.

Section LinkSamples.

Import Samples LinkSample.

Lemma first_bit_link_single_error : single_error_link (N := Z).
Proof.
  split.
  - intros n g. cbn [integers01 first_bit_link]. split.
    + apply (draw_bits_spec (G := Z) n g).
    + apply draw_bits_bits. exact lcg_well_ranged.
  - intros eb sps [| b tx] g Hb; cbn [hard_link first_bit_link fst].
    + repeat split; [constructor | vm_compute; discriminate].
    + inversion Hb as [| ? ? Hb0 Hbs]; subst.
      repeat split.
      * constructor; [| exact Hbs].
        destruct Hb0 as [-> | ->]; [right | left]; reflexivity.
      * cbn [hamming]. rewrite hamming_refl.
        destruct Hb0 as [-> | ->]; vm_compute; discriminate.
Qed.

Lemma simulate_ber_single_error_witness :
  map EbN0_dB (fst (simulate_ber 5 [0 # 1; 3 # 1]%Q 8 42)) = [0 # 1; 3 # 1]%Q /\
  Forall (fun r => (BER_coded r == 0)%Q)
    (fst (simulate_ber 5 [0 # 1; 3 # 1]%Q 8 42)).
Proof.
  apply (simulate_ber_single_error 5 [0 # 1; 3 # 1]%Q 8 42).
  - exact first_bit_link_single_error.
  - lia.
Defined.

End LinkSamples.

(** ** Pulse shaping: upsampling, sampling instants and eye traces *)

Section PulseShaping.

Context {A : Type} `{Inhabited A}.

Lemma length_upsample_rect (symbols : list A) (sps : nat) :
  length (upsample_rect symbols sps) = (length symbols * sps)%nat.
Proof.
  unfold upsample_rect.
  induction symbols as [| x symbols IH]; [reflexivity |].
  cbn [flat_map length]. rewrite length_app, length_replicate, IH. lia.
Qed.

Lemma lookup_upsample_rect (symbols : list A) (sps : nat) :
  (0 < sps)%nat ->
  forall i, (i < length symbols * sps)%nat ->
    upsample_rect symbols sps !! i = symbols !! (i / sps)%nat.
Proof.
  intros Hsps. unfold upsample_rect.
  induction symbols as [| x symbols IH]; intros i Hi; [cbn in Hi; lia |].
  cbn [flat_map]. destruct (Nat.lt_ge_cases i sps) as [Hlt | Hge].
  - rewrite lookup_app_l by (rewrite length_replicate; exact Hlt).
    rewrite Nat.div_small by exact Hlt. apply lookup_replicate_2. exact Hlt.
  - rewrite lookup_app_r by (rewrite length_replicate; exact Hge).
    rewrite length_replicate.
    replace i with (1 * sps + (i - sps))%nat at 2 by lia.
    rewrite Nat.div_add_l by lia. cbn [Nat.add lookup list_lookup].
    apply IH. cbn [length] in Hi. lia.
Qed.

Lemma arange_count (n sps : nat) :
  (0 < sps)%nat -> ((n * sps - sps / 2 + (sps - 1)) / sps)%nat = n.
Proof.
  intros Hsps.
  assert (Hh : (sps / 2 <= sps - 1)%nat).
  { pose proof (Nat.Div0.mul_div_le sps 2). lia. }
  destruct n as [| n].
  - cbn [Nat.mul Nat.sub]. apply Nat.div_small. lia.
  - symmetry. apply (Nat.div_unique _ _ _ (sps - 1 - sps / 2)); [lia |].
    cbn [Nat.mul]. nia.
Qed.

Lemma centers_upsample_rect (symbols : list A) (sps : nat) :
  (0 < sps)%nat ->
  centers (length (upsample_rect symbols sps)) sps =
  map (fun k => sps / 2 + k * sps)%nat (seq 0 (length symbols)).
Proof.
  intros Hsps. unfold centers, arange.
  rewrite length_upsample_rect, arange_count by exact Hsps. reflexivity.
Qed.

(** X18: for a positive [sps] and at least one symbol (numpy's convolution
    raises on an empty signal), [upsample_rect] holds every symbol [sps]
    times in a row (sample [i] is symbol [i // sps]); the sampling instants
    that [matched_filter_rect] computes for a signal of that length are one
    for each symbol, [sps // 2] samples into it; and the upsampled signal
    read at these instants is the symbols again. *)
Theorem upsample_then_sample (symbols : list A) (sps : nat) :
  (0 < sps)%nat -> symbols <> [] ->
  length (upsample_rect symbols sps) = (length symbols * sps)%nat /\
  (forall i, (i < length symbols * sps)%nat ->
     upsample_rect symbols sps !! i = symbols !! (i / sps)%nat) /\
  length (centers (length (upsample_rect symbols sps)) sps) = length symbols /\
  take_at (upsample_rect symbols sps)
    (centers (length (upsample_rect symbols sps)) sps) = symbols.
Proof.
  intros Hsps _. split; [apply length_upsample_rect |].
  split; [apply lookup_upsample_rect; exact Hsps |].
  rewrite centers_upsample_rect by exact Hsps.
  split; [rewrite length_map, length_seq; reflexivity |].
  unfold take_at. apply list_eq. intros i.
  rewrite !list_lookup_fmap.
  destruct (symbols !! i) as [x |] eqn:Hx.
  - pose proof (lookup_lt_Some _ _ _ Hx) as Hi.
    rewrite lookup_seq_lt by exact Hi. cbn [fmap option_fmap option_map Nat.add].
    f_equal. apply list_lookup_total_correct.
    rewrite lookup_upsample_rect; [| exact Hsps |].
    + rewrite Nat.div_add by lia.
      rewrite (Nat.div_small (sps / 2) sps); [exact Hx |].
      pose proof (Nat.Div0.mul_div_le sps 2). lia.
    + pose proof (Nat.Div0.mul_div_le sps 2). nia.
  - apply lookup_ge_None in Hx.
    rewrite lookup_seq_ge by exact Hx. reflexivity.
Qed.

(** *** Eye traces *)

Lemma eye_traces_from_lookup (mf : list A) (sps : nat) (fuel : nat) :
  forall k j,
    eye_traces_from mf sps k fuel !! j =
    if (j <? fuel)%nat && ((k + j) * sps + 2 * sps <=? length mf)%nat
    then Some (take (2 * sps) (drop ((k + j) * sps) mf))
    else None.
Proof.
  induction fuel as [| fuel IH]; intros k j; [reflexivity |].
  cbn [eye_traces_from].
  destruct (Nat.leb_spec (k * sps + 2 * sps) (length mf)) as [Hfit | Hnot].
  - destruct j as [| j].
    + rewrite Nat.add_0_r. cbn [lookup list_lookup Nat.ltb Nat.leb andb].
      rewrite (proj2 (Nat.leb_le _ _) Hfit). reflexivity.
    + cbn [lookup list_lookup]. rewrite IH.
      replace (S k + j)%nat with (k + S j)%nat by lia.
      reflexivity.
  - rewrite lookup_nil.
    rewrite (proj2 (Nat.leb_gt ((k + j) * sps + 2 * sps) (length mf)))
      by nia.
    rewrite andb_false_r. reflexivity.
Qed.

(** X19: [eye_traces(mf, sps, ntr)] has trace [k] exactly when [k < ntr]
    and the window of [2*sps] samples from [k*sps] fits in [mf], and the
    trace is that window (the break at the first window that does not fit
    loses none that would); every trace is [2*sps] samples long, and each
    trace after the first starts with the second half of the one before. *)
Theorem eye_traces_windows (mf : list A) (sps ntr : nat) :
  (forall k,
     eye_traces mf sps ntr !! k =
     if (k <? ntr)%nat && (k * sps + 2 * sps <=? length mf)%nat
     then Some (take (2 * sps) (drop (k * sps) mf))
     else None) /\
  Forall (fun tr => length tr = (2 * sps)%nat) (eye_traces mf sps ntr) /\
  (forall k r1 r2,
     eye_traces mf sps ntr !! k = Some r1 ->
     eye_traces mf sps ntr !! S k = Some r2 ->
     drop sps r1 = take sps r2).
Proof.
  assert (Hlook : forall k,
     eye_traces mf sps ntr !! k =
     if (k <? ntr)%nat && (k * sps + 2 * sps <=? length mf)%nat
     then Some (take (2 * sps) (drop (k * sps) mf))
     else None).
  { intros k. unfold eye_traces. rewrite eye_traces_from_lookup.
    reflexivity. }
  split; [exact Hlook |]. split.
  - apply Forall_lookup_2. intros k tr Hk. rewrite Hlook in Hk.
    destruct (k <? ntr)%nat; [| discriminate]. cbn [andb] in Hk.
    destruct (Nat.leb_spec (k * sps + 2 * sps) (length mf)) as [Hfit | Hnot];
      [| discriminate].
    injection Hk as <-. rewrite length_take, length_drop. lia.
  - intros k r1 r2 H1 H2. rewrite Hlook in H1, H2.
    destruct (k <? ntr)%nat; [| discriminate].
    destruct (S k <? ntr)%nat; [| discriminate]. cbn [andb] in H1, H2.
    destruct (k * sps + 2 * sps <=? length mf)%nat; [| discriminate].
    destruct (S k * sps + 2 * sps <=? length mf)%nat; [| discriminate].
    assert (E1 : r1 = take (2 * sps) (drop (k * sps) mf)) by congruence.
    assert (E2 : r2 = take (2 * sps) (drop (S k * sps) mf)) by congruence.
    rewrite E1, E2. clear.
    replace (2 * sps)%nat with (sps + sps)%nat by lia.
    rewrite <- take_drop_commute, drop_drop, take_take.
    rewrite Nat.min_l by lia. f_equal. f_equal. lia.
Qed.

End PulseShaping.

Lemma upsample_then_sample_witness :
  length (upsample_rect [1; -1; 1]%Z 8) = (length [1; -1; 1]%Z * 8)%nat /\
  (forall i, (i < length [1; -1; 1]%Z * 8)%nat ->
     upsample_rect [1; -1; 1]%Z 8 !! i = [1; -1; 1]%Z !! (i / 8)%nat) /\
  length (centers (length (upsample_rect [1; -1; 1]%Z 8)) 8) =
    length [1; -1; 1]%Z /\
  take_at (upsample_rect [1; -1; 1]%Z 8)
    (centers (length (upsample_rect [1; -1; 1]%Z 8)) 8) = [1; -1; 1]%Z.
Proof.
  apply (upsample_then_sample [1; -1; 1]%Z 8); [lia | discriminate].
Defined.

(** ** The trellis tables against the encoder *)

Section TrellisTables.

Import Encoder Trellis Viterbi.

Lemma shift_in_next_state (st s u : Z) :
  is_state s -> is_bit u -> Z.land st 3 = s ->
  Z.land (shift_in st u) 3 = next_state s u.
Proof.
  assert (B0 : is_bit 0) by (left; reflexivity).
  assert (B1 : is_bit 1) by (right; reflexivity).
  intros Hs Hu Hst. by_states s Hs; destruct Hu as [-> | ->].
  - rewrite (shift_in_bits st 0 0 0 B0 B0 B0 Hst). reflexivity.
  - rewrite (shift_in_bits st 0 0 1 B0 B0 B1 Hst). reflexivity.
  - rewrite (shift_in_bits st 0 1 0 B0 B1 B0 Hst). reflexivity.
  - rewrite (shift_in_bits st 0 1 1 B0 B1 B1 Hst). reflexivity.
  - rewrite (shift_in_bits st 1 0 0 B1 B0 B0 Hst). reflexivity.
  - rewrite (shift_in_bits st 1 0 1 B1 B0 B1 Hst). reflexivity.
  - rewrite (shift_in_bits st 1 1 0 B1 B1 B0 Hst). reflexivity.
  - rewrite (shift_in_bits st 1 1 1 B1 B1 B1 Hst). reflexivity.
Qed.

Lemma run_register (w : list Z) :
  Forall is_bit w ->
  forall st s, is_state s -> Z.land st 3 = s ->
    run s w = Z.land (register_after st w) 3.
Proof.
  induction 1 as [| u w Hu _ IH]; intros st s Hs Hst;
    [symmetry; exact Hst |].
  change (run s (u :: w)) with (run (next_state s u) w).
  change (register_after st (u :: w)) with (register_after (shift_in st u) w).
  apply IH; [apply next_state_is_state; assumption |].
  apply shift_in_next_state; assumption.
Qed.

Lemma tail_reaches_zero (s : Z) : is_state s -> run s [0; 0] = 0.
Proof. intros Hs. by_states s Hs; reflexivity. Qed.

(** X20: the tables of [_precompute] are the encoder: for input bits [w],
    the outputs read off [OUT_BITS] along the states of [NEXT_STATE], from
    state 0, are [conv_encode_7_5 w]; the state reached is the two low bits
    of the encoder's register, one of the [NUM_STATES] states; and two zero
    inputs lead from it to state 0. *)
Theorem trellis_matches_encoder (w : list Z) :
  Forall is_bit w ->
  enc_path 0 w = conv_encode_7_5 w /\
  run 0 w = Z.land (register_after 0 w) 3 /\
  is_state (run 0 w) /\
  run (run 0 w) [0; 0] = 0.
Proof.
  intros Hw.
  assert (H0 : is_state 0) by (unfold is_state; change NUM_STATES with 4; lia).
  pose proof (run_is_state w Hw 0 H0) as Hr.
  split; [symmetry; apply conv_encode_enc_path; exact Hw |].
  split; [apply run_register; [exact Hw | exact H0 | reflexivity] |].
  split; [exact Hr | apply tail_reaches_zero; exact Hr].
Qed.

Lemma trellis_matches_encoder_witness :
  enc_path 0 [1; 0; 1; 1] = conv_encode_7_5 [1; 0; 1; 1] /\
  run 0 [1; 0; 1; 1] = Z.land (register_after 0 [1; 0; 1; 1]) 3 /\
  is_state (run 0 [1; 0; 1; 1]) /\
  run (run 0 [1; 0; 1; 1]) [0; 0] = 0.
Proof.
  apply (trellis_matches_encoder [1; 0; 1; 1]).
  repeat constructor; (left; reflexivity) || (right; reflexivity).
Defined.

End TrellisTables.

(** ** The harness: what can fail, and how many bits are decided *)

Section HarnessOutcomes.

Context {D G : Type} `{Dut D} `{PyRandom G}.

Local Open Scope harness_scope.

(** A computation whose only error is the encoder timeout. *)
Definition only_times_out {A : Type} (c : M (world D G) A) : Prop :=
  forall w e, c w = Raises e -> e = Timeout_waiting_for_enc_out_valid.

Lemma oto_ret {A : Type} (a : A) : only_times_out (ret a).
Proof. intros w e E. discriminate. Qed.

Lemma oto_timeout {A : Type} :
  only_times_out (A := A) (raise Timeout_waiting_for_enc_out_valid).
Proof. intros w e E. injection E as <-. reflexivity. Qed.

Lemma oto_bind {A B : Type} (c : M _ A) (k : A -> M _ B) :
  only_times_out c -> (forall a, only_times_out (k a)) ->
  only_times_out (bind c k).
Proof.
  intros Hc Hk w e. unfold bind.
  destruct (c w) as [[a w1] | e1] eqn:E1.
  - apply Hk.
  - intros E. injection E as <-. apply (Hc _ _ E1).
Qed.

Lemma oto_drive f : only_times_out (drive f).
Proof. intros w e E. discriminate. Qed.

Lemma oto_RisingEdge : only_times_out RisingEdge.
Proof. intros w e E. discriminate. Qed.

Lemma oto_read signal : only_times_out (read signal).
Proof. intros w e E. discriminate. Qed.

Lemma oto_with_rng {A : Type} (f : G -> A * G) : only_times_out (with_rng f).
Proof.
  intros w e. unfold with_rng. destruct (f (w_rng w)). discriminate.
Qed.

Lemma oto_repeatM n c : only_times_out c -> only_times_out (repeatM n c).
Proof.
  intros Hc. induction n as [| n IH]; cbn [repeatM].
  - apply oto_ret.
  - apply oto_bind; [exact Hc | intros _; exact IH].
Qed.

Ltac oto_step :=
  lazymatch goal with
  | |- only_times_out (bind _ _) => apply oto_bind; [| intros ? ]
  | |- only_times_out (ret _) => apply oto_ret
  | |- only_times_out (raise Timeout_waiting_for_enc_out_valid) =>
      apply oto_timeout
  | |- only_times_out (drive _) => apply oto_drive
  | |- only_times_out RisingEdge => apply oto_RisingEdge
  | |- only_times_out (read _) => apply oto_read
  | |- only_times_out (with_rng _) => apply oto_with_rng
  | |- only_times_out (repeatM _ _) => apply oto_repeatM
  end.

Lemma oto_reset_chain : only_times_out reset_chain.
Proof. unfold reset_chain. repeat oto_step. Qed.

Lemma oto_wait n : only_times_out (wait_enc_out_valid n).
Proof.
  induction n as [| n IH]; cbn [wait_enc_out_valid]; [apply oto_timeout |].
  apply oto_bind; [apply oto_read | intros v].
  destruct (v =? 0); [| repeat oto_step].
  apply oto_bind; [apply oto_RisingEdge | intros _; exact IH].
Qed.

Lemma oto_enc_push u lat tmo :
  only_times_out (enc_push_bit_and_get_symbol u lat tmo).
Proof.
  unfold enc_push_bit_and_get_symbol.
  do 5 (apply oto_bind; [repeat oto_step | intros _]).
  apply oto_wait.
Qed.

Lemma oto_encode_stream mp lat in_stream :
  only_times_out (encode_stream mp lat in_stream).
Proof.
  induction in_stream as [| u rest IH]; cbn [encode_stream]; [apply oto_ret |].
  apply oto_bind; [apply oto_enc_push | intros y].
  apply oto_bind; [exact IH | intros coded; apply oto_ret].
Qed.

(** *** The decode and drain loops *)

(** A computation that returns from every state, with a result in [P]. *)
Definition always_returns {A : Type} (c : M (world D G) A) (P : A -> Prop)
  : Prop :=
  forall w, exists a w', c w = Returns (a, w') /\ P a.

Lemma ar_ret {A : Type} (a : A) (P : A -> Prop) :
  P a -> always_returns (ret a) P.
Proof. intros Ha w. exists a, w. split; [reflexivity | exact Ha]. Qed.

Lemma ar_bind {A B : Type} (c : M _ A) (k : A -> M _ B)
    (P : A -> Prop) (Q : B -> Prop) :
  always_returns c P -> (forall a, P a -> always_returns (k a) Q) ->
  always_returns (bind c k) Q.
Proof.
  intros Hc Hk w. destruct (Hc w) as (a & w1 & E1 & Ha).
  destruct (Hk a Ha w1) as (b & w2 & E2 & Hb).
  exists b, w2. unfold bind. rewrite E1. split; [exact E2 | exact Hb].
Qed.

Lemma ar_weaken {A : Type} (c : M _ A) (P Q : A -> Prop) :
  always_returns c P -> (forall a, P a -> Q a) -> always_returns c Q.
Proof.
  intros Hc HPQ w. destruct (Hc w) as (a & w1 & E1 & Ha).
  exists a, w1. split; [exact E1 | apply HPQ; exact Ha].
Qed.

Lemma ar_drive f : always_returns (drive f) (fun _ => True).
Proof. intros w. eexists _, _. split; [reflexivity | exact I]. Qed.

Lemma ar_RisingEdge : always_returns RisingEdge (fun _ => True).
Proof. intros w. eexists _, _. split; [reflexivity | exact I]. Qed.

Lemma ar_collect (decided : list Z) :
  always_returns (collect decided)
    (fun decided' =>
       (length decided <= length decided' <= length decided + 1)%nat).
Proof.
  intros w. unfold collect, bind, read.
  destruct (dec_bit_valid (w_dut w) =? 0).
  - exists decided, w. split; [reflexivity | lia].
  - exists (decided ++ [dec_bit_out (w_dut w)]), w. split; [reflexivity |].
    rewrite length_app. cbn [length]. lia.
Qed.

Lemma ar_feed_decoder (noisy : list (Z * Z)) :
  forall decided : list Z,
    always_returns (feed_decoder noisy decided)
      (fun decided' =>
         (length decided <= length decided'
          <= length decided + length noisy)%nat).
Proof.
  induction noisy as [| [v1 v0] rest IH]; intros decided; cbn [feed_decoder].
  - apply ar_ret. cbn [length]. lia.
  - apply (ar_bind _ _ (fun _ => True)); [apply ar_drive | intros _ _].
    apply (ar_bind _ _ (fun _ => True)); [apply ar_drive | intros _ _].
    apply (ar_bind _ _ (fun _ => True)); [apply ar_RisingEdge | intros _ _].
    apply (ar_bind _ _ (fun _ => True)); [apply ar_drive | intros _ _].
    apply (ar_bind _ _ _ _ (ar_collect decided)). intros d1 Hd1.
    apply (ar_weaken _ _ _ (IH d1)). intros d2 Hd2. cbn [length]. lia.
Qed.

Lemma ar_drain (n : nat) :
  forall decided : list Z,
    always_returns (drain n decided)
      (fun decided' =>
         (length decided <= length decided' <= length decided + n)%nat).
Proof.
  induction n as [| n IH]; intros decided; cbn [drain].
  - apply ar_ret. lia.
  - apply (ar_bind _ _ (fun _ => True)); [apply ar_RisingEdge | intros _ _].
    apply (ar_bind _ _ _ _ (ar_collect decided)). intros d1 Hd1.
    apply (ar_weaken _ _ _ (IH d1)). intros d2 Hd2. lia.
Qed.

Lemma ar_decode_stream (tb : Z) (noisy : list (Z * Z)) :
  always_returns (decode_stream tb noisy)
    (fun decided =>
       (length decided <= length noisy + Z.to_nat (2 * tb))%nat).
Proof.
  unfold decode_stream.
  apply (ar_bind _ _ _ _ (ar_feed_decoder noisy [])). intros d1 Hd1.
  apply (ar_weaken _ _ _ (ar_drain (Z.to_nat (2 * tb)) d1)).
  intros d2 Hd2. cbn [length] in Hd1. lia.
Qed.

Lemma oto_always_returns {A : Type} (c : M _ A) (P : A -> Prop) :
  always_returns c P -> only_times_out c.
Proof.
  intros Hc w e E. destruct (Hc w) as (a & w1 & E1 & _). congruence.
Qed.

Lemma oto_one_pass_errors mp payload tb lat :
  only_times_out (_one_pass_errors mp payload tb lat).
Proof.
  unfold _one_pass_errors, one_pass_run.
  apply oto_bind; [| intros decided; apply oto_ret].
  apply oto_bind; [apply oto_reset_chain | intros _].
  apply oto_bind; [apply oto_encode_stream | intros coded].
  apply (oto_always_returns _ _ (ar_decode_stream tb coded)).
Qed.

(** X21: the decode and drain loops never fail, whatever the device does,
    and collect at most one decided bit per clock edge: no more than
    [len(noisy) + 2 * TB_LEN] bits. *)
Theorem decode_stream_collects (tb : Z) (noisy : list (Z * Z))
    (w : world D G) :
  exists decided w',
    decode_stream tb noisy w = Returns (decided, w') /\
    (length decided <= length noisy + Z.to_nat (2 * tb))%nat.
Proof. apply ar_decode_stream. Qed.

(** X22: the calibration never raises the error for too few decided bits:
    a short pass is counted, not rejected, so the only error
    [calibrate_mapping] can end with is the encoder timeout. *)
Theorem calibration_only_times_out (tb lat : Z) (w : world D G) (e : exn) :
  calibrate_mapping tb lat w = Raises e ->
  e = Timeout_waiting_for_enc_out_valid.
Proof.
  revert w e. change (only_times_out (calibrate_mapping tb lat)).
  unfold calibrate_mapping.
  apply oto_bind; [apply oto_with_rng | intros payload].
  apply oto_bind; [apply oto_one_pass_errors | intros a].
  apply oto_bind; [apply oto_one_pass_errors | intros b].
  destruct (fst a <=? fst b); apply oto_ret.
Qed.

End HarnessOutcomes.

Section OutcomeSamples.

Import Samples SilentSample.

Lemma calibration_only_times_out_witness :
  calibrate_mapping (D := unit) (G := Z) 1 0 (World tt idle_pins 42) =
    Raises Timeout_waiting_for_enc_out_valid /\
  Timeout_waiting_for_enc_out_valid = Timeout_waiting_for_enc_out_valid.
Proof.
  split; [vm_compute; reflexivity |].
  apply (calibration_only_times_out (D := unit) (G := Z) 1 0
           (World tt idle_pins 42)).
  vm_compute. reflexivity.
Defined.

End OutcomeSamples.

(** * The sweeps under a fixed seed *)

(** ** The sweep of the harness against the schedule of its draws *)

Section ScheduledSweep.

Context {D G : Type} `{Dut D} `{PyRandom G}.

Local Open Scope harness_scope.

(** The schedule.  A trial that starts with the generator in state [g]
    takes its payload from the first [PAYLOAD_LEN] calls of
    [randint(0, 1)] and its flips from the [2 * (PAYLOAD_LEN + TB_LEN)]
    calls of [random()] that follow; [trial_advance] is the state after
    them.  The sweep is written a second time below with every draw read
    off the generator at its scheduled state, as a value: the device is
    driven in a world that holds no generator (its third component is
    [tt]), so no draw can depend on what the device answers. *)
Definition trial_advance (cfg : config) (g : G) : G :=
  Nat.iter (2 * (Z.to_nat (PAYLOAD_LEN cfg) + Z.to_nat (TB_LEN cfg)))
    after_random
    (Nat.iter (Z.to_nat (PAYLOAD_LEN cfg)) after_randint g).

Definition scheduled_trial_run (cfg : config) (mp : mapping) (p : Q) (g : G)
  : M (world D unit) (list Z * list Z) :=
  let payload := fst (draw_bits (Z.to_nat (PAYLOAD_LEN cfg)) g) in
  reset_chain ;;
  coded <- encode_stream mp (ENC_LATENCY cfg)
             (payload ++ repeat 0 (Z.to_nat (TB_LEN cfg))) ;;
  decided <- decode_stream (TB_LEN cfg)
               (fst (flip_channel coded p
                       (Nat.iter (Z.to_nat (PAYLOAD_LEN cfg)) after_randint g))) ;;
  ret (payload, decided).

Definition scheduled_trial (cfg : config) (mp : mapping) (p : Q) (g : G)
  : M (world D unit) Z :=
  pd <- scheduled_trial_run cfg mp p g ;;
  lift_outcome (trial_compare (PAYLOAD_LEN cfg) (snd pd) (fst pd)).

(** The errors of [n] trials in a row, the first one scheduled at [g]. *)
Fixpoint scheduled_trials (n : nat) (cfg : config) (mp : mapping) (p : Q)
    (g : G) : M (world D unit) Z :=
  match n with
  | O => ret 0
  | S k =>
      errs <- scheduled_trial cfg mp p g ;;
      rest <- scheduled_trials k cfg mp p (trial_advance cfg g) ;;
      ret (errs + rest)
  end.

(** The row of a sweep point with [errs] bit errors in all. *)
Definition scheduled_row (cfg : config) (mp : mapping) (p : Q) (errs : Z)
  : row :=
  let total := Z.of_nat (Z.to_nat (TRIALS cfg)) * PAYLOAD_LEN cfg in
  {| p_flip := p;
     BER_hw := if total =? 0 then 0%Q
               else (inject_Z errs / inject_Z total)%Q;
     errors := errs; total_bits := total; trials := TRIALS cfg;
     payload_len := PAYLOAD_LEN cfg; tb_len := TB_LEN cfg;
     clk_ns := CLK_NS; seed := rng_seed cfg; row_mapping := mp |}.

Definition scheduled_point (cfg : config) (mp : mapping) (p : Q) (g : G)
  : M (world D unit) row :=
  errs <- scheduled_trials (Z.to_nat (TRIALS cfg)) cfg mp p g ;;
  ret (scheduled_row cfg mp p errs).

(** The generator after the trials of one sweep point. *)
Definition point_advance (cfg : config) (g : G) : G :=
  Nat.iter (Z.to_nat (TRIALS cfg)) (trial_advance cfg) g.

Fixpoint scheduled_points (cfg : config) (mp : mapping) (ps : list Q) (g : G)
  : M (world D unit) (list row) :=
  match ps with
  | [] => ret []
  | p :: rest =>
      r <- scheduled_point cfg mp p g ;;
      rows <- scheduled_points cfg mp rest (point_advance cfg g) ;;
      ret (r :: rows)
  end.

(** The calibration, its payload being the first 64 calls of
    [randint(0, 1)] on [g]. *)
Definition scheduled_calibration (tb lat : Z) (g : G)
  : M (world D unit) mapping :=
  let payload := fst (draw_bits 64 g) in
  a <- _one_pass_errors y0_is_v1 payload tb lat ;;
  b <- _one_pass_errors y1_is_v1 payload tb lat ;;
  if fst a <=? fst b then ret y0_is_v1 else ret y1_is_v1.

(** The whole sweep on its schedule: the generator is created from the
    configured seed, the calibration is scheduled at that state and the
    first trial 64 calls of [randint(0, 1)] later. *)
Definition scheduled_sweep (cfg : config) (d : D) (p0 : pins)
  : outcome (list row) :=
  let g0 : G := seed_rng (rng_seed cfg) in
  result_of
    ((mp <- scheduled_calibration (TB_LEN cfg) (ENC_LATENCY cfg) g0 ;;
      scheduled_points cfg mp (P_FLIPS cfg) (Nat.iter 64 after_randint g0))
       (World d p0 tt)).

(** A run of the harness and a run on the schedule agree: both raise the
    same exception, or both return, with related results, the device and
    the signals in the same state, and the generator of the harness in
    state [g_end]. *)
Definition agrees {A B : Type} (rel : A -> B -> Prop) (g_end : G)
    (o : outcome (A * world D G)) (o' : outcome (B * world D unit)) : Prop :=
  match o, o' with
  | Returns (a, w), Returns (b, w') =>
      rel a b /\ w_dut w = w_dut w' /\ w_pins w = w_pins w' /\ w_rng w = g_end
  | Raises e, Raises e' => e = e'
  | _, _ => False
  end.

Lemma eq_device_simulation : device_simulation (@eq D).
Proof. intros d1 d2 <-. repeat split. Qed.

Lemma agrees_bind {A A' B B' : Type}
    (rel : A -> A' -> Prop) (rel' : B -> B' -> Prop) (g1 g2 : G)
    (c : M (world D G) A) (c' : M (world D unit) A')
    (k : A -> M (world D G) B) (k' : A' -> M (world D unit) B') w w0 :
  agrees rel g1 (c w) (c' w0) ->
  (forall a a' d p u, rel a a' ->
     agrees rel' g2 (k a (World d p g1)) (k' a' (World d p u))) ->
  agrees rel' g2 (bind c k w) (bind c' k' w0).
Proof.
  intros Hc Hk. unfold bind.
  destruct (c w) as [[a w1] | e], (c' w0) as [[a' w1'] | e'];
    cbn [agrees] in Hc; try contradiction.
  - destruct Hc as (Hr & Hd & Hp & Hg).
    destruct w1 as [d1 p1 g1'], w1' as [d1' p1' u].
    cbn [w_dut w_pins w_rng] in Hd, Hp, Hg. subst d1' p1' g1'.
    apply Hk, Hr.
  - exact Hc.
Qed.

Lemma agrees_post {A B B' : Type}
    (rel : A -> B -> Prop) (rel' : A -> B' -> Prop) (g : G)
    (o : outcome (A * world D G)) (c' : M (world D unit) B) (f : B -> B') w0 :
  agrees rel g o (c' w0) ->
  (forall a b, rel a b -> rel' a (f b)) ->
  agrees rel' g o (bind c' (fun b => ret (f b)) w0).
Proof.
  intros Hc Hf. unfold bind.
  destruct o as [[a w1] | e], (c' w0) as [[b w1'] | e'];
    cbn [agrees] in Hc; try contradiction.
  - destruct Hc as (Hr & Hrest). cbn [agrees ret]. split; [apply Hf, Hr |].
    exact Hrest.
  - exact Hc.
Qed.

Lemma agrees_ret {A : Type} (a : A) d p (g : G) u :
  agrees eq g (ret a (World d p g)) (ret a (World d p u)).
Proof. cbn. auto. Qed.

Lemma agrees_lift {A : Type} (o : outcome A) d p (g : G) u :
  agrees eq g (lift_outcome o (World d p g)) (lift_outcome o (World d p u)).
Proof. destruct o; cbn; auto. Qed.

(** Code that makes no draw runs the same in both worlds. *)
Lemma agrees_device {A : Type} (c : M (world D G) A)
    (c0 : M (world D unit) A) (P : A -> Prop) :
  same eq (fun (_ : G) (_ : unit) => True) c c0 -> keeps_rng c ->
  (forall w a w', c w = Returns (a, w') -> P a) ->
  forall d p g u,
    agrees (fun a b => a = b /\ P a) g (c (World d p g)) (c0 (World d p u)).
Proof.
  intros Hs Hk HP d p g u.
  specialize (Hs (World d p g) (World d p u)).
  unfold world_rel, outcome_rel in Hs. cbn [w_dut w_pins w_rng] in Hs.
  specialize (Hs (conj eq_refl (conj eq_refl I))).
  destruct (c (World d p g)) as [[a w] | e] eqn:E,
           (c0 (World d p u)) as [[b w'] | e'];
    cbn [agrees]; try contradiction.
  - destruct Hs as (Hab & Hd & Hp & _). subst b.
    repeat split; try assumption.
    + apply (HP _ _ _ E).
    + apply (Hk _ _ _ E).
  - exact Hs.
Qed.

Lemma bind_with_rng {A B : Type} (f : G -> A * G)
    (k : A -> M (world D G) B) d p g :
  bind (with_rng f) k (World d p g) = k (fst (f g)) (World d p (snd (f g))).
Proof.
  unfold bind, with_rng. cbn [w_dut w_pins w_rng].
  destruct (f g) as [a g']. reflexivity.
Qed.

Lemma trial_run_agrees cfg mp p d pn g u :
  agrees eq (trial_advance cfg g)
    (trial_run cfg mp p (World d pn g))
    (scheduled_trial_run cfg mp p g (World d pn u)).
Proof.
  unfold trial_run, scheduled_trial_run. cbv zeta.
  destruct (draw_bits_spec (Z.to_nat (PAYLOAD_LEN cfg)) g) as [Hlen Hg].
  eapply agrees_bind.
  { apply (agrees_device _ _ (fun _ => True)
             (same_reset_chain eq _ eq_device_simulation)
             (keeps_reset_chain (G := G))). auto. }
  intros _ _ d1 p1 u1 _. rewrite bind_with_rng, Hg.
  eapply agrees_bind.
  { apply (agrees_device _ _
             (fun coded : list (Z * Z) =>
                length coded =
                (Z.to_nat (PAYLOAD_LEN cfg) + Z.to_nat (TB_LEN cfg))%nat)
             (same_encode_stream eq _ eq_device_simulation _ _ _)
             (keeps_encode_stream (G := G) _ _ _)).
    intros w a w' E. rewrite (encode_stream_length _ _ _ _ _ _ E).
    rewrite length_app, repeat_length, Hlen. reflexivity. }
  intros coded coded' d2 p2 u2 [<- Hc]. rewrite bind_with_rng.
  rewrite flip_channel_rng, Hc.
  eapply agrees_bind.
  { apply (agrees_device _ _ (fun _ => True)
             (same_decode_stream eq _ eq_device_simulation _ _)
             (keeps_decode_stream (G := G) _ _)). auto. }
  intros decided decided' d3 p3 u3 [<- _]. apply agrees_ret.
Qed.

Lemma trial_agrees cfg mp p d pn g u :
  agrees eq (trial_advance cfg g)
    (trial cfg mp p (World d pn g))
    (scheduled_trial cfg mp p g (World d pn u)).
Proof.
  unfold trial, scheduled_trial.
  eapply agrees_bind; [apply trial_run_agrees |].
  intros pd pd' d1 p1 u1 <-. apply agrees_lift.
Qed.

Lemma trials_agrees cfg mp p (n : nat) :
  forall e t d pn g u,
    agrees (fun (et : Z * Z) (s : Z) =>
              et = (e + s, t + Z.of_nat n * PAYLOAD_LEN cfg))
      (Nat.iter n (trial_advance cfg) g)
      (trials_loop n cfg mp p e t (World d pn g))
      (scheduled_trials n cfg mp p g (World d pn u)).
Proof.
  induction n as [| n IH]; intros e t d pn g u.
  - cbn. repeat split. f_equal; lia.
  - cbn [trials_loop scheduled_trials].
    eapply agrees_bind; [apply trial_agrees |].
    intros errs errs' d1 p1 u1 <-. rewrite Nat.iter_succ_r.
    apply (agrees_post _ _ _ _ _ _ _ (IH _ _ _ _ _ _)).
    intros et s ->. f_equal; lia.
Qed.

Lemma sweep_point_agrees cfg mp p d pn g u :
  agrees eq (point_advance cfg g)
    (sweep_point cfg mp p (World d pn g))
    (scheduled_point cfg mp p g (World d pn u)).
Proof.
  unfold sweep_point, scheduled_point.
  eapply agrees_bind; [apply trials_agrees |].
  intros [e t] s d1 p1 u1 Hs. injection Hs as -> ->.
  cbn [agrees ret fst snd w_dut w_pins w_rng]. repeat split.
Qed.

Lemma sweep_agrees cfg mp (ps : list Q) :
  forall d pn g u,
    agrees eq (Nat.iter (length ps) (point_advance cfg) g)
      (sweep cfg mp ps (World d pn g))
      (scheduled_points cfg mp ps g (World d pn u)).
Proof.
  induction ps as [| p rest IH]; intros d pn g u.
  - apply agrees_ret.
  - cbn [sweep scheduled_points length].
    eapply agrees_bind; [apply sweep_point_agrees |].
    intros r r' d1 p1 u1 <-. rewrite Nat.iter_succ_r.
    eapply agrees_bind; [apply IH |].
    intros rows rows' d2 p2 u2 <-. apply agrees_ret.
Qed.

Lemma calibrate_agrees tb lat d pn g u :
  agrees eq (Nat.iter 64 after_randint g)
    (calibrate_mapping tb lat (World d pn g))
    (scheduled_calibration tb lat g (World d pn u)).
Proof.
  unfold calibrate_mapping, scheduled_calibration. cbv zeta.
  destruct (draw_bits_spec 64 g) as [_ Hg].
  rewrite bind_with_rng, Hg.
  eapply agrees_bind.
  { apply (agrees_device _ _ (fun _ => True)
             (same_one_pass_errors eq _ eq_device_simulation _ _ _ _)
             (keeps_one_pass_errors (G := G) _ _ _ _)). auto. }
  intros a a' d1 p1 u1 [<- _].
  eapply agrees_bind.
  { apply (agrees_device _ _ (fun _ => True)
             (same_one_pass_errors eq _ eq_device_simulation _ _ _ _)
             (keeps_one_pass_errors (G := G) _ _ _ _)). auto. }
  intros b b' d2 p2 u2 [<- _].
  destruct (fst a <=? fst b); apply agrees_ret.
Qed.

Lemma sweep_on_schedule (cfg : config) (d : D) (p0 : pins) :
  test_ber_sweep cfg d p0 = scheduled_sweep cfg d p0.
Proof.
  unfold test_ber_sweep, scheduled_sweep. cbv zeta.
  assert (Ha : agrees eq
            (Nat.iter (length (P_FLIPS cfg)) (point_advance cfg)
               (Nat.iter 64 after_randint (seed_rng (rng_seed cfg))))
            ((mp <- calibrate_mapping (TB_LEN cfg) (ENC_LATENCY cfg) ;;
              sweep cfg mp (P_FLIPS cfg))
               (World d p0 (seed_rng (rng_seed cfg))))
            ((mp <- scheduled_calibration (TB_LEN cfg) (ENC_LATENCY cfg)
                      (seed_rng (rng_seed cfg)) ;;
              scheduled_points cfg mp (P_FLIPS cfg)
                (Nat.iter 64 after_randint (seed_rng (rng_seed cfg))))
               (World d p0 tt))).
  { eapply agrees_bind; [apply calibrate_agrees |].
    intros mp mp' d1 p1 u1 <-. apply sweep_agrees. }
  revert Ha.
  match goal with
  | |- agrees _ _ ?o ?o' -> _ =>
      destruct o as [[rows w] | e], o' as [[rows' w'] | e']
  end; cbn [agrees result_of]; try contradiction.
  - intros (-> & _). reflexivity.
  - intros ->. reflexivity.
Qed.

End ScheduledSweep.

(** ** [simulate_ber] and the generator of the module *)

Section SoftwareSchedule.

Import Encoder Trellis Viterbi.

Context {N : Type} `{NumpyLink N}.

(** What numpy's generator gives: [rng.integers(0, 2, size=n)] returns [n]
    values, and the noise of [add_awgn], [rng.normal(0, sigma,
    size=sig.shape)], takes as many draws as the signal has samples,
    whatever the samples and [sigma] are: the generator after the link
    depends on the number of transmitted bits and [sps] only. *)
Definition noise_advance (n : nat) (sps : Z) (g : N) : N :=
  snd (hard_link 0 sps (repeat 0 n) g).

Definition sized_draws : Prop :=
  forall n g, length (fst (integers01 n g)) = n.

Definition data_independent_noise : Prop :=
  forall eb sps tx g,
    snd (hard_link eb sps tx g) = noise_advance (length tx) sps g.

(** The generator after one point of [simulate_ber]: the payload, the
    noise on its [2 * (nbits + K - 1)] coded bits, the uncoded bits and
    their noise. *)
Definition ber_point_advance (nbits : nat) (sps : Z) (g : N) : N :=
  noise_advance nbits sps
    (snd (integers01 nbits
            (noise_advance (2 * (nbits + 2)) sps
               (snd (integers01 nbits g))))).

Lemma simulate_ber_point_rng (nbits : nat) (eb : Q) (sps : Z) (g : N) :
  sized_draws -> data_independent_noise ->
  snd (simulate_ber_point nbits eb sps g) = ber_point_advance nbits sps g.
Proof.
  intros Hsz Hdi. unfold simulate_ber_point, ber_point_advance.
  pose proof (Hsz nbits g) as Hp.
  destruct (integers01 nbits g) as [payload g1]. cbn [fst snd] in *.
  pose proof (Hdi eb sps (conv_encode_7_5 (add_tail_K payload K)) g1) as H1.
  unfold conv_encode_7_5 in H1 at 2.
  rewrite length_conv_encode_from in H1. unfold add_tail_K in H1 at 2.
  rewrite length_app, repeat_length, Hp in H1.
  change (Z.to_nat (K - 1)) with 2%nat in H1.
  destruct (hard_link eb sps (conv_encode_7_5 (add_tail_K payload K)) g1)
    as [hard g2]. cbn [snd] in H1. subst g2.
  pose proof (Hsz nbits (noise_advance (2 * (nbits + 2)) sps g1)) as Hu.
  destruct (integers01 nbits (noise_advance (2 * (nbits + 2)) sps g1))
    as [u_bits g3]. cbn [fst snd] in *.
  pose proof (Hdi eb sps u_bits g3) as H2. rewrite Hu in H2.
  destruct (hard_link eb sps u_bits g3) as [u_hard g4]. cbn [snd] in *.
  exact H2.
Qed.

Lemma simulate_ber_rows (nbits : nat) (sps : Z) :
  sized_draws -> data_independent_noise ->
  forall (ebn0_list : list Q) (g : N) (j : nat) (eb : Q),
    ebn0_list !! j = Some eb ->
    fst (simulate_ber nbits ebn0_list sps g) !! j =
    Some (fst (simulate_ber_point nbits eb sps
                 (Nat.iter j (ber_point_advance nbits sps) g))).
Proof.
  intros Hsz Hdi ebn0_list.
  induction ebn0_list as [| eb0 rest IH]; intros g j eb Hj; [discriminate |].
  cbn [simulate_ber].
  pose proof (simulate_ber_point_rng nbits eb0 sps g Hsz Hdi) as Hg.
  destruct (simulate_ber_point nbits eb0 sps g) as [r g1] eqn:Er.
  cbn [snd] in Hg. subst g1.
  destruct j as [| j].
  - injection Hj as <-.
    destruct (simulate_ber nbits rest sps (ber_point_advance nbits sps g)).
    cbn. rewrite Er. reflexivity.
  - specialize (IH (ber_point_advance nbits sps g) j eb Hj).
    destruct (simulate_ber nbits rest sps (ber_point_advance nbits sps g))
      as [rows g'].
    cbn [fst] in *. rewrite Nat.iter_succ_r. exact IH.
Qed.

Lemma main_ber_rows_scheduled `{NumpySeed N} (j : nat) :
  sized_draws -> data_independent_noise -> (j < 8)%nat ->
  main_ber_rows !! j =
  Some (fst (simulate_ber_point (Z.to_nat 20000) (inject_Z (Z.of_nat j)) 8
               (Nat.iter j (ber_point_advance (Z.to_nat 20000) 8)
                  (default_rng 42)))).
Proof.
  intros Hsz Hdi Hj. unfold main_ber_rows, rng.
  apply (simulate_ber_rows _ _ Hsz Hdi).
  do 8 (destruct j as [| j]; [reflexivity |]). lia.
Qed.

End SoftwareSchedule.

(** C4: determinism under a fixed seed.  (1) For every configuration,
    device and generator, the sweep of the harness is the sweep on its
    schedule: the generator is created from the configured seed, the
    calibration payload is its first 64 calls of [randint(0, 1)], and every
    trial, in the order of the loops, takes [PAYLOAD_LEN] calls of
    [randint(0, 1)] for its payload and then [2 * (PAYLOAD_LEN + TB_LEN)]
    calls of [random()] for its flips; the rows hold the summed errors,
    [TRIALS * PAYLOAD_LEN] and their ratio.  (2) Two runs on one
    configuration give the same rows, or raise the same exception, whenever
    their generators return equal draws for equal sequences of calls and
    their devices equal signals for equal sequences of clock edges.
    (3) [simulate_ber] computes row [j] from the generator of the module
    [j] points after the state it was called in, a point being a fixed
    number of draws, when numpy returns as many values as asked for.
    (4) The rows [main] gets are those points counted from
    [default_rng(42)]. *)
Theorem sweep_deterministic :
  (forall (D G : Type) `{Dut D} `{PyRandom G}
          (cfg : config) (d : D) (p0 : pins),
      test_ber_sweep cfg d p0 = scheduled_sweep cfg d p0) /\
  (forall (D1 D2 G1 G2 : Type)
          (U1 : Dut D1) (U2 : Dut D2) (P1 : PyRandom G1) (P2 : PyRandom G2)
          (Rd : D1 -> D2 -> Prop) (R : G1 -> G2 -> Prop),
      device_simulation Rd -> generator_simulation R ->
      forall (cfg : config) (d1 : D1) (d2 : D2) (p0 : pins),
        Rd d1 d2 ->
        test_ber_sweep (D := D1) (G := G1) cfg d1 p0 =
        test_ber_sweep (D := D2) (G := G2) cfg d2 p0) /\
  (forall (N : Type) `{NumpyLink N},
      sized_draws -> data_independent_noise ->
      forall (nbits : nat) (ebn0_list : list Q) (sps : Z) (g : N)
             (j : nat) (eb : Q),
        ebn0_list !! j = Some eb ->
        fst (simulate_ber nbits ebn0_list sps g) !! j =
        Some (fst (simulate_ber_point nbits eb sps
                     (Nat.iter j (ber_point_advance nbits sps) g)))) /\
  (forall (N : Type) `{NumpyLink N} `{NumpySeed N},
      sized_draws -> data_independent_noise ->
      forall j : nat, (j < 8)%nat ->
        main_ber_rows !! j =
        Some (fst (simulate_ber_point (Z.to_nat 20000)
                     (inject_Z (Z.of_nat j)) 8
                     (Nat.iter j (ber_point_advance (Z.to_nat 20000) 8)
                        (default_rng 42))))).
Proof.
  split; [| split; [| split]].
  - intros D G HD HG cfg d p0. apply sweep_on_schedule.
  - intros D1 D2 G1 G2 U1 U2 P1 P2 Rd R HRd HR cfg d1 d2 p0 Hd.
    apply (same_test_ber_sweep Rd R HRd HR cfg d1 d2 p0 Hd).
  - intros N HN Hsz Hdi nbits ebn0_list sps g j eb Hj.
    apply simulate_ber_rows; assumption.
  - intros N HN HS Hsz Hdi j Hj.
    apply main_ber_rows_scheduled; assumption.
Qed.

Section ScheduleSamples.

Import Samples SeededLinkSample.

Lemma stepping_link_sized : sized_draws (N := Z).
Proof. intros n g. apply (draw_bits_spec (G := Z) n g). Qed.

Lemma stepping_link_data_independent : data_independent_noise (N := Z).
Proof.
  intros eb sps tx g. unfold noise_advance.
  cbn [hard_link stepping_link snd]. rewrite repeat_length. reflexivity.
Qed.

Lemma sweep_deterministic_witness :
  test_ber_sweep (D := toy) (G := Z) small_config toy_reset idle_pins =
    scheduled_sweep (D := toy) (G := Z) small_config toy_reset idle_pins /\
  test_ber_sweep (D := toy) (G := Z) small_config toy_reset idle_pins =
    test_ber_sweep (D := toy) (G := Z * nat) small_config toy_reset idle_pins /\
  fst (simulate_ber (N := Z) 5 [0 # 1; 3 # 1]%Q 8 42) !! 1%nat =
    Some (fst (simulate_ber_point 5 (3 # 1) 8
                 (Nat.iter 1 (ber_point_advance 5 8) 42))) /\
  main_ber_rows (N := Z) !! 2%nat =
    Some (fst (simulate_ber_point (Z.to_nat 20000)
                 (inject_Z (Z.of_nat 2)) 8
                 (Nat.iter 2 (ber_point_advance (Z.to_nat 20000) 8)
                    (default_rng 42)))).
Proof.
  destruct sweep_deterministic as (H1 & H2 & H3 & H4).
  split; [| split; [| split]].
  - apply H1.
  - apply (H2 toy toy Z (Z * nat)%type toy_dut toy_dut lcg lcg_counted
             eq (fun g1 g2 => g1 = fst g2)
             toy_simulates_itself lcg_counted_simulates_lcg).
    reflexivity.
  - apply (H3 Z stepping_link stepping_link_sized
             stepping_link_data_independent).
    reflexivity.
  - apply (H4 Z stepping_link lcg_seed stepping_link_sized
             stepping_link_data_independent).
    lia.
Defined.

End ScheduleSamples.
